(** * Transcription reporting: validation grammar and record lifecycle

    A shallow embedding of
      - [apps/web/src/lib/validation.ts] (the template validator and the
        semantic checks on the extracted fields), and
      - [apps/api/src/modules/meetings/meetings.service.ts] (record creation,
        daily statistics, the batch and the background synchronisation),
    together with the properties of the specification that concern them.

    JavaScript strings are sequences of UTF-16 code units; they are modelled
    as lists of [N].  Regular expressions are embedded as the syntax tree of
    the literal together with a backtracking matcher that follows the order
    of alternatives of the ECMAScript matcher. *)

From Stdlib Require Import ZArith NArith Lia Bool.
From Stdlib Require QArith DecimalString.
From stdpp Require Import base option list gmap sorting strings.

Set Default Proof Using "Type".

(* ===================================================================== *)
(** * JavaScript strings *)
(* ===================================================================== *)

Module JS.

Local Open Scope N_scope.

(** A UTF-16 code unit. *)
Definition char : Type := N.
Definition jsstring : Type := list char.

(** An ASCII literal of the source as a sequence of code units. *)
Definition ofAscii (s : string) : jsstring :=
  List.map Ascii.N_of_ascii (String.list_ascii_of_string s).

(** ECMAScript [LineTerminator]: LF, CR, LS, PS. *)
Definition isLineTerminator (c : char) : bool :=
  (c =? 0x0A) || (c =? 0x0D) || (c =? 0x2028) || (c =? 0x2029).

(** ECMAScript [WhiteSpace]: TAB, VT, FF, ZWNBSP and the space separators. *)
Definition isWhiteSpace (c : char) : bool :=
  (c =? 0x09) || (c =? 0x0B) || (c =? 0x0C) || (c =? 0x20) || (c =? 0xA0)
  || (c =? 0x1680) || ((0x2000 <=? c) && (c <=? 0x200A))
  || (c =? 0x202F) || (c =? 0x205F) || (c =? 0x3000) || (c =? 0xFEFF).

(** What [String.prototype.trim], [parseInt] and the class escape [\s]
    all regard as blank. *)
Definition isStrWhiteSpaceChar (c : char) : bool :=
  isWhiteSpace c || isLineTerminator c.

Fixpoint trimStart (s : jsstring) : jsstring :=
  match s with
  | [] => []
  | c :: s' => if isStrWhiteSpaceChar c then trimStart s' else s
  end.

Definition trimEnd (s : jsstring) : jsstring := rev (trimStart (rev s)).

(** [String.prototype.trim] *)
Definition trim (s : jsstring) : jsstring := trimEnd (trimStart s).

(** [Array.prototype.join] on an array of strings. *)
Fixpoint join (sep : jsstring) (l : list jsstring) : jsstring :=
  match l with
  | [] => []
  | [x] => x
  | x :: l' => x ++ sep ++ join sep l'
  end.

Definition isDigit (c : char) : bool := (0x30 <=? c) && (c <=? 0x39).
Definition isUpper (c : char) : bool := (0x41 <=? c) && (c <=? 0x5A).
Definition isLower (c : char) : bool := (0x61 <=? c) && (c <=? 0x7A).
Definition isLetter (c : char) : bool := isLower c || isUpper c.

(** The value of a run of decimal digits, most significant first. *)
Fixpoint digitsValue (acc : Z) (s : jsstring) : Z :=
  match s with
  | [] => acc
  | c :: s' => digitsValue (10 * acc + (Z.of_N c - 48))%Z s'
  end.

Fixpoint takeDigits (s : jsstring) : jsstring :=
  match s with
  | [] => []
  | c :: s' => if isDigit c then c :: takeDigits s' else []
  end.

(** [parseInt(s, 10)].  Leading blanks are skipped, one sign is read, the
    longest run of decimal digits is taken; [None] stands for [NaN].  The
    result is the mathematical integer: the conversion to a Number is
    monotone and exact on 0 and 999, so the comparisons made on the result
    by [isValidGroupNumber] are those of the integer. *)
Definition parseInt10 (s : jsstring) : option Z :=
  let S0 := trimStart s in
  let sign : Z := match S0 with c :: _ => if c =? 0x2D then (-1)%Z else 1%Z | [] => 1%Z end in
  let S1 := match S0 with
            | c :: r => if (c =? 0x2B) || (c =? 0x2D) then r else S0
            | [] => S0
            end in
  let Zs := takeDigits S1 in
  match Zs with
  | [] => None
  | _ => Some (sign * digitsValue 0 Zs)%Z
  end.

End JS.

(* ===================================================================== *)
(** * Regular expressions *)
(* ===================================================================== *)

Module RegExp.
Import JS.

Local Open Scope N_scope.

(** The pattern constructs that occur in the regular expressions of
    [validation.ts]. *)
Inductive term : Type :=
  | AssertStart                       (* ^ *)
  | AssertEnd                         (* $ *)
  | Lit (c : char)                    (* a pattern character *)
  | Opt (c : char)                    (* c?   greedy *)
  | LazyGroup (cs : char -> bool)     (* (X+?) capturing, X a character set *)
  | GreedyPlus (cs : char -> bool).   (* X+    X a character set *)

Record regexp : Type := mkRegexp {
  ignoreCase : bool;   (* the i flag *)
  source : list term;
}.

(** [Canonicalize] without the u flag: the code unit is upper-cased.  For a
    code unit of 128 or more the result never falls below 128, hence never
    meets the canonical form of an ASCII pattern character; such code units
    are left as they are. *)
Definition Canonicalize (ic : bool) (c : char) : char :=
  if ic && isLower c then c - 0x20 else c.

Definition charMatches (ic : bool) (x pc : char) : bool :=
  Canonicalize ic x =? Canonicalize ic pc.

(** The atom [.] without the s flag. *)
Definition dot (c : char) : bool := negb (isLineTerminator c).

(** The result of a match and the continuation of a matcher, as in the
    ECMAScript matcher: the captures of the rest of the pattern, or failure. *)
Definition MatchResult : Type := option (list jsstring).
Definition Continuation : Type := nat -> jsstring -> MatchResult.

(** [(X+?)]: one character of X, then the continuation is tried before any
    further character is taken; the characters taken are the capture. *)
Fixpoint lazyPlus (cs : char -> bool) (k : Continuation)
    (i : nat) (s : jsstring) (acc : jsstring) : MatchResult :=
  match s with
  | [] => None
  | x :: s' =>
      if cs x then
        match k (S i) s' with
        | Some r => Some (rev (x :: acc) :: r)
        | None => lazyPlus cs k (S i) s' (x :: acc)
        end
      else None
  end.

(** [X+]: one character of X, then further characters are taken before the
    continuation is tried. *)
Fixpoint greedyPlus (cs : char -> bool) (k : Continuation)
    (i : nat) (s : jsstring) : MatchResult :=
  match s with
  | [] => None
  | x :: s' =>
      if cs x then
        match greedyPlus cs k (S i) s' with
        | Some r => Some r
        | None => k (S i) s'
        end
      else None
  end.

(** The backtracking matcher: [matchAt ic ts i s] runs the terms [ts] on the
    input suffix [s] that starts at index [i], and yields the captures of the
    first successful alternative. *)
Fixpoint matchAt (ic : bool) (ts : list term) (i : nat) (s : jsstring)
  : MatchResult :=
  match ts with
  | [] => Some []
  | AssertStart :: ts' =>
      match i with O => matchAt ic ts' i s | _ => None end
  | AssertEnd :: ts' =>
      match s with [] => matchAt ic ts' i s | _ => None end
  | Lit c :: ts' =>
      match s with
      | x :: s' => if charMatches ic x c then matchAt ic ts' (S i) s' else None
      | [] => None
      end
  | Opt c :: ts' =>
      match s with
      | x :: s' =>
          if charMatches ic x c then
            match matchAt ic ts' (S i) s' with
            | Some r => Some r
            | None => matchAt ic ts' i s
            end
          else matchAt ic ts' i s
      | [] => matchAt ic ts' i s
      end
  | LazyGroup cs :: ts' => lazyPlus cs (matchAt ic ts') i s []
  | GreedyPlus cs :: ts' => greedyPlus cs (matchAt ic ts') i s
  end.

(** [RegExpBuiltinExec] for a regular expression without the g and y flags:
    the match is attempted at every index from 0 on. *)
Fixpoint execFrom (ic : bool) (ts : list term) (i : nat) (s : jsstring)
  : MatchResult :=
  match matchAt ic ts i s with
  | Some r => Some r
  | None =>
      match s with
      | [] => None
      | _ :: s' => execFrom ic ts (S i) s'
      end
  end.

(** [s.match(re)]: the captures [match[1]], [match[2]], ... or [None] for
    [null]. *)
Definition exec (re : regexp) (s : jsstring) : MatchResult :=
  execFrom (ignoreCase re) (source re) 0 s.

(** [re.test(s)] *)
Definition test (re : regexp) (s : jsstring) : bool :=
  match exec re s with Some _ => true | None => false end.

Definition lits (s : jsstring) : list term := List.map Lit s.

End RegExp.

(* ===================================================================== *)
(** * The validator of [validation.ts] *)
(* ===================================================================== *)

Module Validation.
Import JS RegExp.

Local Open Scope N_scope.

Record VoiceMessage : Type := mkVoiceMessage {
  speakerName : jsstring;
  groupNumber : jsstring;
  personMet : jsstring;
  location : jsstring;
}.

(** [errors] and [confidence] are optional members; [extractedData] is
    [null] when absent. *)
Record ValidationResult : Type := mkValidationResult {
  isValid : bool;
  message : jsstring;
  extractedData : option VoiceMessage;
  errors : option (list jsstring);
  confidence : option QArith_base.Q;
}.

Definition lit_my_name_is : jsstring :=
  Eval cbv in ofAscii "my name is ".
Definition lit_and_i_belong_to_group : jsstring :=
  Eval cbv in ofAscii " and i belong to group ".
Definition lit_and_today_i_met : jsstring :=
  Eval cbv in ofAscii " and today i met ".
Definition lit_at : jsstring :=
  Eval cbv in ofAscii " at ".

(** [/^my name is (.+?) and i belong to group (.+?) and today i met (.+?) at (.+?)\.?$/i] *)
Definition REQUIRED_PATTERN : regexp :=
  mkRegexp true
    (AssertStart
       :: lits lit_my_name_is ++ LazyGroup dot
       :: lits lit_and_i_belong_to_group ++ LazyGroup dot
       :: lits lit_and_today_i_met ++ LazyGroup dot
       :: lits lit_at ++ LazyGroup dot
       :: [Opt 0x2E; AssertEnd]).

(** The class [[a-zA-Z\s\-\.\']] *)
Definition nameClass (c : char) : bool :=
  isLower c || isUpper c || isStrWhiteSpaceChar c
  || (c =? 0x2D) || (c =? 0x2E) || (c =? 0x27).

(** The class [[a-zA-Z0-9\s\-\.\,\']] *)
Definition locationClass (c : char) : bool :=
  isLower c || isUpper c || isDigit c || isStrWhiteSpaceChar c
  || (c =? 0x2D) || (c =? 0x2E) || (c =? 0x2C) || (c =? 0x27).

(** [/^[a-zA-Z\s\-\.\']+$/] *)
Definition NAME_PATTERN : regexp :=
  mkRegexp false [AssertStart; GreedyPlus nameClass; AssertEnd].

(** [/^[a-zA-Z0-9\s\-\.\,\']+$/] *)
Definition LOCATION_PATTERN : regexp :=
  mkRegexp false [AssertStart; GreedyPlus locationClass; AssertEnd].

Definition isValidName (name : jsstring) : bool :=
  (2 <=? length name)%nat && (length name <=? 100)%nat && test NAME_PATTERN name.

Definition isValidGroupNumber (groupStr : jsstring) : bool :=
  match parseInt10 groupStr with
  | None => false
  | Some groupNum => (0 <? groupNum)%Z && (groupNum <=? 999)%Z
  end.

Definition isValidLocation (location : jsstring) : bool :=
  (2 <=? length location)%nat && (length location <=? 200)%nat
  && test LOCATION_PATTERN location.

Definition msg_invalid_speaker : jsstring :=
  Eval cbv in ofAscii "Invalid speaker name".
Definition msg_invalid_group : jsstring :=
  Eval cbv in ofAscii "Group number must be a valid number".
Definition msg_invalid_person : jsstring :=
  Eval cbv in ofAscii "Invalid person name".
Definition msg_invalid_location : jsstring :=
  Eval cbv in ofAscii "Invalid location".

(** The array [errors] is threaded through the four [if] statements. *)
Definition validateExtractedData (data : VoiceMessage) : list jsstring :=
  let errors : list jsstring := [] in
  let errors :=
    if negb (isValidName (speakerName data))
    then errors ++ [msg_invalid_speaker] else errors in
  let errors :=
    if negb (isValidGroupNumber (groupNumber data))
    then errors ++ [msg_invalid_group] else errors in
  let errors :=
    if negb (isValidName (personMet data))
    then errors ++ [msg_invalid_person] else errors in
  let errors :=
    if negb (isValidLocation (location data))
    then errors ++ [msg_invalid_location] else errors in
  errors.

Definition msg_data_issues : jsstring :=
  Eval cbv in ofAscii "Format is correct but data has issues: ".
Definition sep_comma : jsstring := Eval cbv in ofAscii ", ".

(** U+2705 followed by the text of the success message. *)
Definition msg_perfect : jsstring :=
  Eval cbv in 0x2705 :: ofAscii " Perfect! The message follows the required format.".

(** The sentence quoted inside the format hint. *)
Definition template_text : jsstring :=
  Eval cbv in ofAscii
    "My name is [name] and I belong to group [#] and today I met [name] at [location].".

(** U+274C, the request, and the quoted template (U+0022 is the quote). *)
Definition msg_format_hint : jsstring :=
  Eval cbv in
    0x274C :: ofAscii " Please follow the exact format: "
      ++ [0x22] ++ template_text ++ [0x22].

(** The pattern has four groups, so that a match carries four captures
    [match[1]] to [match[4]]; [null] is the only other answer of [match]. *)
Definition validateTranscription (text : jsstring) : ValidationResult :=
  let trimmedText := trim text in
  match trimmedText with
  | [] => mkValidationResult false [] None None None
  | _ :: _ =>
      match exec REQUIRED_PATTERN trimmedText with
      | Some [m1; m2; m3; m4] =>
          let extractedData :=
            mkVoiceMessage (trim m1) (trim m2) (trim m3) (trim m4) in
          let errors := validateExtractedData extractedData in
          if (0 <? length errors)%nat then
            mkValidationResult false
              (msg_data_issues ++ join sep_comma errors)
              (Some extractedData) (Some errors) None
          else
            mkValidationResult true msg_perfect (Some extractedData) None None
      | _ => mkValidationResult false msg_format_hint None None None
      end
  end.

End Validation.

(* ===================================================================== *)
(** * The meetings service of [meetings.service.ts] *)
(* ===================================================================== *)

Module Meetings.
Import JS.
Export Validation.

(** The time value of a JavaScript [Date]: milliseconds since the epoch. *)
Definition Date : Type := Z.

(** The identifier the storage engine generates for a record; identifiers
    are handed out by a counter, so that they are unique. *)
Definition RecordId : Type := positive.

Inductive RecordingStatus : Type :=
  SUBMITTED | VALIDATED | PROCESSED | FAILED | ARCHIVED.

Inductive ProcessingStatus : Type :=
  PENDING | PROCESSING | COMPLETED | PROCESSING_FAILED | RETRYING.

(** A row of the table [meeting_records]. *)
Record MeetingRow : Type := mkMeetingRow {
  mr_id : RecordId;
  mr_recordingDate : Date;
  mr_recordingDateTime : Date;
  mr_year : Z;
  mr_month : Z;
  mr_day : Z;
  mr_dayOfWeek : jsstring;
  mr_speakerName : jsstring;
  mr_groupNumber : jsstring;
  mr_personMet : jsstring;
  mr_location : jsstring;
  mr_fullTranscription : jsstring;
  mr_recordingDuration : jsstring;
  mr_audioFileUrl : option jsstring;
  mr_status : RecordingStatus;
  mr_processingStatus : ProcessingStatus;
  mr_validationScore : QArith_base.Q;
  mr_ipAddress : option jsstring;
  mr_userAgent : option jsstring;
  mr_syncedToSheets : bool;
  mr_googleSheetsRowId : option jsstring;
  mr_sheetsLastSync : option Date;
  mr_createdAt : Date;
  mr_updatedAt : Date;
}.

(** The [data] argument of [prisma.meetingRecord.create] in
    [createMeetingRecord]. *)
Record CreateData : Type := mkCreateData {
  cd_recordingDate : Date;
  cd_recordingDateTime : Date;
  cd_year : Z;
  cd_month : Z;
  cd_day : Z;
  cd_dayOfWeek : jsstring;
  cd_speakerName : jsstring;
  cd_groupNumber : jsstring;
  cd_personMet : jsstring;
  cd_location : jsstring;
  cd_fullTranscription : jsstring;
  cd_recordingDuration : jsstring;
  cd_audioFileUrl : option jsstring;
  cd_status : RecordingStatus;
  cd_processingStatus : ProcessingStatus;
  cd_validationScore : QArith_base.Q;
  cd_ipAddress : option jsstring;
  cd_userAgent : option jsstring;
}.

(** The [data] argument of the two calls of [prisma.meetingRecord.update]:
    a member that is not mentioned is [None]. *)
Record UpdateData : Type := mkUpdateData {
  ud_syncedToSheets : option bool;
  ud_googleSheetsRowId : option jsstring;
  ud_sheetsLastSync : option Date;
}.

(** A row of the table [daily_stats]. *)
Record DailyStatsRow : Type := mkDailyStatsRow {
  ds_date : Date;
  ds_totalRecordings : Z;
  ds_successfulRecordings : Z;
  ds_failedRecordings : Z;
  ds_uniqueGroups : Z;
  ds_uniqueSpeakers : Z;
  ds_averageDuration : QArith_base.Q;
}.

(** What [dateUtils.getCurrentDateData()] returns, as far as the service
    reads it. *)
Record DateData : Type := mkDateData {
  dd_recordingDate : jsstring;       (* YYYY-MM-DD *)
  dd_recordingDateTime : jsstring;
  dd_year : Z;
  dd_month : Z;
  dd_day : Z;
  dd_dayOfWeek : jsstring;
}.

Record Metadata : Type := mkMetadata {
  ipAddress : option jsstring;
  userAgent : option jsstring;
}.

Record CreateMeetingRecordDto : Type := mkDto {
  fullTranscription : jsstring;
  recordingDuration : jsstring;
  metadata : option Metadata;
}.

(** [Express.Multer.File], as far as [saveAudioFile] reads it. *)
Record AudioFile : Type := mkAudioFile {
  originalname : jsstring;
}.

(** The interface [MeetingRecord] of the shared types: what
    [formatMeetingRecord] hands to the caller. *)
Record MeetingRecord : Type := mkMeetingRecord {
  id : RecordId;
  recordingDate : jsstring;
  recordingDateTime : jsstring;
  recordingDateDisplay : jsstring;
  recordingTime : jsstring;
  speakerName : jsstring;
  groupNumber : jsstring;
  personMet : jsstring;
  location : jsstring;
  fullTranscriptionOut : jsstring;
  recordingDurationOut : jsstring;
  year : Z;
  month : Z;
  day : Z;
  dayOfWeek : jsstring;
  status : RecordingStatus;
  processingStatus : ProcessingStatus;
  validationScore : QArith_base.Q;
  audioFileUrl : option jsstring;
  googleSheetsRowId : option jsstring;
  syncedToSheets : bool;
  sheetsLastSync : option jsstring;
  createdAt : jsstring;
  updatedAt : jsstring;
}.

(** The argument of [BadRequestException]: an object with a code, or a bare
    message. *)
Inductive BadRequestBody : Type :=
  | ErrorObject (code : jsstring) (message : jsstring)
                (details : option (list jsstring))
  | ErrorMessage (message : jsstring).

Inductive Exception : Type :=
  | BadRequestException (body : BadRequestBody)
  | TypeError                (* a member of [null] is read *)
  | StorageError             (* a storage call is rejected *)
  | SinkError.               (* the external sink is rejected *)

(** The state the service acts on: the two tables, the identifier counter of
    the storage engine, and the callbacks queued by [setImmediate] (each one
    is the closure of [processBackgroundTasks] over a record identifier). *)
Record World : Type := mkWorld {
  meetingRecords : gmap RecordId MeetingRow;
  dailyStats : gmap Date DailyStatsRow;
  nextId : RecordId;
  immediates : list RecordId;
}.

(** What the collaborators answer during one call of the service: the clock,
    which storage calls are rejected, and what the external sink returns
    ([None] when [addRecord] throws). *)
Record Env : Type := mkEnv {
  getCurrentDateData : DateData;
  now : Date;
  createThrows : bool;
  upsertThrows : bool;
  findManyThrows : bool;
  findUniqueThrows : bool;
  updateThrows : RecordId -> bool;
  addRecord : MeetingRow -> option jsstring;
}.

(** ** Computations that read and write the world and may throw *)

Inductive Outcome (A : Type) : Type :=
  | Returned (a : A)
  | Thrown (e : Exception).
Arguments Returned {A} a.
Arguments Thrown {A} e.

Definition M (A : Type) : Type := World -> Outcome A * World.

Definition ret {A} (a : A) : M A := fun w => (Returned a, w).

Definition bind {A B} (c : M A) (k : A -> M B) : M B :=
  fun w =>
    match c w with
    | (Returned a, w') => k a w'
    | (Thrown e, w') => (Thrown e, w')
    end.

Definition throw {A} (e : Exception) : M A := fun w => (Thrown e, w).

(** [try { c } catch (error) { h error }] *)
Definition tryCatch {A} (c : M A) (h : Exception -> M A) : M A :=
  fun w =>
    match c w with
    | (Returned a, w') => (Returned a, w')
    | (Thrown e, w') => h e w'
    end.

Notation "x <- c ;; k" := (bind c (fun x => k))
  (at level 100, c at next level, right associativity).
Notation "c ;;; k" := (bind c (fun _ => k))
  (at level 100, right associativity).

(** ** Storage *)

(** Modelled from the spec: the Prisma schema is not part of the sources.
    A new record is not yet synchronised ([syncedToSheets] false, and
    [googleSheetsRowId] and [sheetsLastSync], which are set together with
    it, absent); [createdAt] is the instant of creation and [updatedAt] is
    bumped on every mutation. *)
Definition newRow (i : RecordId) (t : Date) (d : CreateData) : MeetingRow :=
  mkMeetingRow i
    (cd_recordingDate d) (cd_recordingDateTime d)
    (cd_year d) (cd_month d) (cd_day d) (cd_dayOfWeek d)
    (cd_speakerName d) (cd_groupNumber d) (cd_personMet d) (cd_location d)
    (cd_fullTranscription d) (cd_recordingDuration d) (cd_audioFileUrl d)
    (cd_status d) (cd_processingStatus d) (cd_validationScore d)
    (cd_ipAddress d) (cd_userAgent d)
    false None None t t.

(** The row after an update with the data [u] at the instant [t]: the
    members that [u] mentions are replaced, and [updatedAt] is bumped. *)
Definition applyUpdate (t : Date) (u : UpdateData) (r : MeetingRow) : MeetingRow :=
  mkMeetingRow (mr_id r)
    (mr_recordingDate r) (mr_recordingDateTime r)
    (mr_year r) (mr_month r) (mr_day r) (mr_dayOfWeek r)
    (mr_speakerName r) (mr_groupNumber r) (mr_personMet r) (mr_location r)
    (mr_fullTranscription r) (mr_recordingDuration r) (mr_audioFileUrl r)
    (mr_status r) (mr_processingStatus r) (mr_validationScore r)
    (mr_ipAddress r) (mr_userAgent r)
    (default (mr_syncedToSheets r) (ud_syncedToSheets u))
    (match ud_googleSheetsRowId u with
     | Some x => Some x
     | None => mr_googleSheetsRowId r
     end)
    (match ud_sheetsLastSync u with
     | Some x => Some x
     | None => mr_sheetsLastSync r
     end)
    (mr_createdAt r) t.

(** [prisma.meetingRecord.create({ data })] *)
Definition prisma_meetingRecord_create (env : Env) (d : CreateData) : M MeetingRow :=
  fun w =>
    if createThrows env then (Thrown StorageError, w)
    else
      let i := nextId w in
      let row := newRow i (now env) d in
      (Returned row,
       mkWorld (<[i := row]> (meetingRecords w)) (dailyStats w)
               (Pos.succ i) (immediates w)).

(** [prisma.meetingRecord.update({ where: { id }, data })]: the call is
    rejected when there is no such record. *)
Definition prisma_meetingRecord_update (env : Env) (i : RecordId)
    (u : UpdateData) : M MeetingRow :=
  fun w =>
    match meetingRecords w !! i with
    | None => (Thrown StorageError, w)
    | Some r =>
        if updateThrows env i then (Thrown StorageError, w)
        else
          let r' := applyUpdate (now env) u r in
          (Returned r',
           mkWorld (<[i := r']> (meetingRecords w)) (dailyStats w)
                   (nextId w) (immediates w))
    end.

(** [prisma.meetingRecord.findUnique({ where: { id } })] *)
Definition prisma_meetingRecord_findUnique (env : Env) (i : RecordId)
  : M (option MeetingRow) :=
  fun w =>
    if findUniqueThrows env then (Thrown StorageError, w)
    else (Returned (meetingRecords w !! i), w).

(** The order of [orderBy: { recordingDate: "asc" }]. *)
Definition byRecordingDate (a b : MeetingRow) : Prop :=
  (mr_recordingDate a <= mr_recordingDate b)%Z.

#[global] Instance byRecordingDate_dec (a b : MeetingRow) :
  Decision (byRecordingDate a b) := Z_le_dec _ _.

(** What [findMany({ where: { syncedToSheets: false },
    orderBy: { recordingDate: "asc" }, take })] selects. *)
Definition unsyncedBatch (n : nat) (w : World) : list MeetingRow :=
  take n
    (merge_sort byRecordingDate
       (filter (fun r => mr_syncedToSheets r = false)
          (map_to_list (meetingRecords w)).*2)).

(** [prisma.meetingRecord.findMany({ where: { syncedToSheets: false },
    orderBy: { recordingDate: "asc" }, take })] *)
Definition prisma_meetingRecord_findMany_unsynced (env : Env) (n : nat)
  : M (list MeetingRow) :=
  fun w =>
    if findManyThrows env then (Thrown StorageError, w)
    else (Returned (unsyncedBatch n w), w).

(** [prisma.dailyStats.upsert({ where: { date }, update, create })] with the
    two arguments of [updateDailyStatistics]. *)
Definition prisma_dailyStats_upsert (env : Env) (dateObj : Date) : M unit :=
  fun w =>
    if upsertThrows env then (Thrown StorageError, w)
    else
      let row :=
        match dailyStats w !! dateObj with
        | Some r =>
            mkDailyStatsRow (ds_date r)
              (ds_totalRecordings r + 1) (ds_successfulRecordings r + 1)
              (ds_failedRecordings r) (ds_uniqueGroups r)
              (ds_uniqueSpeakers r) (ds_averageDuration r)
        | None =>
            mkDailyStatsRow dateObj 1 1 0 1 1 (QArith_base.Qmake 0 1)
        end in
      (Returned tt,
       mkWorld (meetingRecords w) (<[dateObj := row]> (dailyStats w))
               (nextId w) (immediates w)).

(** [setImmediate(callback)], the callback being the closure of
    [processBackgroundTasks] over [i]. *)
Definition setImmediate (i : RecordId) : M unit :=
  fun w =>
    (Returned tt,
     mkWorld (meetingRecords w) (dailyStats w) (nextId w)
             (immediates w ++ [i])).

(** [this.googleSheetsService.addRecord(record)] *)
Definition googleSheetsService_addRecord (env : Env) (r : MeetingRow) : M jsstring :=
  match addRecord env r with
  | Some rowId => ret rowId
  | None => throw SinkError
  end.

(** ** The service *)

Section Service.

(** The injected [ValidationService]. *)
Variable validationService : jsstring -> ValidationResult.

(** The [Date] constructor on a string, [Date.prototype.toISOString], and
    the two formatters of [DateUtilsService]. *)
Variable newDate : jsstring -> Date.
Variable toISOString : Date -> jsstring.
Variable formatDisplayDate : Date -> jsstring.
Variable formatDisplayTime : Date -> jsstring.

(** The decimal numeral of a number, for the template literal of
    [saveAudioFile]. *)
Variable numberToString : Z -> jsstring.

Definition code_INVALID_MESSAGE_FORMAT : jsstring :=
  Eval cbv in ofAscii "INVALID_MESSAGE_FORMAT".
Definition msg_failed_to_create : jsstring :=
  Eval cbv in ofAscii "Failed to create meeting record".

(** [s.split("T")[0]] *)
Fixpoint splitT0 (s : jsstring) : jsstring :=
  match s with
  | [] => []
  | c :: s' => if (c =? 0x54)%N then [] else c :: splitT0 s'
  end.

Definition saveAudioFile (env : Env) (audioFile : AudioFile) : M jsstring :=
  let filename :=
    ofAscii "audio_" ++ numberToString (now env) ++ ofAscii "_"
      ++ originalname audioFile in
  ret (ofAscii "/uploads/audio/" ++ filename).

Definition updateDailyStatistics (env : Env) (date : jsstring) : M unit :=
  let dateObj := newDate date in
  prisma_dailyStats_upsert env dateObj.

Definition formatMeetingRecord (record : MeetingRow) : MeetingRecord :=
  mkMeetingRecord
    (mr_id record)
    (splitT0 (toISOString (mr_recordingDate record)))
    (toISOString (mr_recordingDateTime record))
    (formatDisplayDate (mr_recordingDate record))
    (formatDisplayTime (mr_recordingDateTime record))
    (mr_speakerName record) (mr_groupNumber record)
    (mr_personMet record) (mr_location record)
    (mr_fullTranscription record) (mr_recordingDuration record)
    (mr_year record) (mr_month record) (mr_day record) (mr_dayOfWeek record)
    (mr_status record) (mr_processingStatus record)
    (mr_validationScore record) (mr_audioFileUrl record)
    (mr_googleSheetsRowId record) (mr_syncedToSheets record)
    (toISOString <$> mr_sheetsLastSync record)
    (toISOString (mr_createdAt record))
    (toISOString (mr_updatedAt record)).

(** [processBackgroundTasks] only queues its callback. *)
Definition processBackgroundTasks (meetingRecordId : RecordId) : M unit :=
  setImmediate meetingRecordId.

(** The callback that [processBackgroundTasks] queues. *)
Definition backgroundCallback (env : Env) (meetingRecordId : RecordId) : M unit :=
  tryCatch
    (record <- prisma_meetingRecord_findUnique env meetingRecordId ;;
     match record with
     | Some record =>
         googleSheetsService_addRecord env record ;;;
         prisma_meetingRecord_update env meetingRecordId
           (mkUpdateData (Some true) None (Some (now env))) ;;;
         ret tt
     | None => ret tt
     end)
    (fun error => ret tt).

(** One turn of the event loop: the oldest queued callback runs. *)
Definition runImmediate (env : Env) (w : World) : World :=
  match immediates w with
  | [] => w
  | i :: rest =>
      snd (backgroundCallback env i
             (mkWorld (meetingRecords w) (dailyStats w) (nextId w) rest))
  end.

(** [validationResult.confidence || 1.0] *)
Definition confidenceOrOne (c : option QArith_base.Q) : QArith_base.Q :=
  match c with
  | Some q => if QArith_base.Qeq_bool q (QArith_base.Qmake 0 1)
              then QArith_base.Qmake 1 1 else q
  | None => QArith_base.Qmake 1 1
  end.

Definition createMeetingRecord (env : Env) (dto : CreateMeetingRecordDto)
    (audioFile : option AudioFile) : M MeetingRecord :=
  let validationResult := validationService (fullTranscription dto) in
  if negb (isValid validationResult) then
    throw (BadRequestException
             (ErrorObject code_INVALID_MESSAGE_FORMAT
                (message validationResult) (errors validationResult)))
  else
    let dateData := getCurrentDateData env in
    tryCatch
      (extracted <- match extractedData validationResult with
                    | Some d => ret d
                    | None => throw TypeError
                    end ;;
       audioFileUrl <- match audioFile with
                       | Some f => url <- saveAudioFile env f ;; ret (Some url)
                       | None => ret None
                       end ;;
       meetingRecord <-
         prisma_meetingRecord_create env
           (mkCreateData
              (newDate (dd_recordingDate dateData))
              (newDate (dd_recordingDateTime dateData))
              (dd_year dateData) (dd_month dateData) (dd_day dateData)
              (dd_dayOfWeek dateData)
              (Validation.speakerName extracted)
              (Validation.groupNumber extracted)
              (Validation.personMet extracted)
              (Validation.location extracted)
              (fullTranscription dto) (recordingDuration dto)
              audioFileUrl
              SUBMITTED PENDING
              (confidenceOrOne (confidence validationResult))
              (metadata dto ≫= ipAddress)
              (metadata dto ≫= userAgent)) ;;
       processBackgroundTasks (mr_id meetingRecord) ;;;
       updateDailyStatistics env (dd_recordingDate dateData) ;;;
       ret (formatMeetingRecord meetingRecord))
      (fun error =>
         throw (BadRequestException (ErrorMessage msg_failed_to_create))).

(** One pass of the loop body of [syncToGoogleSheets] over [record]: [true]
    when the [try] block completes. *)
Definition syncRecord (env : Env) (record : MeetingRow) : M bool :=
  tryCatch
    (rowId <- googleSheetsService_addRecord env record ;;
     prisma_meetingRecord_update env (mr_id record)
       (mkUpdateData (Some true) (Some rowId) (Some (now env))) ;;;
     ret true)
    (fun error => ret false).

(** The [for] loop of [syncToGoogleSheets] with its two counters. *)
Fixpoint syncLoop (env : Env) (records : list MeetingRow)
    (synced errors : nat) : M (nat * nat) :=
  match records with
  | [] => ret (synced, errors)
  | record :: rest =>
      ok <- syncRecord env record ;;
      if ok : bool then syncLoop env rest (S synced) errors
      else syncLoop env rest synced (S errors)
  end.

Definition syncToGoogleSheets (env : Env) : M (nat * nat) :=
  unsyncedRecords <- prisma_meetingRecord_findMany_unsynced env 100 ;;
  syncLoop env unsyncedRecords 0 0.

(** ** Notions of the specification *)

(** The row that the upsert of [updateDailyStatistics] leaves for a date,
    given the row that was there. *)
Definition upsertedRow (dateObj : Date) (old : option DailyStatsRow)
  : DailyStatsRow :=
  match old with
  | Some r =>
      mkDailyStatsRow (ds_date r)
        (ds_totalRecordings r + 1) (ds_successfulRecordings r + 1)
        (ds_failedRecordings r) (ds_uniqueGroups r)
        (ds_uniqueSpeakers r) (ds_averageDuration r)
  | None => mkDailyStatsRow dateObj 1 1 0 1 1 (QArith_base.Qmake 0 1)
  end.

(** The row that [createMeetingRecord] hands to the storage for the fields
    [extracted], as stored in the world [w]. *)
Definition createdRow (env : Env) (dto : CreateMeetingRecordDto)
    (audioFile : option AudioFile) (extracted : VoiceMessage)
    (conf : option QArith_base.Q) (w : World) : MeetingRow :=
  newRow (nextId w) (now env)
    (mkCreateData
       (newDate (dd_recordingDate (getCurrentDateData env)))
       (newDate (dd_recordingDateTime (getCurrentDateData env)))
       (dd_year (getCurrentDateData env)) (dd_month (getCurrentDateData env))
       (dd_day (getCurrentDateData env)) (dd_dayOfWeek (getCurrentDateData env))
       (Validation.speakerName extracted) (Validation.groupNumber extracted)
       (Validation.personMet extracted) (Validation.location extracted)
       (fullTranscription dto) (recordingDuration dto)
       (match audioFile with
        | Some f =>
            Some (ofAscii "/uploads/audio/"
                    ++ ofAscii "audio_" ++ numberToString (now env)
                    ++ ofAscii "_" ++ originalname f)
        | None => None
        end)
       SUBMITTED PENDING (confidenceOrOne conf)
       (metadata dto ≫= ipAddress) (metadata dto ≫= userAgent)).

(** [totalRecordings] of a date; a date without a row counts 0. *)
Definition totalRecordingsOn (d : Date) (w : World) : Z :=
  from_option ds_totalRecordings 0%Z (dailyStats w !! d).

(** What reaches the service: calls of its two entry points, and turns of
    the event loop that run a queued background callback. *)
Inductive Request : Type :=
  | CreateRequest (env : Env) (dto : CreateMeetingRecordDto)
                  (audioFile : option AudioFile)
  | SyncRequest (env : Env)
  | EventLoopTurn (env : Env).

Definition handle (req : Request) (w : World) : World :=
  match req with
  | CreateRequest env dto audioFile =>
      snd (createMeetingRecord env dto audioFile w)
  | SyncRequest env => snd (syncToGoogleSheets env w)
  | EventLoopTurn env => runImmediate env w
  end.

(** Whether [req] is a call of [createMeetingRecord] that returns a record
    and whose derived date is [d]. *)
Definition createdOn (d : Date) (req : Request) (w : World) : bool :=
  match req with
  | CreateRequest env dto audioFile =>
      match fst (createMeetingRecord env dto audioFile w) with
      | Returned _ =>
          bool_decide (newDate (dd_recordingDate (getCurrentDateData env)) = d)
      | Thrown _ => false
      end
  | _ => false
  end.

Fixpoint serve (reqs : list Request) (w : World) : World :=
  match reqs with
  | [] => w
  | req :: rest => serve rest (handle req w)
  end.

Fixpoint countCreatedOn (d : Date) (reqs : list Request) (w : World) : nat :=
  match reqs with
  | [] => 0
  | req :: rest =>
      (if createdOn d req w then 1 else 0)
      + countCreatedOn d rest (handle req w)
  end.

End Service.

(** What the caller of [createMeetingRecord] sees when the [try] block
    fails. *)
Definition genericFailure : Exception :=
  BadRequestException (ErrorMessage msg_failed_to_create).

(** The key of a row in the table is its identifier, and the identifiers in
    use lie below the counter. *)
Definition wellFormed (w : World) : Prop :=
  forall i r, meetingRecords w !! i = Some r ->
    mr_id r = i /\ (i < nextId w)%positive.

(** The invariant of the data model on synchronised records. *)
Definition syncedRowComplete (r : MeetingRow) : Prop :=
  mr_syncedToSheets r = true ->
  is_Some (mr_googleSheetsRowId r) /\ is_Some (mr_sheetsLastSync r).

Definition syncInvariant (w : World) : Prop :=
  forall i r, meetingRecords w !! i = Some r -> syncedRowComplete r.

(** Whether the [try] block of the loop of [syncToGoogleSheets] completes on
    [r]: the sink accepts the record and the update that marks it is not
    rejected. *)
Definition pushedAndMarked (env : Env) (r : MeetingRow) : bool :=
  match addRecord env r with
  | Some _ => negb (updateThrows env (mr_id r))
  | None => false
  end.

(** The row that a pass of [syncToGoogleSheets] leaves for a record [r] of
    its batch. *)
Definition afterSync (env : Env) (r : MeetingRow) : MeetingRow :=
  match addRecord env r with
  | Some rowId =>
      if updateThrows env (mr_id r) then r
      else applyUpdate (now env)
             (mkUpdateData (Some true) (Some rowId) (Some (now env))) r
  | None => r
  end.

(** The reading of the specification: after the pass from [w] to [w'], the
    records of the batch that are marked are exactly those that the sink
    accepted. *)
Definition markedExactlyPushed (env : Env) (w w' : World) : Prop :=
  forall r, r ∈ unsyncedBatch 100 w ->
    (is_Some (addRecord env r)
     <-> mr_syncedToSheets <$> (meetingRecords w' !! mr_id r) = Some true).

End Meetings.

(* ===================================================================== *)
(** * The declarative reading of the patterns and of the template *)
(* ===================================================================== *)

Module Template.
Import JS RegExp Validation.

Local Open Scope N_scope.

(** What it means for a sequence of terms to match a prefix of the input
    [s] that starts at index [i], with the captures [caps]: the reading of
    the pattern as a language, without any order of alternatives. *)
Inductive Matches (ic : bool) :
    list term -> nat -> jsstring -> list jsstring -> Prop :=
  | Matches_nil i s :
      Matches ic [] i s []
  | Matches_start ts s caps :
      Matches ic ts 0 s caps ->
      Matches ic (AssertStart :: ts) 0 s caps
  | Matches_end ts i caps :
      Matches ic ts i [] caps ->
      Matches ic (AssertEnd :: ts) i [] caps
  | Matches_lit c ts i x s caps :
      charMatches ic x c = true ->
      Matches ic ts (S i) s caps ->
      Matches ic (Lit c :: ts) i (x :: s) caps
  | Matches_opt_some c ts i x s caps :
      charMatches ic x c = true ->
      Matches ic ts (S i) s caps ->
      Matches ic (Opt c :: ts) i (x :: s) caps
  | Matches_opt_none c ts i s caps :
      Matches ic ts i s caps ->
      Matches ic (Opt c :: ts) i s caps
  | Matches_lazy cs ts i w s caps :
      w <> [] -> forallb cs w = true ->
      Matches ic ts (i + length w) s caps ->
      Matches ic (LazyGroup cs :: ts) i (w ++ s) (w :: caps)
  | Matches_greedy cs ts i w s caps :
      w <> [] -> forallb cs w = true ->
      Matches ic ts (i + length w) s caps ->
      Matches ic (GreedyPlus cs :: ts) i (w ++ s) caps.

Definition toLowerAscii (c : char) : char :=
  if isUpper c then c + 0x20 else c.

(** Two texts that differ at most in the case of their ASCII letters. *)
Definition sameIgnoringCase (a b : jsstring) : Prop :=
  List.map toLowerAscii a = List.map toLowerAscii b.

(** A span as [REQUIRED_PATTERN] reads it, [(.+?)]: at least one character,
    all on one line. *)
Definition span (w : jsstring) : Prop :=
  w <> [] /\ forallb dot w = true.

(** A free-text span in the words of the specification: any text that is
    not empty. *)
Definition freeText (w : jsstring) : Prop := w <> [].

Definition text_My_name_is : jsstring :=
  Eval cbv in ofAscii "My name is ".
Definition text_and_I_belong_to_group : jsstring :=
  Eval cbv in ofAscii " and I belong to group ".
Definition text_and_today_I_met : jsstring :=
  Eval cbv in ofAscii " and today I met ".
Definition text_at : jsstring :=
  Eval cbv in ofAscii " at ".

(** The template of the specification, in its words:
    [My name is <A> and I belong to group <B> and today I met <C> at <D>[.]],
    matched without regard to case from the first to the last character of
    [s], where the four spans are free text and nothing but one optional
    period follows the last one. *)
Definition matchesTemplate (s : jsstring) : Prop :=
  exists k1 A k2 B k3 C k4 D tail,
    s = k1 ++ A ++ k2 ++ B ++ k3 ++ C ++ k4 ++ D ++ tail
    /\ sameIgnoringCase k1 text_My_name_is
    /\ sameIgnoringCase k2 text_and_I_belong_to_group
    /\ sameIgnoringCase k3 text_and_today_I_met
    /\ sameIgnoringCase k4 text_at
    /\ freeText A /\ freeText B /\ freeText C /\ freeText D
    /\ (tail = [] \/ tail = [0x2E]).

(** The characters of a name: letters, blanks, hyphen, period, apostrophe. *)
Definition nameChar (c : char) : Prop :=
  isLetter c = true \/ isStrWhiteSpaceChar c = true
  \/ c = 0x2D \/ c = 0x2E \/ c = 0x27.

(** The characters of a location: those of a name, digits and the comma. *)
Definition locationChar (c : char) : Prop :=
  isLetter c = true \/ isDigit c = true \/ isStrWhiteSpaceChar c = true
  \/ c = 0x2D \/ c = 0x2E \/ c = 0x2C \/ c = 0x27.

(** The prefix of the message for semantic errors in the wording of the
    specification. *)
Definition spec_msg_data_issues : jsstring :=
  Eval cbv in ofAscii "format correct but data has issues: ".

(** The examples of the specification. *)
Definition example_valid : jsstring :=
  Eval cbv in ofAscii
    "My name is John Smith and I belong to group 5 and today I met Sarah Johnson at the coffee shop.".
Definition example_no_match : jsstring :=
  Eval cbv in ofAscii "Hi, my name is John and I met Sarah today.".
Definition example_short_name : jsstring :=
  Eval cbv in ofAscii
    "My name is J and I belong to group 5 and today I met Sarah Johnson at the coffee shop.".
Definition example_blank : jsstring :=
  Eval cbv in ofAscii "   ".

(** The valid example with a line break inside the name of the speaker, and
    the valid example followed by more words. *)
Definition example_two_lines : jsstring :=
  Eval cbv in
    ofAscii "My name is John" ++ [0x0A]
      ++ ofAscii "Smith and I belong to group 5 and today I met Sarah Johnson at the coffee shop.".
Definition example_trailing_words : jsstring :=
  Eval cbv in example_valid ++ ofAscii " and left".


(** The fields that [validateTranscription] builds from the four captures. *)
Definition extractedFields (m1 m2 m3 m4 : jsstring) : VoiceMessage :=
  mkVoiceMessage (trim m1) (trim m2) (trim m3) (trim m4).

(** The two rejections of [validateTranscription]. *)
Definition neutralResult : ValidationResult :=
  mkValidationResult false [] None None None.
Definition formatHintResult : ValidationResult :=
  mkValidationResult false msg_format_hint None None None.

End Template.

(* ===================================================================== *)
(** * Concrete collaborators and worlds *)
(* ===================================================================== *)

Module Scenario.
Import JS Validation Template.
Import Meetings.

(** A stand-in for the [Date] constructor on the texts used below: the
    digits of the text, read as a number (monotone on ISO dates). *)
Definition newDate (s : jsstring) : Date :=
  digitsValue 0 (filter (fun c => isDigit c = true) s).

Definition numberToString (z : Z) : jsstring :=
  ofAscii (DecimalString.NilZero.string_of_int (Z.to_int z)).

Definition toISOString (d : Date) : jsstring := numberToString d.
Definition formatDisplayDate (d : Date) : jsstring := numberToString d.
Definition formatDisplayTime (d : Date) : jsstring := numberToString d.

Definition dateData_27 : DateData :=
  mkDateData (ofAscii "2025-07-27") (ofAscii "2025-07-27T10:00:00.000Z")
    2025%Z 7%Z 27%Z (ofAscii "Sunday").

(** The date that [newDate] gives to "2025-07-27". *)
Definition date_27 : Date := 20250727%Z.

Definition rowId_1 : jsstring := Eval cbv in ofAscii "row-1".

(** Every collaborator answers. *)
Definition env_ok : Env :=
  mkEnv dateData_27 1753610400000%Z false false false false
    (fun _ => false) (fun _ => Some rowId_1).

(** The upsert of the daily statistics is rejected. *)
Definition env_upsert_rejected : Env :=
  mkEnv dateData_27 1753610400000%Z false true false false
    (fun _ => false) (fun _ => Some rowId_1).

(** The sink accepts every record, and every update is rejected. *)
Definition env_update_rejected : Env :=
  mkEnv dateData_27 1753610400000%Z false false false false
    (fun _ => true) (fun _ => Some rowId_1).

Definition emptyWorld : World := mkWorld ∅ ∅ 1%positive [].

Definition dto_valid : CreateMeetingRecordDto :=
  mkDto example_valid (ofAscii "00:05") None.
Definition dto_no_match : CreateMeetingRecordDto :=
  mkDto example_no_match (ofAscii "00:05") None.

(** The service with the validator of [validation.ts] injected. *)
Definition create (env : Env) (dto : CreateMeetingRecordDto)
    (audioFile : option AudioFile) : M MeetingRecord :=
  createMeetingRecord validateTranscription newDate toISOString
    formatDisplayDate formatDisplayTime numberToString env dto audioFile.

(** The world after one record has been created in the empty world, and the
    row of that record. *)
Definition world_one : World := snd (create env_ok dto_valid None emptyWorld).

Definition row_one : MeetingRow :=
  createdRow newDate numberToString env_ok dto_valid None
    (mkVoiceMessage (ofAscii "John Smith") (ofAscii "5")
       (ofAscii "Sarah Johnson") (ofAscii "the coffee shop"))
    None emptyWorld.

(** Two accepted calls, a turn of the event loop, a rejected call and a
    pass of the batch synchronisation. *)
Definition requests_27 : list Request :=
  [CreateRequest env_ok dto_valid None; EventLoopTurn env_ok;
   CreateRequest env_ok dto_no_match None; SyncRequest env_ok;
   CreateRequest env_ok dto_valid None].

End Scenario.

(* ===================================================================== *)
(** * The helpers of [utils.ts] *)
(* ===================================================================== *)

Module Utils.
Import JS RegExp.

Local Open Scope N_scope.

(** The decimal digits of a natural number, least significant first into
    [acc]; [fuel] bounds the number of digits. *)
Fixpoint digitsFuel (fuel : nat) (n : N) (acc : jsstring) : jsstring :=
  match fuel with
  | O => acc
  | S fuel' =>
      let acc' := (0x30 + n mod 10) :: acc in
      if n / 10 =? 0 then acc' else digitsFuel fuel' (n / 10) acc'
  end.

Definition natToString (n : N) : jsstring :=
  digitsFuel (S (N.to_nat (N.log2 n))) n [].

(** [Number.prototype.toString] on an integer (below 10^21 in absolute
    value, where the decimal numeral is written out in full). *)
Definition integerToString (z : Z) : jsstring :=
  if (z <? 0)%Z then 0x2D :: natToString (Z.to_N (- z))
  else natToString (Z.to_N z).

(** [s.padStart(targetLength, padString)] *)
Definition padStart (targetLength : nat) (padString : jsstring)
    (s : jsstring) : jsstring :=
  let fillLen := (targetLength - length s)%nat in
  match padString with
  | [] => s
  | _ => take fillLen (List.concat (List.repeat padString fillLen)) ++ s
  end.

Definition pad2 (z : Z) : jsstring :=
  padStart 2 [0x30] (integerToString z).

(** [Number.MAX_SAFE_INTEGER], 2^53 - 1: up to it every whole number is a
    Number, and the quotient that a division of Numbers rounds to has the
    same whole part as the exact quotient. *)
Definition MAX_SAFE_INTEGER : Z := 9007199254740991.

(** [formatDuration(seconds)] on a whole number of seconds of absolute value
    up to [MAX_SAFE_INTEGER], the range in which the arithmetic of Numbers
    is the arithmetic of integers: there [Math.floor(seconds / 60)] is the
    floor of the exact quotient, [seconds % 60] is the remainder of the
    truncating division, and [toString] writes the decimal numeral.  Beyond
    that range the division rounds and the numeral changes its form; the
    definition says nothing of the code there. *)
Definition formatDuration (seconds : Z) : jsstring :=
  let mins := (seconds / 60)%Z in
  let secs := Z.rem seconds 60 in
  pad2 mins ++ [0x3A] ++ pad2 secs.

(** [text.slice(0, end)] for an integer [end]: a negative [end] counts from
    the end of the text. *)
Definition slice0 (text : jsstring) (e : Z) : jsstring :=
  let len := Z.of_nat (length text) in
  let final := if (e <? 0)%Z then Z.max (len + e) 0 else Z.min e len in
  take (Z.to_nat final) text.

Definition ellipsis : jsstring := Eval cbv in ofAscii "...".

(** [truncateText(text, maxLength)] for an integer [maxLength]. *)
Definition truncateText (text : jsstring) (maxLength : Z) : jsstring :=
  if (Z.of_nat (length text) <=? maxLength)%Z then text
  else slice0 text maxLength ++ ellipsis.

(** The class [[^\s@]] *)
Definition emailClass (c : char) : bool :=
  negb (isStrWhiteSpaceChar c || (c =? 0x40)).

(** [/^[^\s@]+@[^\s@]+\.[^\s@]+$/] *)
Definition emailRegex : regexp :=
  mkRegexp false
    [AssertStart; GreedyPlus emailClass; Lit 0x40; GreedyPlus emailClass;
     Lit 0x2E; GreedyPlus emailClass; AssertEnd].

Definition isValidEmail (email : jsstring) : bool := test emailRegex email.

(** A part of an address: not empty, without blanks and without [@]. *)
Definition emailPart (p : jsstring) : Prop :=
  p <> [] /\ forallb emailClass p = true.

End Utils.

(* ===================================================================== *)
(** * The hooks of the web application *)
(* ===================================================================== *)

Module Hooks.
Import JS Utils Validation.

(** The text that the interval callback of [startTimer] in
    [useVoiceRecording] displays after [elapsed] milliseconds. *)
Definition timerDisplay (elapsed : Z) : jsstring :=
  let minutes := (elapsed / 60000)%Z in
  let seconds := (Z.rem elapsed 60000 / 1000)%Z in
  pad2 minutes ++ [0x3A%N] ++ pad2 seconds.

(** [MOCK_TRANSCRIPTIONS] of [useMockTranscription]. *)
Definition MOCK_TRANSCRIPTIONS : list jsstring :=
  Eval cbv in
    List.map ofAscii
      ["My name is John Smith and I belong to group 5 and today I met Sarah Johnson at the coffee shop.";
       "My name is Maria Garcia and I belong to group 12 and today I met David Wilson at the library.";
       "My name is Alex Chen and I belong to group 3 and today I met Emma Brown at the park.";
       "My name is Michael Davis and I belong to group 8 and today I met Lisa Anderson at the office.";
       "My name is Jennifer Taylor and I belong to group 1 and today I met Robert Martinez at the restaurant.";
       "My name is Amy Rodriguez and I belong to group 7 and today I met Kevin Lee at the university.";
       "My name is Robert Johnson and I belong to group 15 and today I met Michelle Wong at the gym.";
       "My name is Lisa Zhang and I belong to group 4 and today I met James Miller at the bookstore."]%string.

(** What [transcribeAudio] resolves to when
    [Math.floor(Math.random() * MOCK_TRANSCRIPTIONS.length)] is
    [randomIndex]; the index lies below the length, as [Math.random()] lies
    in [0, 1). *)
Definition transcribeAudio (randomIndex : nat) : option jsstring :=
  MOCK_TRANSCRIPTIONS !! randomIndex.

(** The state that the effect and the callbacks of
    [useTranscriptionValidation] read and write. *)
Record FormState : Type := mkFormState {
  fs_transcription : jsstring;
  fs_validationResult : ValidationResult;
  fs_extractedData : option VoiceMessage;
}.

(** The effect of [useTranscriptionValidation], run when [transcription]
    has changed. *)
Definition validationEffect (st : FormState) : FormState :=
  match trim (fs_transcription st) with
  | _ :: _ =>
      let result := validateTranscription (fs_transcription st) in
      mkFormState (fs_transcription st) result (extractedData result)
  | [] =>
      mkFormState (fs_transcription st)
        (mkValidationResult false [] None None None) None
  end.

(** Whether [submitRecord] goes on to call [submitMeetingRecord]. *)
Definition submitRecord_submits (st : FormState) : bool :=
  negb (negb (isValid (fs_validationResult st))
        || negb (bool_decide (is_Some (fs_extractedData st)))).

End Hooks.

(* ===================================================================== *)
(** * The timer wrappers of [utils.ts] *)
(* ===================================================================== *)

Module Timers.

(** The largest delay that a timer holds: the hosts keep the delay of
    [setTimeout] as a signed integer of 32 bits. *)
Definition TIMEOUT_MAX : Z := 2147483647.

(** The part of the delay of [setTimeout(callback, delay)] that every host
    waits for.  A whole delay from 0 to [TIMEOUT_MAX] is waited for in full.
    A delay outside that range is not: a negative delay counts as 0, and a
    delay above [TIMEOUT_MAX] wraps around or is replaced, so that the
    callback is due after 1 ms (Node) or at once (browsers). *)
Definition guaranteedDelay (delay : Z) : Z :=
  if ((0 <=? delay) && (delay <=? TIMEOUT_MAX))%Z then delay else 0%Z.

(** [setTimeout(callback, delay)] at the instant [t]: the earliest instant
    at which the event loop of any host may run the callback.  Instants are
    whole milliseconds of the clock by which the event loop runs its
    timers. *)
Definition setTimeout_due (t delay : Z) : Z := (t + guaranteedDelay delay)%Z.

(** [clearTimeout(timer)]: nothing happens when [timer] is [undefined] or
    not pending. *)
Definition clearTimeout {X} (timer : option nat) (timers : gmap nat X)
  : gmap nat X :=
  match timer with
  | Some i => delete i timers
  | None => timers
  end.

Section Wrappers.

(** The arguments of the wrapped function [func], which is taken to
    return, and not to call the wrapper. *)
Variable Args : Type.

(** What happens to a wrapper: it is called at an instant, or the event
    loop runs the callback of one of its pending timers. *)
Inductive Event : Type :=
  | Call (t : Z) (args : Args)
  | TimerFires (t : Z) (timer : nat).

Definition callsOf (events : list Event) : list (Z * Args) :=
  omap (fun ev => match ev with
                  | Call t args => Some (t, args)
                  | TimerFires _ _ => None
                  end) events.

(** ** [throttle] *)

(** The variable [inThrottle] of the closure, the pending timers with the
    instant from which each may fire, the calls of [func] so far with their
    instants, and the clock. *)
Record Throttle : Type := mkThrottle {
  inThrottle : bool;
  th_timers : gmap nat Z;
  th_nextTimer : nat;
  th_executed : list (Z * Args);
  th_clock : Z;
}.

(** [let inThrottle: boolean] is [undefined], which is falsy. *)
Definition throttle_initial (t0 : Z) : Throttle := mkThrottle false ∅ 0 [] t0.

(** The function that [throttle(func, limit)] returns, called at [t]. *)
Definition throttled (limit t : Z) (args : Args) (st : Throttle) : Throttle :=
  if negb (inThrottle st) then
    mkThrottle true
      (<[th_nextTimer st := setTimeout_due t limit]> (th_timers st))
      (S (th_nextTimer st))
      (th_executed st ++ [(t, args)])
      t
  else
    mkThrottle (inThrottle st) (th_timers st) (th_nextTimer st)
      (th_executed st) t.

(** One event; [None] when it cannot happen: time does not go back, and a
    timer fires only when it is pending and due. *)
Definition throttle_step (limit : Z) (st : Throttle) (ev : Event)
  : option Throttle :=
  match ev with
  | Call t args =>
      if (th_clock st <=? t)%Z then Some (throttled limit t args st) else None
  | TimerFires t timer =>
      match th_timers st !! timer with
      | Some due =>
          if ((th_clock st <=? t) && (due <=? t))%Z then
            Some (mkThrottle false (delete timer (th_timers st))
                    (th_nextTimer st) (th_executed st) t)
          else None
      | None => None
      end
  end.

(** ** [debounce] *)

(** The variable [timeout] of the closure, the pending timers with their
    instant and the arguments their callback passes to [func], the calls of
    [func] so far, and the clock. *)
Record Debounce : Type := mkDebounce {
  timeout : option nat;
  db_timers : gmap nat (Z * Args);
  db_nextTimer : nat;
  db_executed : list (Z * Args);
  db_clock : Z;
}.

Definition debounce_initial (t0 : Z) : Debounce := mkDebounce None ∅ 0 [] t0.

(** The function that [debounce(func, wait)] returns, called at [t]. *)
Definition debounced (wait t : Z) (args : Args) (st : Debounce) : Debounce :=
  let timers := clearTimeout (timeout st) (db_timers st) in
  mkDebounce (Some (db_nextTimer st))
    (<[db_nextTimer st := (setTimeout_due t wait, args)]> timers)
    (S (db_nextTimer st))
    (db_executed st)
    t.

Definition debounce_step (wait : Z) (st : Debounce) (ev : Event)
  : option Debounce :=
  match ev with
  | Call t args =>
      if (db_clock st <=? t)%Z then Some (debounced wait t args st) else None
  | TimerFires t timer =>
      match db_timers st !! timer with
      | Some (due, args) =>
          if ((db_clock st <=? t) && (due <=? t))%Z then
            Some (mkDebounce (timeout st) (delete timer (db_timers st))
                    (db_nextTimer st) (db_executed st ++ [(t, args)]) t)
          else None
      | None => None
      end
  end.

(** A sequence of events, from the left. *)
Fixpoint run {S} (step : S -> Event -> option S) (st : S)
    (events : list Event) : option S :=
  match events with
  | [] => Some st
  | ev :: rest =>
      match step st ev with
      | Some st' => run step st' rest
      | None => None
      end
  end.

(** Two calls of [func] are at least [limit] apart. *)
Definition apart (limit : Z) (x y : Z * Args) : Prop :=
  (x.1 + limit <= y.1)%Z.

(** What holds of [throttle] after the events [events]. *)
Definition throttleInv (limit : Z) (events : list Event) (st : Throttle) : Prop :=
  StronglySorted (apart (guaranteedDelay limit)) (th_executed st)
  /\ th_executed st `sublist_of` callsOf events
  /\ head (th_executed st) = head (callsOf events)
  /\ (inThrottle st = false ->
      th_timers st = ∅
      /\ Forall (fun x => (x.1 + guaranteedDelay limit <= th_clock st)%Z)
           (th_executed st))
  /\ (inThrottle st = true ->
      th_executed st <> []
      /\ exists i due,
           th_timers st = {[i := due]}
           /\ Forall (fun x => (x.1 + guaranteedDelay limit <= due)%Z)
                (th_executed st)).

(** What holds of [debounce] after the events [events]. *)
Definition debounceInv (wait : Z) (events : list Event) (st : Debounce) : Prop :=
  (db_timers st = ∅
   /\ (db_executed st).*2 `sublist_of` (callsOf events).*2)
  \/ (exists i calls tc args,
        db_timers st = {[i := (setTimeout_due tc wait, args)]}
        /\ timeout st = Some i
        /\ callsOf events = calls ++ [(tc, args)]
        /\ (db_executed st).*2 `sublist_of` calls.*2).

End Wrappers.

Arguments Call {Args} t args.
Arguments TimerFires {Args} t timer.
Arguments callsOf {Args} events.
Arguments mkThrottle {Args}.
Arguments inThrottle {Args}.
Arguments th_timers {Args}.
Arguments th_nextTimer {Args}.
Arguments th_executed {Args}.
Arguments th_clock {Args}.
Arguments throttle_initial {Args} t0.
Arguments throttled {Args} limit t args st.
Arguments throttle_step {Args} limit st ev.
Arguments mkDebounce {Args}.
Arguments timeout {Args}.
Arguments db_timers {Args}.
Arguments db_nextTimer {Args}.
Arguments db_executed {Args}.
Arguments db_clock {Args}.
Arguments debounce_initial {Args} t0.
Arguments debounced {Args} wait t args st.
Arguments debounce_step {Args} wait st ev.
Arguments run {Args S} step st events.
Arguments apart {Args} limit x y.
Arguments throttleInv {Args} limit events st.
Arguments debounceInv {Args} wait events st.

(** Two calls, the timer of the first, and a third call. *)
Definition events_example : list (Event nat) :=
  [Call 0%Z 1; Call 10%Z 2; TimerFires 100%Z 0; Call 100%Z 3].

(** Two calls 31 ms apart, and between them the timer of the first, which
    fires after 1 ms when the delay does not fit in 32 bits. *)
Definition events_wrapped : list (Event nat) :=
  [Call 0%Z 1; TimerFires 1%Z 0; Call 31%Z 2].

End Timers.

(* ===================================================================== *)
(** * The keyboard shortcuts of [useKeyboardShortcuts] *)
(* ===================================================================== *)

Module Shortcuts.
Import JS.

(** A [KeyboardEvent], as far as [handleKeyDown] reads it. *)
Record KeyboardEvent : Type := mkKeyboardEvent {
  targetIsInput : bool;       (* [event.target instanceof HTMLInputElement] *)
  targetIsTextArea : bool;    (* [... instanceof HTMLTextAreaElement] *)
  code : jsstring;
  ctrlKey : bool;
  metaKey : bool;
}.

Inductive Callback : Type :=
  OnStartRecording | OnStopRecording | OnSubmit | OnReset.

#[global] Instance Callback_eq_dec : EqDecision Callback.
Proof. solve_decision. Defined.

(** What [handleKeyDown] does with an event: whether it calls
    [event.preventDefault()], and the callbacks it calls, in order. *)
Record Handled : Type := mkHandled {
  defaultPrevented : bool;
  called : list Callback;
}.

Definition code_Space : jsstring := Eval cbv in ofAscii "Space".
Definition code_Enter : jsstring := Eval cbv in ofAscii "Enter".
Definition code_Escape : jsstring := Eval cbv in ofAscii "Escape".

Definition handleKeyDown (isRecording canSubmit : bool)
    (event : KeyboardEvent) : Handled :=
  if targetIsInput event || targetIsTextArea event then mkHandled false []
  else if bool_decide (code event = code_Space) then
    mkHandled true
      [if isRecording then OnStopRecording else OnStartRecording]
  else if bool_decide (code event = code_Enter) then
    if ctrlKey event || metaKey event then
      mkHandled true (if canSubmit then [OnSubmit] else [])
    else mkHandled false []
  else if bool_decide (code event = code_Escape) then
    mkHandled true [if isRecording then OnStopRecording else OnReset]
  else mkHandled false [].

End Shortcuts.

(* ===================================================================== *)
(** * The queries of [meetings.service.ts] *)
(* ===================================================================== *)

Module Queries.
Import JS.
Import Meetings.

#[global] Instance RecordingStatus_eq_dec : EqDecision RecordingStatus.
Proof. solve_decision. Defined.

(** [GetMeetingsQueryDto]: every member is optional. *)
Record GetMeetingsQueryDto : Type := mkQuery {
  q_page : option Z;
  q_limit : option Z;
  q_groupNumber : option jsstring;
  q_speakerName : option jsstring;
  q_startDate : option jsstring;
  q_endDate : option jsstring;
  q_status : option RecordingStatus;
  q_sortBy : option jsstring;
  q_sortOrder : option jsstring;
}.

(** The [where] object that [getMeetings] builds. *)
Record Where : Type := mkWhere {
  where_groupNumber : option jsstring;
  where_speakerName : option jsstring;    (* contains, mode insensitive *)
  where_status : option RecordingStatus;
  where_recordingDate : option (option Date * option Date);  (* gte, lte *)
}.

Record Pagination : Type := mkPagination {
  page : Z;
  limit : Z;
  total : Z;
  totalPages : Z;
  hasNext : bool;
  hasPrev : bool;
}.

Record PaginatedResponse : Type := mkPaginated {
  success : bool;
  data : list MeetingRecord;
  pagination : Pagination;
}.

(** What the storage answers to the queries of one call of [getMeetings]:
    which of the two queries is rejected, its case-insensitive [contains],
    and the order it gives to rows for a sort key and a direction. *)
Record QueryEnv : Type := mkQueryEnv {
  qe_findManyThrows : bool;
  qe_countThrows : bool;
  qe_contains : jsstring -> jsstring -> bool;
  qe_orderBy : jsstring -> jsstring -> list MeetingRow -> list MeetingRow;
}.

(** An optional text in a condition: the empty text is falsy. *)
Definition truthy (s : option jsstring) : option jsstring :=
  match s with
  | Some (_ :: _ as v) => Some v
  | _ => None
  end.

Definition matchesWhere (qe : QueryEnv) (wh : Where) (r : MeetingRow) : bool :=
  match where_groupNumber wh with
  | Some g => bool_decide (mr_groupNumber r = g)
  | None => true
  end
  && match where_speakerName wh with
     | Some n => qe_contains qe (mr_speakerName r) n
     | None => true
     end
  && match where_status wh with
     | Some st => bool_decide (mr_status r = st)
     | None => true
     end
  && match where_recordingDate wh with
     | Some (gte, lte) =>
         match gte with
         | Some d => (d <=? mr_recordingDate r)%Z
         | None => true
         end
         && match lte with
            | Some d => (mr_recordingDate r <=? d)%Z
            | None => true
            end
     | None => true
     end.

(** The rows of the table that satisfy [wh]. *)
Definition selected (qe : QueryEnv) (wh : Where) (w : World) : list MeetingRow :=
  List.filter (matchesWhere qe wh) (map_to_list (meetingRecords w)).*2.

(** [prisma.meetingRecord.findMany({ where, skip, take, orderBy })] for
    non-negative [skip] and [take]. *)
Definition prisma_meetingRecord_findMany (qe : QueryEnv) (wh : Where)
    (skip take_ : Z) (sortBy sortOrder : jsstring) : M (list MeetingRow) :=
  fun w =>
    if qe_findManyThrows qe then (Thrown StorageError, w)
    else
      (Returned
         (take (Z.to_nat take_)
            (drop (Z.to_nat skip)
               (qe_orderBy qe sortBy sortOrder (selected qe wh w)))),
       w).

(** [prisma.meetingRecord.count({ where })] *)
Definition prisma_meetingRecord_count (qe : QueryEnv) (wh : Where) : M Z :=
  fun w =>
    if qe_countThrows qe then (Thrown StorageError, w)
    else (Returned (Z.of_nat (length (selected qe wh w))), w).

(** [await Promise.all([a, b])] *)
Definition promiseAll2 {A B} (a : M A) (b : M B) : M (A * B) :=
  x <- a ;; y <- b ;; ret (x, y).

(** [Math.ceil(a / b)] on integers, for [b] other than 0 (and quotients
    that a Number holds exactly). *)
Definition mathCeilDiv (a b : Z) : Z := (- ((- a) / b))%Z.

(** The receiver of a call of a method of the service. *)
Inductive Receiver : Type :=
  | ThisService       (* [this.formatMeetingRecord(record)] *)
  | ThisUndefined.    (* the method called as a bare function *)

(** [Array.prototype.map] with a callback that may throw: the callback runs
    on the elements in order. *)
Fixpoint arrayMap {A B} (f : A -> Outcome B) (l : list A) : Outcome (list B) :=
  match l with
  | [] => Returned []
  | x :: l' =>
      match f x with
      | Thrown e => Thrown e
      | Returned y =>
          match arrayMap f l' with
          | Thrown e => Thrown e
          | Returned ys => Returned (y :: ys)
          end
      end
  end.

Definition sortBy_default : jsstring := Eval cbv in ofAscii "recordingDate".
Definition sortOrder_default : jsstring := Eval cbv in ofAscii "desc".

Section Service.

Variable newDate : jsstring -> Date.
Variables toISOString formatDisplayDate formatDisplayTime : Date -> jsstring.

(** [formatMeetingRecord] called with the receiver [this]: the method reads
    [this.dateUtils], which throws a [TypeError] when [this] is [undefined]
    (the body of a class is strict code). *)
Definition formatMeetingRecord_on (this : Receiver) (record : MeetingRow)
  : Outcome MeetingRecord :=
  match this with
  | ThisService =>
      Returned (formatMeetingRecord toISOString formatDisplayDate
                  formatDisplayTime record)
  | ThisUndefined => Thrown TypeError
  end.

Definition buildWhere (query : GetMeetingsQueryDto) : Where :=
  mkWhere
    (truthy (q_groupNumber query))
    (truthy (q_speakerName query))
    (q_status query)
    (match truthy (q_startDate query), truthy (q_endDate query) with
     | None, None => None
     | startDate, endDate => Some (newDate <$> startDate, newDate <$> endDate)
     end).

(** [getMeetings]: [data.map(this.formatMeetingRecord)] hands the method to
    [map] without its receiver. *)
Definition getMeetings (qe : QueryEnv) (query : GetMeetingsQueryDto)
  : M PaginatedResponse :=
  let page := default 1%Z (q_page query) in
  let limit := default 10%Z (q_limit query) in
  let sortBy := default sortBy_default (q_sortBy query) in
  let sortOrder := default sortOrder_default (q_sortOrder query) in
  let skip := ((page - 1) * limit)%Z in
  let where_ := buildWhere query in
  r <- promiseAll2
         (prisma_meetingRecord_findMany qe where_ skip limit sortBy sortOrder)
         (prisma_meetingRecord_count qe where_) ;;
  let data := fst r in
  let total := snd r in
  let totalPages := mathCeilDiv total limit in
  match arrayMap (formatMeetingRecord_on ThisUndefined) data with
  | Thrown e => throw e
  | Returned formatted =>
      ret (mkPaginated true formatted
             (mkPagination page limit total totalPages
                (page <? totalPages)%Z (1 <? page)%Z))
  end.

End Service.

(** A storage that answers both queries and keeps the order of the table,
    and the query without any member. *)
Definition qe_ok : QueryEnv :=
  mkQueryEnv false false (fun _ _ => true) (fun _ _ l => l).

Definition query_default : GetMeetingsQueryDto :=
  mkQuery None None None None None None None None None.

End Queries.

(* ===================================================================== *)
(** * What the service keeps of its tables *)
(* ===================================================================== *)

Module Lifecycle.
Import JS Meetings.

(** A row of the daily statistics as the service writes it: no failure and
    one group and one speaker are counted, whatever was recorded. *)
Definition statsRowInv (d : Date) (r : DailyStatsRow) : Prop :=
  ds_date r = d
  /\ (1 <= ds_totalRecordings r)%Z
  /\ ds_successfulRecordings r = ds_totalRecordings r
  /\ ds_failedRecordings r = 0%Z
  /\ ds_uniqueGroups r = 1%Z
  /\ ds_uniqueSpeakers r = 1%Z
  /\ ds_averageDuration r = QArith_base.Qmake 0 1.

Definition statsInv (w : World) : Prop :=
  forall d r, dailyStats w !! d = Some r -> statsRowInv d r.

(** The members of a record other than those of the synchronisation and
    [updatedAt]. *)
Definition contentOf (r : MeetingRow) : CreateData * RecordId * Date :=
  (mkCreateData
     (mr_recordingDate r) (mr_recordingDateTime r)
     (mr_year r) (mr_month r) (mr_day r) (mr_dayOfWeek r)
     (mr_speakerName r) (mr_groupNumber r) (mr_personMet r) (mr_location r)
     (mr_fullTranscription r) (mr_recordingDuration r) (mr_audioFileUrl r)
     (mr_status r) (mr_processingStatus r) (mr_validationScore r)
     (mr_ipAddress r) (mr_userAgent r),
   mr_id r, mr_createdAt r).

(** [r'] is a later state of the record [r]: the content is the same, and a
    record that was marked is still marked. *)
Definition laterStateOf (r r' : MeetingRow) : Prop :=
  contentOf r' = contentOf r
  /\ (mr_syncedToSheets r = true -> mr_syncedToSheets r' = true).

(** Every record of [w] is in [w'], in a later state. *)
Definition keepsRecords (w w' : World) : Prop :=
  forall i r, meetingRecords w !! i = Some r ->
    exists r', meetingRecords w' !! i = Some r' /\ laterStateOf r r'.

End Lifecycle.

(* ===================================================================== *)
(** * Texts that differ in the case of letters *)
(* ===================================================================== *)

Module CaseRelation.
Import JS RegExp Validation Template.

(** Two characters that are equal, or the two cases of one ASCII letter. *)
Definition sameCaseChar (x y : char) : Prop :=
  toLowerAscii x = toLowerAscii y.

(** A character set that does not tell the two cases of a letter apart. *)
Definition caseInvariant (P : char -> bool) : Prop :=
  forall x y, sameCaseChar x y -> P x = P y.

Definition caseInvariantTerm (t : term) : Prop :=
  match t with
  | LazyGroup cs | GreedyPlus cs => caseInvariant cs
  | _ => True
  end.

Definition sameCaseFields (a b : VoiceMessage) : Prop :=
  sameIgnoringCase (Validation.speakerName a) (Validation.speakerName b)
  /\ sameIgnoringCase (Validation.groupNumber a) (Validation.groupNumber b)
  /\ sameIgnoringCase (Validation.personMet a) (Validation.personMet b)
  /\ sameIgnoringCase (Validation.location a) (Validation.location b).

(** The example of the specification in capital letters. *)
Definition example_valid_capitals : jsstring :=
  Eval cbv in ofAscii
    "MY NAME IS JOHN SMITH AND I BELONG TO GROUP 5 AND TODAY I MET SARAH JOHNSON AT THE COFFEE SHOP.".

(** A reading of [s] along the template with the four spans [A], [B], [C]
    and [D]. *)
Definition readsAs (s A B C D : jsstring) : Prop :=
  exists k1 k2 k3 k4 tail,
    s = k1 ++ A ++ k2 ++ B ++ k3 ++ C ++ k4 ++ D ++ tail
    /\ sameIgnoringCase k1 text_My_name_is
    /\ sameIgnoringCase k2 text_and_I_belong_to_group
    /\ sameIgnoringCase k3 text_and_today_I_met
    /\ sameIgnoringCase k4 text_at
    /\ span A /\ span B /\ span C /\ span D
    /\ (tail = [] \/ tail = [0x2E%N]).

(** The reading [A B C D] is the shorter of two readings, span by span from
    the left: its first span is no longer, and when the first spans are
    equally long they are equal and its second span is no longer, and so
    on. *)
Definition shortestFirst (A B C D A' B' C' D' : jsstring) : Prop :=
  (length A <= length A')%nat
  /\ (length A = length A' ->
      A = A' /\ (length B <= length B')%nat
      /\ (length B = length B' ->
          B = B' /\ (length C <= length C')%nat
          /\ (length C = length C' ->
              C = C' /\ (length D <= length D')%nat))).

(** A text that can be read along the template in more than one way. *)
Definition example_two_readings : jsstring :=
  ofAscii
    "My name is Ann and I belong to group 7 and today I met Bob at home at noon".

End CaseRelation.

(* ===================================================================== *)
(** * Properties of the patterns *)
(* ===================================================================== *)

Module RegExpFacts.
Import JS RegExp Template.

Lemma lazyPlus_sound cs (k : Continuation) i s acc r :
  lazyPlus cs k i s acc = Some r ->
  exists w s' r',
    s = w ++ s' /\ w <> [] /\ forallb cs w = true
    /\ k (i + length w)%nat s' = Some r' /\ r = (rev acc ++ w) :: r'.
Proof.
  revert i acc; induction s as [|x s IH]; intros i acc H; simpl in H.
  - discriminate.
  - destruct (cs x) eqn:Hx; [|discriminate].
    destruct (k (S i) s) as [r0|] eqn:Hk.
    + injection H as <-. exists [x], s, r0. simpl.
      rewrite Hx, Nat.add_1_r. repeat split; auto; discriminate.
    + apply IH in H as (w & s' & r' & -> & _ & Hall & Hk' & ->).
      exists (x :: w), s', r'. simpl. rewrite Hx, Hall.
      rewrite <- Nat.add_succ_comm, <- app_assoc. simpl.
      repeat split; auto; discriminate.
Qed.

Lemma lazyPlus_complete cs (k : Continuation) i w s' acc :
  w <> [] -> forallb cs w = true ->
  is_Some (k (i + length w)%nat s') ->
  is_Some (lazyPlus cs k i (w ++ s') acc).
Proof.
  revert i acc; induction w as [|x w IH]; intros i acc Hne Hall Hk.
  - congruence.
  - simpl in *. apply andb_true_iff in Hall as [Hx Hall]. rewrite Hx.
    destruct (k (S i) (w ++ s')) eqn:E; [eauto|].
    destruct w as [|y w].
    + simpl in *. rewrite Nat.add_1_r, E in Hk. by destruct Hk.
    + apply IH; [discriminate|assumption|].
      by rewrite Nat.add_succ_comm.
Qed.

Lemma greedyPlus_sound cs (k : Continuation) i s r :
  greedyPlus cs k i s = Some r ->
  exists w s',
    s = w ++ s' /\ w <> [] /\ forallb cs w = true
    /\ k (i + length w)%nat s' = Some r.
Proof.
  revert i; induction s as [|x s IH]; intros i H; simpl in H.
  - discriminate.
  - destruct (cs x) eqn:Hx; [|discriminate].
    destruct (greedyPlus cs k (S i) s) as [r0|] eqn:Hg.
    + injection H as <-.
      apply IH in Hg as (w & s' & -> & _ & Hall & Hk).
      exists (x :: w), s'. simpl. rewrite Hx, Hall, <- Nat.add_succ_comm.
      repeat split; auto; discriminate.
    + exists [x], s. simpl. rewrite Hx, Nat.add_1_r.
      repeat split; auto; discriminate.
Qed.

Lemma greedyPlus_complete cs (k : Continuation) i w s' :
  w <> [] -> forallb cs w = true ->
  is_Some (k (i + length w)%nat s') ->
  is_Some (greedyPlus cs k i (w ++ s')).
Proof.
  revert i; induction w as [|x w IH]; intros i Hne Hall Hk.
  - congruence.
  - simpl in *. apply andb_true_iff in Hall as [Hx Hall]. rewrite Hx.
    destruct (greedyPlus cs k (S i) (w ++ s')) eqn:E; [eauto|].
    destruct w as [|y w].
    + simpl in *. by rewrite Nat.add_1_r in Hk.
    + exfalso. enough (is_Some (greedyPlus cs k (S i) ((y :: w) ++ s'))) as Hs
        by (rewrite E in Hs; by destruct Hs).
      apply IH; [discriminate|assumption|].
      by rewrite Nat.add_succ_comm.
Qed.

(** Whatever the matcher returns is a match of the pattern. *)
Lemma matchAt_sound ic ts : forall i s caps,
  matchAt ic ts i s = Some caps -> Matches ic ts i s caps.
Proof.
  induction ts as [|t ts IH]; intros i s caps H; simpl in H.
  - injection H as <-. constructor.
  - destruct t as [| |c|c|cs|cs].
    + destruct i; [|discriminate]. constructor; auto.
    + destruct s; [|discriminate]. constructor; auto.
    + destruct s as [|x s]; [discriminate|].
      destruct (charMatches ic x c) eqn:Hc; [|discriminate].
      constructor; auto.
    + destruct s as [|x s].
      * apply Matches_opt_none; auto.
      * destruct (charMatches ic x c) eqn:Hc.
        -- destruct (matchAt ic ts (S i) s) as [r|] eqn:Hm.
           ++ injection H as <-. apply Matches_opt_some; auto.
           ++ apply Matches_opt_none; auto.
        -- apply Matches_opt_none; auto.
    + apply lazyPlus_sound in H as (w & s' & r' & -> & Hne & Hall & Hk & ->).
      simpl. constructor; auto.
    + apply greedyPlus_sound in H as (w & s' & -> & Hne & Hall & Hk).
      constructor; auto.
Qed.

(** Whenever the pattern has a match, the matcher finds one. *)
Lemma matchAt_complete ic ts i s caps :
  Matches ic ts i s caps -> is_Some (matchAt ic ts i s).
Proof.
  induction 1 as [i s|ts s caps _ IH|ts i caps _ IH|c ts i x s caps Hc _ IH
                 |c ts i x s caps Hc _ IH|c ts i s caps _ IH
                 |cs ts i w s caps Hne Hall _ IH
                 |cs ts i w s caps Hne Hall _ IH]; simpl.
  - eauto.
  - assumption.
  - assumption.
  - by rewrite Hc.
  - rewrite Hc. destruct IH as [r ->]. eauto.
  - destruct s as [|x s]; [assumption|].
    destruct (charMatches ic x c); [|assumption].
    destruct (matchAt ic ts (S i) s); eauto.
  - by apply lazyPlus_complete.
  - by apply greedyPlus_complete.
Qed.

(** A pattern that begins with [^] can only match at index 0. *)
Lemma execFrom_AssertStart_later ic ts i s :
  execFrom ic (AssertStart :: ts) (S i) s = None.
Proof.
  revert i; induction s as [|x s IH]; intros i; simpl; auto.
Qed.

Lemma exec_anchored ic ts s :
  exec (mkRegexp ic (AssertStart :: ts)) s = matchAt ic ts 0 s.
Proof.
  unfold exec; simpl. destruct s as [|x s]; simpl.
  - by destruct (matchAt ic ts 0 []).
  - destruct (matchAt ic ts 0 (x :: s)); auto.
    apply execFrom_AssertStart_later.
Qed.

(** [^X+$] tests that the text is not empty and lies within X. *)
Lemma greedyPlus_to_end ic cs i s :
  greedyPlus cs (matchAt ic [AssertEnd]) i s
  = match s with
    | [] => None
    | _ => if forallb cs s then Some [] else None
    end.
Proof.
  revert i; induction s as [|x s IH]; intros i; simpl; auto.
  destruct (cs x); simpl; auto.
  rewrite IH. destruct s as [|y s]; simpl; auto.
  by destruct (cs y && forallb cs s).
Qed.

Lemma test_class_plus ic cs s :
  test (mkRegexp ic [AssertStart; GreedyPlus cs; AssertEnd]) s
  = match s with [] => false | _ => forallb cs s end.
Proof.
  unfold test. rewrite exec_anchored.
  change (matchAt ic [GreedyPlus cs; AssertEnd] 0 s)
    with (greedyPlus cs (matchAt ic [AssertEnd]) 0 s).
  rewrite greedyPlus_to_end.
  destruct s as [|x s]; auto. by destruct (forallb cs (x :: s)).
Qed.

End RegExpFacts.

(* ===================================================================== *)
(** * The required pattern and the template *)
(* ===================================================================== *)

Module TemplateFacts.
Import JS RegExp Validation Template CaseRelation RegExpFacts.

Local Open Scope N_scope.

Lemma charMatches_ignoreCase x c :
  charMatches true x c = true <-> toLowerAscii x = toLowerAscii c.
Proof.
  unfold charMatches, Canonicalize, toLowerAscii, isLower, isUpper; simpl.
  rewrite N.eqb_eq.
  destruct (0x61 <=? x) eqn:E1, (x <=? 0x7A) eqn:E2,
           (0x61 <=? c) eqn:E3, (c <=? 0x7A) eqn:E4,
           (0x41 <=? x) eqn:E5, (x <=? 0x5A) eqn:E6,
           (0x41 <=? c) eqn:E7, (c <=? 0x5A) eqn:E8; simpl;
    rewrite ?N.leb_le, ?N.leb_gt in *; lia.
Qed.

Lemma Forall2_charMatches_sameIgnoringCase k l :
  Forall2 (fun x c => charMatches true x c = true) k l
  <-> sameIgnoringCase k l.
Proof.
  unfold sameIgnoringCase. revert l; induction k as [|x k IH]; intros [|c l];
    simpl; split; intros H; try discriminate; try (inversion H; fail); auto.
  - inversion H; subst. f_equal; [by apply charMatches_ignoreCase|by apply IH].
  - injection H as Hx Hk. constructor;
      [by apply charMatches_ignoreCase|by apply IH].
Qed.

Lemma Matches_lits_inv ic l ts : forall i s caps,
  Matches ic (lits l ++ ts) i s caps ->
  exists l' s',
    s = l' ++ s'
    /\ Forall2 (fun x c => charMatches ic x c = true) l' l
    /\ Matches ic ts (i + length l')%nat s' caps.
Proof.
  induction l as [|c l IH]; simpl; intros i s caps H.
  - exists [], s. rewrite Nat.add_0_r. repeat split; auto.
  - inversion H as [| | |c0 ts0 i0 x s0 caps0 Hc HM| | | |]; subst.
    apply IH in HM as (l' & s' & -> & HF & HM).
    exists (x :: l'), s'. simpl. rewrite <- Nat.add_succ_comm.
    repeat split; auto.
Qed.

Lemma Matches_lits_intro ic l ts l' s' caps :
  Forall2 (fun x c => charMatches ic x c = true) l' l ->
  forall i,
  Matches ic ts (i + length l')%nat s' caps ->
  Matches ic (lits l ++ ts) i (l' ++ s') caps.
Proof.
  induction 1 as [|x c l' l Hc _ IH]; simpl; intros i HM.
  - by rewrite Nat.add_0_r in HM.
  - constructor; auto. apply IH. by rewrite Nat.add_succ_comm.
Qed.

Lemma Matches_lazy_inv ic cs ts i s caps :
  Matches ic (LazyGroup cs :: ts) i s caps ->
  exists w s' caps',
    s = w ++ s' /\ caps = w :: caps' /\ w <> [] /\ forallb cs w = true
    /\ Matches ic ts (i + length w)%nat s' caps'.
Proof.
  intros H; inversion H; subst. eauto 10.
Qed.

Lemma Matches_opt_end_inv ic c i s caps :
  Matches ic [Opt c; AssertEnd] i s caps ->
  caps = [] /\ (s = [] \/ exists x, s = [x] /\ charMatches ic x c = true).
Proof.
  intros H; inversion H as [| | | |c0 ts0 i0 x s0 caps0 Hc HM
                           |c0 ts0 i0 s0 caps0 HM| |]; subst.
  - inversion HM as [| |ts1 i1 caps1 HN| | | | |]; subst.
    inversion HN; subst. eauto.
  - inversion HM as [| |ts1 i1 caps1 HN| | | | |]; subst.
    inversion HN; subst. eauto.
Qed.

Lemma charMatches_period x :
  charMatches true x 0x2E = true <-> x = 0x2E.
Proof.
  rewrite charMatches_ignoreCase. unfold toLowerAscii, isUpper; simpl.
  destruct (0x41 <=? x) eqn:E1, (x <=? 0x5A) eqn:E2; simpl;
    rewrite ?N.leb_le, ?N.leb_gt in *; lia.
Qed.

Lemma lower_text_My_name_is :
  List.map toLowerAscii text_My_name_is = List.map toLowerAscii lit_my_name_is.
Proof. reflexivity. Qed.
Lemma lower_text_and_I_belong_to_group :
  List.map toLowerAscii text_and_I_belong_to_group
  = List.map toLowerAscii lit_and_i_belong_to_group.
Proof. reflexivity. Qed.
Lemma lower_text_and_today_I_met :
  List.map toLowerAscii text_and_today_I_met
  = List.map toLowerAscii lit_and_today_i_met.
Proof. reflexivity. Qed.

Lemma sameIgnoringCase_trans a b c :
  sameIgnoringCase a b -> List.map toLowerAscii b = List.map toLowerAscii c ->
  sameIgnoringCase a c.
Proof. unfold sameIgnoringCase; congruence. Qed.

(** The captures of a successful match are the four spans of a reading of
    the text along the template. *)
Lemma exec_REQUIRED_PATTERN_sound s caps :
  exec REQUIRED_PATTERN s = Some caps ->
  exists k1 A k2 B k3 C k4 D tail,
    caps = [A; B; C; D]
    /\ s = k1 ++ A ++ k2 ++ B ++ k3 ++ C ++ k4 ++ D ++ tail
    /\ sameIgnoringCase k1 text_My_name_is
    /\ sameIgnoringCase k2 text_and_I_belong_to_group
    /\ sameIgnoringCase k3 text_and_today_I_met
    /\ sameIgnoringCase k4 text_at
    /\ span A /\ span B /\ span C /\ span D
    /\ (tail = [] \/ tail = [0x2E]).
Proof.
  unfold REQUIRED_PATTERN. rewrite exec_anchored. intros H.
  apply matchAt_sound in H.
  apply Matches_lits_inv in H as (k1 & s1 & -> & F1 & H).
  apply Matches_lazy_inv in H as (A & s2 & c2 & -> & -> & NA & FA & H).
  apply Matches_lits_inv in H as (k2 & s3 & -> & F2 & H).
  apply Matches_lazy_inv in H as (B & s4 & c4 & -> & -> & NB & FB & H).
  apply Matches_lits_inv in H as (k3 & s5 & -> & F3 & H).
  apply Matches_lazy_inv in H as (C & s6 & c6 & -> & -> & NC & FC & H).
  apply Matches_lits_inv in H as (k4 & s7 & -> & F4 & H).
  apply Matches_lazy_inv in H as (D & s8 & c8 & -> & -> & ND & FD & H).
  apply Matches_opt_end_inv in H as (-> & Htail).
  apply Forall2_charMatches_sameIgnoringCase in F1, F2, F3, F4.
  exists k1, A, k2, B, k3, C, k4, D, s8.
  assert (Ht : s8 = [] \/ s8 = [0x2E]).
  { destruct Htail as [->|(x & -> & Hx)]; auto.
    apply charMatches_period in Hx as ->. auto. }
  pose proof (sameIgnoringCase_trans _ _ _ F1 (eq_sym lower_text_My_name_is)).
  pose proof (sameIgnoringCase_trans _ _ _ F2
                (eq_sym lower_text_and_I_belong_to_group)).
  pose proof (sameIgnoringCase_trans _ _ _ F3
                (eq_sym lower_text_and_today_I_met)).
  unfold span. split_and!; auto.
Qed.

(** Every text that reads along the template with spans on one line is
    matched. *)
Lemma exec_REQUIRED_PATTERN_complete s A B C D :
  readsAs s A B C D -> is_Some (exec REQUIRED_PATTERN s).
Proof.
  intros (k1 & k2 & k3 & k4 & tail & -> & F1 & F2 & F3 & F4
          & [NA FA] & [NB FB] & [NC FC] & [ND FD] & Htail).
  unfold REQUIRED_PATTERN. rewrite exec_anchored.
  apply (matchAt_complete _ _ _ _ [A; B; C; D]).
  apply Matches_lits_intro.
  { apply Forall2_charMatches_sameIgnoringCase.
    eapply sameIgnoringCase_trans; [exact F1|]. apply lower_text_My_name_is. }
  constructor; auto.
  apply Matches_lits_intro.
  { apply Forall2_charMatches_sameIgnoringCase.
    eapply sameIgnoringCase_trans; [exact F2|].
    apply lower_text_and_I_belong_to_group. }
  constructor; auto.
  apply Matches_lits_intro.
  { apply Forall2_charMatches_sameIgnoringCase.
    eapply sameIgnoringCase_trans; [exact F3|].
    apply lower_text_and_today_I_met. }
  constructor; auto.
  apply Matches_lits_intro.
  { by apply Forall2_charMatches_sameIgnoringCase. }
  constructor; auto.
  destruct Htail as [->| ->].
  - apply Matches_opt_none. repeat constructor.
  - apply Matches_opt_some; [reflexivity|]. repeat constructor.
Qed.

End TemplateFacts.

(* ===================================================================== *)
(** * Properties of the validator *)
(* ===================================================================== *)

Module ValidationFacts.
Import JS RegExp Validation Template RegExpFacts TemplateFacts.

Local Open Scope N_scope.

Lemma trimStart_nil s :
  trimStart s = [] <-> forallb isStrWhiteSpaceChar s = true.
Proof.
  induction s as [|c s IH]; simpl; [tauto|].
  destruct (isStrWhiteSpaceChar c); simpl; [exact IH|].
  split; discriminate.
Qed.

Lemma trimStart_head s c r :
  trimStart s = c :: r -> isStrWhiteSpaceChar c = false.
Proof.
  induction s as [|x s IH]; simpl; [discriminate|].
  destruct (isStrWhiteSpaceChar x) eqn:E; auto.
  intros [= -> ->]. exact E.
Qed.

Lemma forallb_rev_true {A} (f : A -> bool) l :
  forallb f (rev l) = true <-> forallb f l = true.
Proof.
  rewrite !forallb_forall. split; intros H x Hx; apply H;
    [by apply in_rev in Hx|by apply in_rev].
Qed.

(** [trim] leaves nothing exactly for the texts made of blanks only. *)
Lemma trim_nil s :
  trim s = [] <-> forallb isStrWhiteSpaceChar s = true.
Proof.
  unfold trim, trimEnd. split.
  - intros H. apply (f_equal (@rev _)) in H. rewrite rev_involutive in H.
    simpl in H. rewrite trimStart_nil, forallb_rev_true in H.
    destruct (trimStart s) as [|c r] eqn:E.
    + by apply trimStart_nil.
    + apply trimStart_head in E. rewrite forallb_forall in H.
      specialize (H c (or_introl eq_refl)). congruence.
  - intros H. apply trimStart_nil in H. by rewrite H.
Qed.

Lemma exec_REQUIRED_PATTERN_nil : exec REQUIRED_PATTERN [] = None.
Proof. reflexivity. Qed.

Lemma validateTranscription_blank text :
  trim text = [] -> validateTranscription text = neutralResult.
Proof. unfold validateTranscription. by intros ->. Qed.

Lemma validateTranscription_match text m1 m2 m3 m4 :
  exec REQUIRED_PATTERN (trim text) = Some [m1; m2; m3; m4] ->
  validateTranscription text =
    let extractedData :=
      mkVoiceMessage (trim m1) (trim m2) (trim m3) (trim m4) in
    let errors := validateExtractedData extractedData in
    if (0 <? length errors)%nat then
      mkValidationResult false (msg_data_issues ++ join sep_comma errors)
        (Some extractedData) (Some errors) None
    else mkValidationResult true msg_perfect (Some extractedData) None None.
Proof.
  intros H. unfold validateTranscription.
  destruct (trim text) as [|c r] eqn:E.
  - rewrite exec_REQUIRED_PATTERN_nil in H. discriminate.
  - by rewrite H.
Qed.

Lemma validateTranscription_no_match text :
  trim text <> [] -> exec REQUIRED_PATTERN (trim text) = None ->
  validateTranscription text = formatHintResult.
Proof.
  intros Hne H. unfold validateTranscription.
  destruct (trim text) as [|c r] eqn:E; [congruence|].
  by rewrite H.
Qed.

Lemma validateTranscription_extracted text :
  is_Some (extractedData (validateTranscription text))
  <-> is_Some (exec REQUIRED_PATTERN (trim text)).
Proof.
  destruct (exec REQUIRED_PATTERN (trim text)) as [caps|] eqn:E.
  - destruct (exec_REQUIRED_PATTERN_sound _ _ E)
      as (k1 & A & k2 & B & k3 & C & k4 & D & tail & -> & _).
    rewrite (validateTranscription_match _ _ _ _ _ E). simpl.
    split; [eauto|]. intros _.
    destruct (0 <? length _)%nat; simpl; eauto.
  - split; [|intros [? [=]]].
    destruct (trim text) as [|c r] eqn:E'.
    + rewrite validateTranscription_blank by done. intros [? [=]].
    + rewrite validateTranscription_no_match by congruence. intros [? [=]].
Qed.

Lemma validateExtractedData_eq data :
  validateExtractedData data
  = (if isValidName (Validation.speakerName data) then [] else [msg_invalid_speaker])
    ++ (if isValidGroupNumber (Validation.groupNumber data) then [] else [msg_invalid_group])
    ++ (if isValidName (Validation.personMet data) then [] else [msg_invalid_person])
    ++ (if isValidLocation (Validation.location data) then [] else [msg_invalid_location]).
Proof.
  unfold validateExtractedData.
  destruct (isValidName (Validation.speakerName data)),
           (isValidGroupNumber (Validation.groupNumber data)),
           (isValidName (Validation.personMet data)),
           (isValidLocation (Validation.location data)); reflexivity.
Qed.

Lemma nameClass_nameChar c : nameClass c = true <-> nameChar c.
Proof.
  unfold nameClass, nameChar, isLetter.
  rewrite !orb_true_iff, !N.eqb_eq. tauto.
Qed.

Lemma locationClass_locationChar c : locationClass c = true <-> locationChar c.
Proof.
  unfold locationClass, locationChar, isLetter.
  rewrite !orb_true_iff, !N.eqb_eq. tauto.
Qed.

Lemma forallb_Forall_iff {A} (f : A -> bool) (P : A -> Prop) l :
  (forall x, f x = true <-> P x) ->
  forallb f l = true <-> List.Forall P l.
Proof.
  intros Hf. rewrite forallb_forall, List.Forall_forall.
  split; intros H x Hx; apply Hf, H, Hx.
Qed.

Lemma isValidName_iff name :
  isValidName name = true
  <-> (2 <= length name <= 100)%nat /\ List.Forall nameChar name.
Proof.
  unfold isValidName, NAME_PATTERN. rewrite test_class_plus.
  rewrite !andb_true_iff, !Nat.leb_le.
  rewrite <- (forallb_Forall_iff nameClass nameChar name nameClass_nameChar).
  destruct name as [|c r]; simpl; [|tauto].
  split; [intros [_ [=]]|lia].
Qed.

Lemma isValidLocation_iff loc :
  isValidLocation loc = true
  <-> (2 <= length loc <= 200)%nat /\ List.Forall locationChar loc.
Proof.
  unfold isValidLocation, LOCATION_PATTERN. rewrite test_class_plus.
  rewrite !andb_true_iff, !Nat.leb_le.
  rewrite <- (forallb_Forall_iff locationClass locationChar loc
                locationClass_locationChar).
  destruct loc as [|c r]; simpl; [|tauto].
  split; [intros [_ [=]]|lia].
Qed.

Lemma digit_not_nameChar c : isDigit c = true -> ~ nameChar c.
Proof.
  unfold nameChar, isDigit, isLetter, isLower, isUpper, isStrWhiteSpaceChar,
    isWhiteSpace, isLineTerminator.
  rewrite !andb_true_iff, !orb_true_iff, !andb_true_iff, !N.leb_le, !N.eqb_eq.
  lia.
Qed.

Lemma isValidName_digit name c :
  In c name -> isDigit c = true -> isValidName name = false.
Proof.
  intros Hin Hd. apply not_true_is_false. rewrite isValidName_iff.
  intros [_ HF]. rewrite List.Forall_forall in HF.
  exact (digit_not_nameChar c Hd (HF c Hin)).
Qed.

End ValidationFacts.

(* ===================================================================== *)
(** * The validator against its specification *)
(* ===================================================================== *)

Module ValidatorSpec.
Import JS RegExp Validation Template RegExpFacts TemplateFacts ValidationFacts.

Local Open Scope N_scope.

(** The three examples of the specification. *)
Example validateTranscription_example_valid :
  validateTranscription example_valid
  = mkValidationResult true msg_perfect
      (Some (mkVoiceMessage (ofAscii "John Smith") (ofAscii "5")
               (ofAscii "Sarah Johnson") (ofAscii "the coffee shop")))
      None None.
Proof. reflexivity. Qed.

Example validateTranscription_example_no_match :
  validateTranscription example_no_match = formatHintResult.
Proof. reflexivity. Qed.

Example validateTranscription_example_short_name :
  validateTranscription example_short_name
  = mkValidationResult false (msg_data_issues ++ msg_invalid_speaker)
      (Some (mkVoiceMessage (ofAscii "J") (ofAscii "5")
               (ofAscii "Sarah Johnson") (ofAscii "the coffee shop")))
      (Some [msg_invalid_speaker]) None.
Proof. reflexivity. Qed.

(** The last span runs to the end of the text: only one final period is left
    out of it, and words after the location belong to it. *)
Example validateTranscription_last_span_absorbs :
  Validation.location
    <$> extractedData (validateTranscription (example_valid ++ ofAscii ".."))
  = Some (ofAscii "the coffee shop..")
  /\ Validation.location
       <$> extractedData
             (validateTranscription (example_valid ++ ofAscii " and left"))
     = Some (ofAscii "the coffee shop. and left").
Proof. split; reflexivity. Qed.

(** C2.  A text whose trimmed form is empty, that is a text made of blanks
    only, yields the neutral result [isValid = false], empty message, no
    extracted data; this is not the format-hint rejection. *)
Theorem validateTranscription_blank_is_neutral (text : jsstring) :
  trim text = [] ->
  validateTranscription text = mkValidationResult false [] None None None
  /\ forallb isStrWhiteSpaceChar text = true
  /\ validateTranscription text <> formatHintResult.
Proof.
  intros H. rewrite (validateTranscription_blank _ H). split_and!.
  - reflexivity.
  - by apply trim_nil.
  - discriminate.
Qed.

Lemma validateTranscription_blank_is_neutral_witness :
  trim example_blank = []
  /\ validateTranscription example_blank
     = mkValidationResult false [] None None None
  /\ forallb isStrWhiteSpaceChar example_blank = true
  /\ validateTranscription example_blank <> formatHintResult.
Proof.
  split; [reflexivity|].
  apply (validateTranscription_blank_is_neutral example_blank). reflexivity.
Defined.

(** C3, as the specification words it, fails: on the example with the
    one-letter name the message does not begin with the prefix
    "format correct but data has issues: ". *)
Lemma semantic_error_message_spec_wording_fails :
  exec REQUIRED_PATTERN (trim example_short_name)
    = Some [ofAscii "J"; ofAscii "5"; ofAscii "Sarah Johnson";
            ofAscii "the coffee shop"]
  /\ validateExtractedData
       (extractedFields (ofAscii "J") (ofAscii "5") (ofAscii "Sarah Johnson")
          (ofAscii "the coffee shop"))
     = [msg_invalid_speaker]
  /\ ~ (exists joined,
          message (validateTranscription example_short_name)
          = spec_msg_data_issues ++ joined).
Proof.
  split_and!; [reflexivity|reflexivity|].
  intros [joined H]. vm_compute in H. discriminate.
Qed.

(** C3, amended.  When the trimmed text matches the pattern with captures
    [m1 .. m4] and the trimmed captures fail a semantic check, the result has
    [isValid = false], the message
    "Format is correct but data has issues: " followed by the errors joined
    with ", ", the extracted data populated with the trimmed captures, and
    the list of errors. *)
Theorem validateTranscription_semantic_errors
    (text m1 m2 m3 m4 : jsstring) :
  exec REQUIRED_PATTERN (trim text) = Some [m1; m2; m3; m4] ->
  validateExtractedData (extractedFields m1 m2 m3 m4) <> [] ->
  validateTranscription text
  = mkValidationResult false
      (msg_data_issues
         ++ join sep_comma (validateExtractedData (extractedFields m1 m2 m3 m4)))
      (Some (extractedFields m1 m2 m3 m4))
      (Some (validateExtractedData (extractedFields m1 m2 m3 m4)))
      None.
Proof.
  intros Hm He. rewrite (validateTranscription_match _ _ _ _ _ Hm).
  fold (extractedFields m1 m2 m3 m4). cbv zeta.
  destruct (validateExtractedData (extractedFields m1 m2 m3 m4)); [done|].
  reflexivity.
Qed.

Lemma validateTranscription_semantic_errors_witness :
  exec REQUIRED_PATTERN (trim example_short_name)
    = Some [ofAscii "J"; ofAscii "5"; ofAscii "Sarah Johnson";
            ofAscii "the coffee shop"]
  /\ validateExtractedData
       (extractedFields (ofAscii "J") (ofAscii "5") (ofAscii "Sarah Johnson")
          (ofAscii "the coffee shop")) <> []
  /\ validateTranscription example_short_name
     = mkValidationResult false
         (msg_data_issues ++ msg_invalid_speaker)
         (Some (mkVoiceMessage (ofAscii "J") (ofAscii "5")
                  (ofAscii "Sarah Johnson") (ofAscii "the coffee shop")))
         (Some [msg_invalid_speaker])
         None.
Proof.
  split; [reflexivity|]. split; [vm_compute; discriminate|].
  apply (validateTranscription_semantic_errors example_short_name
           (ofAscii "J") (ofAscii "5") (ofAscii "Sarah Johnson")
           (ofAscii "the coffee shop")).
  - reflexivity.
  - vm_compute; discriminate.
Defined.

Lemma isValidGroupNumber_iff s :
  isValidGroupNumber s = true
  <-> exists n, parseInt10 s = Some n /\ (0 < n <= 999)%Z.
Proof.
  unfold isValidGroupNumber. destruct (parseInt10 s) as [n|].
  - rewrite andb_true_iff, Z.ltb_lt, Z.leb_le. split.
    + intros [? ?]. exists n. auto.
    + intros (n' & [= ->] & ?). lia.
  - split; [discriminate|]. intros (n & [=] & _).
Qed.








(** [parseInt] reads a leading run of digits: text after the digits, or a
    plus sign before them, does not make the check fail. *)
Lemma isValidGroupNumber_reads_prefix :
  isValidGroupNumber (ofAscii "5abc") = true
  /\ isValidGroupNumber (ofAscii "12.5") = true
  /\ isValidGroupNumber (ofAscii "+7") = true.
Proof. repeat split. Qed.

Lemma name_error_reported data (c : char) :
  isDigit c = true ->
  (In c (Validation.speakerName data) ->
   In msg_invalid_speaker (validateExtractedData data))
  /\ (In c (Validation.personMet data) ->
      In msg_invalid_person (validateExtractedData data)).
Proof.
  intros Hd. rewrite validateExtractedData_eq. split; intros Hin.
  - rewrite (isValidName_digit _ _ Hin Hd). simpl. auto.
  - rewrite (isValidName_digit (Validation.personMet data) _ Hin Hd).
    rewrite !in_app_iff. simpl. auto.
Qed.

(** C5.  The semantic checker runs the four checks (speaker name, group
    number, person met, location), each contributing its error or nothing,
    and returns the errors in that order; a name is valid exactly when its
    length lies in [2,100] and its characters are letters, blanks, hyphen,
    period or apostrophe, so that a name with a digit is reported as
    "Invalid speaker name" or "Invalid person name"; a location is valid
    exactly when its length lies in [2,200] and its characters are letters,
    digits, blanks, hyphen, period, comma or apostrophe. *)
Theorem validateExtractedData_checks :
  (forall data,
     validateExtractedData data
     = (if isValidName (Validation.speakerName data)
        then [] else [ofAscii "Invalid speaker name"])
       ++ (if isValidGroupNumber (Validation.groupNumber data)
           then [] else [ofAscii "Group number must be a valid number"])
       ++ (if isValidName (Validation.personMet data)
           then [] else [ofAscii "Invalid person name"])
       ++ (if isValidLocation (Validation.location data)
           then [] else [ofAscii "Invalid location"]))
  /\ (forall name,
        isValidName name = true
        <-> (2 <= length name <= 100)%nat /\ List.Forall nameChar name)
  /\ (forall data c,
        isDigit c = true ->
        (In c (Validation.speakerName data) ->
         In (ofAscii "Invalid speaker name") (validateExtractedData data))
        /\ (In c (Validation.personMet data) ->
            In (ofAscii "Invalid person name") (validateExtractedData data)))
  /\ (forall loc,
        isValidLocation loc = true
        <-> (2 <= length loc <= 200)%nat /\ List.Forall locationChar loc).
Proof.
  split_and!.
  - apply validateExtractedData_eq.
  - apply isValidName_iff.
  - apply name_error_reported.
  - apply isValidLocation_iff.
Qed.

End ValidatorSpec.

(* ===================================================================== *)
(** * Properties of the meetings service *)
(* ===================================================================== *)

Module MeetingsFacts.
Import JS Meetings.

Section Service.

Variable validationService : jsstring -> ValidationResult.
Variable newDate : jsstring -> Date.
Variables toISOString formatDisplayDate formatDisplayTime : Date -> jsstring.
Variable numberToString : Z -> jsstring.

Abbreviation createMeetingRecord :=
  (createMeetingRecord validationService newDate toISOString
     formatDisplayDate formatDisplayTime numberToString).
Abbreviation createdRow := (createdRow newDate numberToString).
Abbreviation formatMeetingRecord :=
  (formatMeetingRecord toISOString formatDisplayDate formatDisplayTime).
Abbreviation handle :=
  (handle validationService newDate toISOString formatDisplayDate
     formatDisplayTime numberToString).
Abbreviation serve :=
  (serve validationService newDate toISOString formatDisplayDate
     formatDisplayTime numberToString).
Abbreviation createdOn :=
  (createdOn validationService newDate toISOString formatDisplayDate
     formatDisplayTime numberToString).
Abbreviation countCreatedOn :=
  (countCreatedOn validationService newDate toISOString formatDisplayDate
     formatDisplayTime numberToString).

(** A rejected transcription: the exception carries the message and the
    errors of the validation result, and the world is untouched. *)
Lemma createMeetingRecord_invalid env dto audioFile w :
  isValid (validationService (fullTranscription dto)) = false ->
  createMeetingRecord env dto audioFile w
  = (Thrown (BadRequestException
               (ErrorObject code_INVALID_MESSAGE_FORMAT
                  (message (validationService (fullTranscription dto)))
                  (errors (validationService (fullTranscription dto))))),
     w).
Proof.
  intros H. unfold Meetings.createMeetingRecord. by rewrite H.
Qed.

(** An accepted transcription: what the call does, by the answers of the
    storage. *)
Lemma createMeetingRecord_valid env dto audioFile w extracted :
  isValid (validationService (fullTranscription dto)) = true ->
  extractedData (validationService (fullTranscription dto)) = Some extracted ->
  createMeetingRecord env dto audioFile w
  = let row :=
      createdRow env dto audioFile extracted
        (confidence (validationService (fullTranscription dto))) w in
    let d := newDate (dd_recordingDate (getCurrentDateData env)) in
    if createThrows env then (Thrown genericFailure, w)
    else if upsertThrows env then
      (Thrown genericFailure,
       mkWorld (<[nextId w := row]> (meetingRecords w)) (dailyStats w)
               (Pos.succ (nextId w)) (immediates w ++ [nextId w]))
    else
      (Returned (formatMeetingRecord row),
       mkWorld (<[nextId w := row]> (meetingRecords w))
               (<[d := upsertedRow d (dailyStats w !! d)]> (dailyStats w))
               (Pos.succ (nextId w)) (immediates w ++ [nextId w])).
Proof.
  intros Hv He. unfold Meetings.createMeetingRecord. rewrite Hv, He. simpl.
  unfold tryCatch, bind, ret, throw, saveAudioFile, updateDailyStatistics,
    prisma_meetingRecord_create, processBackgroundTasks, setImmediate,
    prisma_dailyStats_upsert, Meetings.createdRow, upsertedRow.
  destruct audioFile as [f|]; simpl;
    destruct (createThrows env); simpl; try reflexivity;
    destruct (upsertThrows env); simpl; try reflexivity;
    destruct (dailyStats w !! _); reflexivity.
Qed.

(** A validation result that claims validity without extracted data makes
    the call fail before anything is stored. *)
Lemma createMeetingRecord_no_data env dto audioFile w :
  isValid (validationService (fullTranscription dto)) = true ->
  extractedData (validationService (fullTranscription dto)) = None ->
  createMeetingRecord env dto audioFile w = (Thrown genericFailure, w).
Proof.
  intros Hv He. unfold Meetings.createMeetingRecord. rewrite Hv, He.
  reflexivity.
Qed.

(** The daily statistics after a call: one upsert when a record is
    returned, none when the call throws. *)
Lemma createMeetingRecord_dailyStats env dto audioFile w :
  dailyStats (snd (createMeetingRecord env dto audioFile w))
  = match fst (createMeetingRecord env dto audioFile w) with
    | Returned _ =>
        let d := newDate (dd_recordingDate (getCurrentDateData env)) in
        <[d := upsertedRow d (dailyStats w !! d)]> (dailyStats w)
    | Thrown _ => dailyStats w
    end.
Proof.
  destruct (isValid (validationService (fullTranscription dto))) eqn:Hv.
  - destruct (extractedData (validationService (fullTranscription dto)))
      as [d|] eqn:He.
    + rewrite (createMeetingRecord_valid _ _ _ _ _ Hv He). cbv zeta.
      destruct (createThrows env); [reflexivity|].
      destruct (upsertThrows env); reflexivity.
    + by rewrite (createMeetingRecord_no_data _ _ _ _ Hv He).
  - by rewrite (createMeetingRecord_invalid _ _ _ _ Hv).
Qed.

(** ** Well-formed worlds *)

Lemma createMeetingRecord_wellFormed env dto audioFile w :
  wellFormed w -> wellFormed (snd (createMeetingRecord env dto audioFile w)).
Proof.
  intros Hwf.
  destruct (isValid (validationService (fullTranscription dto))) eqn:Hv.
  - destruct (extractedData (validationService (fullTranscription dto)))
      as [d|] eqn:He.
    + rewrite (createMeetingRecord_valid _ _ _ _ _ Hv He). cbv zeta.
      destruct (createThrows env); [done|].
      assert (Hnew : forall ds q,
                wellFormed
                  (mkWorld (<[nextId w :=
                              createdRow env dto audioFile d
                                (confidence
                                   (validationService (fullTranscription dto)))
                                w]> (meetingRecords w))
                     ds (Pos.succ (nextId w)) q)).
      { intros ds q i r. simpl. intros [[<- <-]|[Hne Hi]]%lookup_insert_Some.
        - simpl. split; [done|lia].
        - destruct (Hwf _ _ Hi). split; [done|lia]. }
      destruct (upsertThrows env); apply Hnew.
    + by rewrite (createMeetingRecord_no_data _ _ _ _ Hv He).
  - by rewrite (createMeetingRecord_invalid _ _ _ _ Hv).
Qed.

(** Creation keeps the invariant on synchronised records: a new record is
    not marked. *)
Lemma createMeetingRecord_syncInvariant env dto audioFile w :
  syncInvariant w ->
  syncInvariant (snd (createMeetingRecord env dto audioFile w)).
Proof.
  intros Hinv.
  destruct (isValid (validationService (fullTranscription dto))) eqn:Hv.
  - destruct (extractedData (validationService (fullTranscription dto)))
      as [d|] eqn:He.
    + rewrite (createMeetingRecord_valid _ _ _ _ _ Hv He). cbv zeta.
      destruct (createThrows env); [done|].
      assert (Hnew : forall ds q,
                syncInvariant
                  (mkWorld (<[nextId w :=
                              createdRow env dto audioFile d
                                (confidence
                                   (validationService (fullTranscription dto)))
                                w]> (meetingRecords w))
                     ds (Pos.succ (nextId w)) q)).
      { intros ds q i r. simpl. intros [[<- <-]|[Hne Hi]]%lookup_insert_Some.
        - intros Hs. discriminate Hs.
        - eapply Hinv, Hi. }
      destruct (upsertThrows env); apply Hnew.
    + by rewrite (createMeetingRecord_no_data _ _ _ _ Hv He).
  - by rewrite (createMeetingRecord_invalid _ _ _ _ Hv).
Qed.

(** ** The daily statistics over a sequence of requests *)

Lemma syncRecord_frame env r w :
  dailyStats (snd (syncRecord env r w)) = dailyStats w
  /\ nextId (snd (syncRecord env r w)) = nextId w
  /\ immediates (snd (syncRecord env r w)) = immediates w.
Proof.
  unfold syncRecord, tryCatch, bind, googleSheetsService_addRecord,
    prisma_meetingRecord_update.
  destruct (addRecord env r); simpl; auto.
  destruct (meetingRecords w !! mr_id r); simpl; auto.
  destruct (updateThrows env (mr_id r)); simpl; auto.
Qed.

Lemma syncRecord_returns env r w :
  exists ok, fst (syncRecord env r w) = Returned ok.
Proof.
  unfold syncRecord, tryCatch, bind, googleSheetsService_addRecord,
    prisma_meetingRecord_update.
  destruct (addRecord env r); simpl; eauto.
  destruct (meetingRecords w !! mr_id r); simpl; eauto.
  destruct (updateThrows env (mr_id r)); simpl; eauto.
Qed.

Lemma syncLoop_dailyStats env records : forall s e w,
  dailyStats (snd (syncLoop env records s e w)) = dailyStats w.
Proof.
  induction records as [|r rest IH]; intros s e w; simpl; auto.
  unfold bind. destruct (syncRecord_returns env r w) as [ok Hok].
  destruct (syncRecord env r w) as [o w1] eqn:E. simpl in Hok. subst o.
  pose proof (syncRecord_frame env r w) as (Hd & _). rewrite E in Hd.
  simpl in Hd. destruct ok; rewrite IH; exact Hd.
Qed.

Lemma syncToGoogleSheets_dailyStats env w :
  dailyStats (snd (syncToGoogleSheets env w)) = dailyStats w.
Proof.
  unfold syncToGoogleSheets, bind, prisma_meetingRecord_findMany_unsynced.
  destruct (findManyThrows env); simpl; auto.
  apply syncLoop_dailyStats.
Qed.

Lemma backgroundCallback_dailyStats env i w :
  dailyStats (snd (backgroundCallback env i w)) = dailyStats w.
Proof.
  unfold backgroundCallback, tryCatch, bind, prisma_meetingRecord_findUnique,
    googleSheetsService_addRecord, prisma_meetingRecord_update.
  destruct (findUniqueThrows env); simpl; auto.
  destruct (meetingRecords w !! i) as [r|] eqn:E; simpl; auto.
  destruct (addRecord env r); simpl; auto.
  rewrite ?E.
  destruct (updateThrows env i); simpl; auto.
Qed.

Lemma runImmediate_dailyStats env w :
  dailyStats (runImmediate env w) = dailyStats w.
Proof.
  unfold runImmediate. destruct (immediates w); auto.
  by rewrite backgroundCallback_dailyStats.
Qed.

Lemma totalRecordingsOn_upsert d d0 (m : gmap Date DailyStatsRow) :
  from_option ds_totalRecordings 0%Z
    (<[d0 := upsertedRow d0 (m !! d0)]> m !! d)
  = (from_option ds_totalRecordings 0 (m !! d)
     + if bool_decide (d0 = d) then 1 else 0)%Z.
Proof.
  case_bool_decide as Hd.
  - subst. rewrite lookup_insert_eq. destruct (m !! d); simpl; lia.
  - rewrite lookup_insert_ne by done. lia.
Qed.

Lemma totalRecordingsOn_handle d req w :
  totalRecordingsOn d (handle req w)
  = (totalRecordingsOn d w + if createdOn d req w then 1 else 0)%Z.
Proof.
  unfold totalRecordingsOn. destruct req as [env dto audioFile|env|env]; simpl.
  - rewrite createMeetingRecord_dailyStats.
    destruct (fst (createMeetingRecord env dto audioFile w)).
    + cbv zeta. rewrite totalRecordingsOn_upsert.
      by destruct (bool_decide _).
    + lia.
  - rewrite syncToGoogleSheets_dailyStats. lia.
  - rewrite runImmediate_dailyStats. lia.
Qed.

Lemma totalRecordingsOn_serve d reqs : forall w,
  totalRecordingsOn d (serve reqs w)
  = (totalRecordingsOn d w + Z.of_nat (countCreatedOn d reqs w))%Z.
Proof.
  induction reqs as [|req rest IH]; intros w; simpl.
  - lia.
  - rewrite IH, totalRecordingsOn_handle.
    destruct (createdOn d req w); lia.
Qed.

End Service.

(** ** The batch synchronisation *)

#[global] Instance byRecordingDate_total : Total byRecordingDate.
Proof. intros a b. unfold byRecordingDate. lia. Qed.

#[global] Instance byRecordingDate_trans : Transitive byRecordingDate.
Proof. intros a b c. unfold byRecordingDate. lia. Qed.

Lemma world_eta w :
  mkWorld (meetingRecords w) (dailyStats w) (nextId w) (immediates w) = w.
Proof. by destruct w. Qed.

Lemma syncRecord_spec env r w :
  meetingRecords w !! mr_id r = Some r ->
  syncRecord env r w
  = (Returned (pushedAndMarked env r),
     mkWorld (<[mr_id r := afterSync env r]> (meetingRecords w))
             (dailyStats w) (nextId w) (immediates w)).
Proof.
  intros H.
  unfold syncRecord, tryCatch, bind, googleSheetsService_addRecord,
    prisma_meetingRecord_update, pushedAndMarked, afterSync.
  destruct (addRecord env r) as [rowId|]; simpl.
  - rewrite H. destruct (updateThrows env (mr_id r)); simpl.
    + by rewrite insert_id, world_eta.
    + reflexivity.
  - by rewrite insert_id, world_eta.
Qed.

Lemma syncLoop_spec env records : forall w s e,
  NoDup (mr_id <$> records) ->
  (forall r, r ∈ records -> meetingRecords w !! mr_id r = Some r) ->
  exists w',
    syncLoop env records s e w
    = (Returned
         (s + length (filter (fun r => pushedAndMarked env r = true) records),
          e + length (filter (fun r => pushedAndMarked env r = false) records)),
       w')
    /\ (forall r, r ∈ records ->
          meetingRecords w' !! mr_id r = Some (afterSync env r))
    /\ (forall i, i ∉ mr_id <$> records ->
          meetingRecords w' !! i = meetingRecords w !! i)
    /\ dailyStats w' = dailyStats w
    /\ nextId w' = nextId w
    /\ immediates w' = immediates w.
Proof.
  induction records as [|r rest IH]; intros w s e Hnd Hin.
  - exists w. simpl. unfold ret. rewrite !Nat.add_0_r.
    split_and!; auto. intros r Hr. by apply elem_of_nil in Hr.
  - rewrite fmap_cons in Hnd. apply NoDup_cons in Hnd as [Hr Hnd].
    simpl. unfold bind.
    rewrite syncRecord_spec by (apply Hin; left).
    set (w1 := mkWorld _ _ _ _).
    assert (Hin1 : forall r', r' ∈ rest ->
                     meetingRecords w1 !! mr_id r' = Some r').
    { intros r' Hr'. simpl. rewrite lookup_insert_ne.
      - apply Hin. by right.
      - intros Heq. apply Hr. rewrite Heq. by apply list_elem_of_fmap_2. }
    rewrite !filter_cons.
    destruct (pushedAndMarked env r) eqn:Hok.
    + destruct (IH w1 (S s) e Hnd Hin1) as (w' & -> & Ha & Hb & Hc & Hd & He).
      exists w'. rewrite decide_True by done. rewrite decide_False by done.
      simpl. rewrite <- Nat.add_succ_comm. split_and!; auto.
      * intros r' [->|Hr']%elem_of_cons; [|by apply Ha].
        rewrite Hb by done. simpl. by rewrite lookup_insert_eq.
      * intros i Hi. apply not_elem_of_cons in Hi as [Hi1 Hi2].
        rewrite Hb by done. simpl. by rewrite lookup_insert_ne.
    + destruct (IH w1 s (S e) Hnd Hin1) as (w' & -> & Ha & Hb & Hc & Hd & He).
      exists w'. rewrite decide_False by done. rewrite decide_True by done.
      simpl. rewrite <- Nat.add_succ_comm. split_and!; auto.
      * intros r' [->|Hr']%elem_of_cons; [|by apply Ha].
        rewrite Hb by done. simpl. by rewrite lookup_insert_eq.
      * intros i Hi. apply not_elem_of_cons in Hi as [Hi1 Hi2].
        rewrite Hb by done. simpl. by rewrite lookup_insert_ne.
Qed.

Lemma unsyncedBatch_elem n w r :
  r ∈ unsyncedBatch n w ->
  exists i, meetingRecords w !! i = Some r /\ mr_syncedToSheets r = false.
Proof.
  unfold unsyncedBatch. intros H.
  assert (H' := elem_of_sublist _ _ _ H (sublist_take _ _)).
  rewrite merge_sort_Permutation in H'.
  apply list_elem_of_filter in H' as [Hu H'].
  apply list_elem_of_fmap in H' as ([i r'] & -> & H').
  apply elem_of_map_to_list in H'. eauto.
Qed.

Lemma unsyncedBatch_lookup n w r :
  wellFormed w -> r ∈ unsyncedBatch n w ->
  meetingRecords w !! mr_id r = Some r /\ mr_syncedToSheets r = false.
Proof.
  intros Hwf H. apply unsyncedBatch_elem in H as (i & Hi & Hu).
  destruct (Hwf _ _ Hi) as [-> _]. auto.
Qed.

Lemma wellFormed_ids w :
  wellFormed w ->
  mr_id <$> (map_to_list (meetingRecords w)).*2
  = (map_to_list (meetingRecords w)).*1.
Proof.
  intros Hwf. rewrite <- list_fmap_compose. apply Forall_fmap_ext_1.
  apply Forall_forall. intros [i r] H. apply elem_of_map_to_list in H.
  simpl. by destruct (Hwf _ _ H).
Qed.

Lemma unsyncedBatch_NoDup n w :
  wellFormed w -> NoDup (mr_id <$> unsyncedBatch n w).
Proof.
  intros Hwf. unfold unsyncedBatch.
  eapply sublist_NoDup; [|apply fmap_sublist, sublist_take].
  rewrite merge_sort_Permutation.
  eapply sublist_NoDup; [|apply fmap_sublist, sublist_filter].
  rewrite wellFormed_ids by done. apply NoDup_fst_map_to_list.
Qed.

Lemma Sorted_take {A} (R : A -> A -> Prop) n l :
  Sorted R l -> Sorted R (take n l).
Proof.
  revert n; induction l as [|x l IH]; intros [|n] H; simpl; auto.
  apply Sorted_inv in H as [Hs Hh]. constructor; [by apply IH|].
  destruct l, n; simpl; auto. inversion Hh; subst. by constructor.
Qed.

Lemma unsyncedBatch_Sorted n w : Sorted byRecordingDate (unsyncedBatch n w).
Proof. apply Sorted_take, Sorted_merge_sort, _. Qed.

(** The batch holds the oldest dates: an unsynchronised record left out of a
    batch is dated no earlier than the records of the batch. *)
Lemma unsyncedBatch_oldest n w r r' i :
  r ∈ unsyncedBatch n w ->
  meetingRecords w !! i = Some r' -> mr_syncedToSheets r' = false ->
  r' ∉ unsyncedBatch n w ->
  byRecordingDate r r'.
Proof.
  unfold unsyncedBatch. intros Hr Hi Hu Hout.
  set (sorted := merge_sort byRecordingDate _) in *.
  assert (Hs : StronglySorted byRecordingDate sorted)
    by (apply StronglySorted_merge_sort; apply _).
  assert (Hin : r' ∈ sorted).
  { unfold sorted. rewrite merge_sort_Permutation.
    apply list_elem_of_filter. split; [done|].
    apply list_elem_of_fmap. exists (i, r'). split; [done|].
    by apply elem_of_map_to_list. }
  rewrite <- (take_drop n sorted) in Hs, Hin.
  apply elem_of_app in Hin as [Hin|Hin]; [done|].
  eapply StronglySorted_app_1_elem_of; eauto.
Qed.

(** A batch that leaves an unsynchronised record out is full. *)
Lemma unsyncedBatch_full n w r' i :
  meetingRecords w !! i = Some r' -> mr_syncedToSheets r' = false ->
  r' ∉ unsyncedBatch n w ->
  length (unsyncedBatch n w) = n.
Proof.
  unfold unsyncedBatch. intros Hi Hu Hout.
  set (sorted := merge_sort byRecordingDate _) in *.
  assert (Hin : r' ∈ sorted).
  { unfold sorted. rewrite merge_sort_Permutation.
    apply list_elem_of_filter. split; [done|].
    apply list_elem_of_fmap. exists (i, r'). split; [done|].
    by apply elem_of_map_to_list. }
  destruct (decide (length sorted <= n)) as [Hle|Hgt].
  - by rewrite take_ge in Hout.
  - rewrite length_take. lia.
Qed.

Lemma filter_split_length {A} (f : A -> bool) (l : list A) :
  length (filter (fun x => f x = true) l)
  + length (filter (fun x => f x = false) l) = length l.
Proof.
  induction l as [|x l IH]; simpl; auto.
  rewrite !filter_cons. destruct (f x) eqn:E.
  - rewrite decide_True by done. rewrite decide_False by done. simpl. lia.
  - rewrite decide_False by done. rewrite decide_True by done. simpl. lia.
Qed.

(** What a pass of the batch synchronisation does. *)
Lemma syncToGoogleSheets_spec env w :
  wellFormed w -> findManyThrows env = false ->
  exists w',
    syncToGoogleSheets env w
    = (Returned
         (length (filter (fun r => pushedAndMarked env r = true)
                    (unsyncedBatch 100 w)),
          length (filter (fun r => pushedAndMarked env r = false)
                    (unsyncedBatch 100 w))),
       w')
    /\ (forall r, r ∈ unsyncedBatch 100 w ->
          meetingRecords w' !! mr_id r = Some (afterSync env r))
    /\ (forall i, i ∉ mr_id <$> unsyncedBatch 100 w ->
          meetingRecords w' !! i = meetingRecords w !! i)
    /\ dailyStats w' = dailyStats w
    /\ nextId w' = nextId w
    /\ immediates w' = immediates w.
Proof.
  intros Hwf Hf.
  unfold syncToGoogleSheets, bind, prisma_meetingRecord_findMany_unsynced.
  rewrite Hf.
  apply (syncLoop_spec env (unsyncedBatch 100 w) w 0 0).
  - by apply unsyncedBatch_NoDup.
  - intros r Hr. by destruct (unsyncedBatch_lookup _ _ _ Hwf Hr).
Qed.

Lemma afterSync_marked env r :
  mr_syncedToSheets r = false ->
  (pushedAndMarked env r = true <-> mr_syncedToSheets (afterSync env r) = true).
Proof.
  intros Hu. unfold pushedAndMarked, afterSync.
  destruct (addRecord env r); [|rewrite Hu; split; discriminate].
  destruct (updateThrows env (mr_id r)); simpl; [|tauto].
  rewrite Hu. split; discriminate.
Qed.

Lemma afterSync_complete env r :
  syncedRowComplete r -> syncedRowComplete (afterSync env r).
Proof.
  unfold afterSync. intros Hr.
  destruct (addRecord env r); [|done].
  destruct (updateThrows env (mr_id r)); [done|].
  intros _. simpl. eauto.
Qed.

(** The batch path keeps the invariant on synchronised records. *)
Lemma syncToGoogleSheets_syncInvariant env w :
  wellFormed w -> syncInvariant w ->
  syncInvariant (snd (syncToGoogleSheets env w)).
Proof.
  intros Hwf Hinv. destruct (findManyThrows env) eqn:Hf.
  - unfold syncToGoogleSheets, bind, prisma_meetingRecord_findMany_unsynced.
    by rewrite Hf.
  - destruct (syncToGoogleSheets_spec env w Hwf Hf)
      as (w' & -> & Ha & Hb & _). simpl.
    intros i r Hi.
    destruct (decide (i ∈ mr_id <$> unsyncedBatch 100 w)) as [Hin|Hout].
    + apply list_elem_of_fmap in Hin as (r0 & -> & Hr0).
      rewrite (Ha _ Hr0) in Hi. injection Hi as <-.
      apply afterSync_complete. eapply Hinv.
      by destruct (unsyncedBatch_lookup _ _ _ Hwf Hr0) as [Hl _].
    + rewrite (Hb _ Hout) in Hi. eapply Hinv, Hi.
Qed.

(** The background path: when the sink accepts the record and the update is
    not rejected, the record is marked and its row identifier is left as it
    was. *)
Lemma backgroundCallback_marks env i w r rowId :
  meetingRecords w !! i = Some r ->
  findUniqueThrows env = false ->
  addRecord env r = Some rowId ->
  updateThrows env i = false ->
  exists r',
    meetingRecords (snd (backgroundCallback env i w)) !! i = Some r'
    /\ mr_syncedToSheets r' = true
    /\ mr_googleSheetsRowId r' = mr_googleSheetsRowId r
    /\ mr_sheetsLastSync r' = Some (now env).
Proof.
  intros Hi Hf Ha Hu.
  unfold backgroundCallback, tryCatch, bind, prisma_meetingRecord_findUnique,
    googleSheetsService_addRecord, prisma_meetingRecord_update.
  rewrite Hf. simpl. rewrite Hi, Ha. simpl. rewrite Hi, Hu. simpl.
  rewrite lookup_insert_eq. eexists. split; [reflexivity|]. auto.
Qed.

Lemma wellFormed_empty : wellFormed (mkWorld ∅ ∅ 1%positive []).
Proof. intros i r H. simpl in H. by rewrite lookup_empty in H. Qed.

Lemma afterSync_id env r : mr_id (afterSync env r) = mr_id r.
Proof.
  unfold afterSync. destruct (addRecord env r); [|done].
  by destruct (updateThrows env (mr_id r)).
Qed.

Lemma syncToGoogleSheets_wellFormed env w :
  wellFormed w -> wellFormed (snd (syncToGoogleSheets env w)).
Proof.
  intros Hwf. destruct (findManyThrows env) eqn:Hf.
  - unfold syncToGoogleSheets, bind, prisma_meetingRecord_findMany_unsynced.
    by rewrite Hf.
  - destruct (syncToGoogleSheets_spec env w Hwf Hf)
      as (w' & -> & Ha & Hb & _ & Hn & _). simpl.
    intros i r Hi. rewrite Hn.
    destruct (decide (i ∈ mr_id <$> unsyncedBatch 100 w)) as [Hin|Hout].
    + apply list_elem_of_fmap in Hin as (r0 & -> & Hr0).
      rewrite (Ha _ Hr0) in Hi. injection Hi as <-.
      rewrite afterSync_id. split; [done|].
      destruct (unsyncedBatch_lookup _ _ _ Hwf Hr0) as [Hl _].
      by destruct (Hwf _ _ Hl).
    + rewrite (Hb _ Hout) in Hi. by apply Hwf.
Qed.

Lemma backgroundCallback_wellFormed env i w :
  wellFormed w -> wellFormed (snd (backgroundCallback env i w)).
Proof.
  intros Hwf.
  unfold backgroundCallback, tryCatch, bind, prisma_meetingRecord_findUnique,
    googleSheetsService_addRecord, prisma_meetingRecord_update.
  destruct (findUniqueThrows env); simpl; auto.
  destruct (meetingRecords w !! i) as [r|] eqn:E; simpl; auto.
  destruct (addRecord env r); simpl; auto.
  rewrite E. destruct (updateThrows env i); simpl; auto.
  intros i' r'. simpl. intros [[<- <-]|[Hne Hj]]%lookup_insert_Some.
  - simpl. by apply Hwf.
  - by apply Hwf.
Qed.

End MeetingsFacts.

(* ===================================================================== *)
(** * The meetings service against its specification *)
(* ===================================================================== *)

Module MeetingsSpec.
Import JS Validation Template Meetings MeetingsFacts.

Section Service.

Variable validationService : jsstring -> ValidationResult.
Variable newDate : jsstring -> Date.
Variables toISOString formatDisplayDate formatDisplayTime : Date -> jsstring.
Variable numberToString : Z -> jsstring.

Abbreviation createMeetingRecord :=
  (createMeetingRecord validationService newDate toISOString
     formatDisplayDate formatDisplayTime numberToString).
Abbreviation createdRow := (createdRow newDate numberToString).
Abbreviation serve :=
  (serve validationService newDate toISOString formatDisplayDate
     formatDisplayTime numberToString).
Abbreviation countCreatedOn :=
  (countCreatedOn validationService newDate toISOString formatDisplayDate
     formatDisplayTime numberToString).

(** C6.  When the validator rejects the transcription, [createMeetingRecord]
    throws the bad-request exception with the code INVALID_MESSAGE_FORMAT that
    carries the message and the errors of the validation result as they are,
    and leaves the world as it was: no record is stored, the daily statistics
    are not touched, no background task is queued. *)
Theorem createMeetingRecord_rejects_invalid
    (env : Env) (dto : CreateMeetingRecordDto) (audioFile : option AudioFile)
    (w : World) :
  isValid (validationService (fullTranscription dto)) = false ->
  createMeetingRecord env dto audioFile w
  = (Thrown (BadRequestException
               (ErrorObject (ofAscii "INVALID_MESSAGE_FORMAT")
                  (message (validationService (fullTranscription dto)))
                  (errors (validationService (fullTranscription dto))))),
     w).
Proof. apply createMeetingRecord_invalid. Qed.

(** C7.  A call of [createMeetingRecord] that returns a record has performed
    one upsert of the daily statistics for the derived date: an existing row
    has [totalRecordings] and [successfulRecordings] incremented by 1 and its
    other members unchanged, a missing row is created with 1, 1, 0, 1, 1, 0;
    and over any sequence of requests (calls that return or throw, passes of
    the batch synchronisation, turns of the event loop) [totalRecordings] of
    a date grows by exactly the number of calls that returned a record for
    that date. *)
Theorem createMeetingRecord_bumps_daily_statistics :
  (forall env dto audioFile w record w',
     createMeetingRecord env dto audioFile w = (Returned record, w') ->
     dailyStats w'
     = <[newDate (dd_recordingDate (getCurrentDateData env)) :=
           upsertedRow (newDate (dd_recordingDate (getCurrentDateData env)))
             (dailyStats w
                !! newDate (dd_recordingDate (getCurrentDateData env)))]>
         (dailyStats w))
  /\ (forall d old,
        upsertedRow d (Some old)
        = mkDailyStatsRow (ds_date old)
            (ds_totalRecordings old + 1) (ds_successfulRecordings old + 1)
            (ds_failedRecordings old) (ds_uniqueGroups old)
            (ds_uniqueSpeakers old) (ds_averageDuration old))
  /\ (forall d,
        upsertedRow d None
        = mkDailyStatsRow d 1 1 0 1 1 (QArith_base.Qmake 0 1))
  /\ (forall d reqs w,
        totalRecordingsOn d (serve reqs w)
        = (totalRecordingsOn d w + Z.of_nat (countCreatedOn d reqs w))%Z).
Proof.
  split_and!; try reflexivity.
  - intros env dto audioFile w record w' H.
    pose proof (createMeetingRecord_dailyStats validationService newDate
                  toISOString formatDisplayDate formatDisplayTime
                  numberToString env dto audioFile w) as Hd.
    rewrite H in Hd. exact Hd.
  - intros d reqs w. apply totalRecordingsOn_serve.
Qed.

(** C10.  When the validator accepts the transcription and the record is
    stored, but the upsert of the daily statistics is rejected, the caller
    gets the generic failure "Failed to create meeting record" while the new
    record stays in the table (under an identifier that was free), the
    statistics are as before, and the background task stays queued. *)
Theorem createMeetingRecord_not_atomic
    (env : Env) (dto : CreateMeetingRecordDto) (audioFile : option AudioFile)
    (w : World) (extracted : VoiceMessage) :
  isValid (validationService (fullTranscription dto)) = true ->
  extractedData (validationService (fullTranscription dto)) = Some extracted ->
  createThrows env = false ->
  upsertThrows env = true ->
  exists w',
    createMeetingRecord env dto audioFile w
    = (Thrown (BadRequestException
                 (ErrorMessage (ofAscii "Failed to create meeting record"))),
       w')
    /\ meetingRecords w' !! nextId w
       = Some (createdRow env dto audioFile extracted
                 (confidence (validationService (fullTranscription dto))) w)
    /\ (wellFormed w -> meetingRecords w !! nextId w = None)
    /\ dailyStats w' = dailyStats w
    /\ immediates w' = immediates w ++ [nextId w].
Proof.
  intros Hv He Hc Hu.
  rewrite (createMeetingRecord_valid _ _ _ _ _ _ _ _ _ _ _ Hv He). cbv zeta.
  rewrite Hc, Hu. eexists. split; [reflexivity|]. simpl.
  split_and!; auto.
  - by rewrite lookup_insert_eq.
  - intros Hwf. destruct (meetingRecords w !! nextId w) as [r|] eqn:E; [|done].
    destruct (Hwf _ _ E). lia.
Qed.

End Service.

Import Scenario.

Lemma createMeetingRecord_rejects_invalid_witness :
  isValid (validateTranscription (fullTranscription dto_no_match)) = false
  /\ create env_ok dto_no_match None emptyWorld
     = (Thrown (BadRequestException
                  (ErrorObject (ofAscii "INVALID_MESSAGE_FORMAT")
                     msg_format_hint None)),
        emptyWorld).
Proof.
  split; [reflexivity|].
  apply (createMeetingRecord_rejects_invalid validateTranscription
           Scenario.newDate toISOString formatDisplayDate formatDisplayTime
           numberToString env_ok dto_no_match None emptyWorld).
  reflexivity.
Defined.

Lemma createMeetingRecord_bumps_daily_statistics_witness :
  fst (create env_ok dto_valid None emptyWorld)
  = Returned (formatMeetingRecord toISOString formatDisplayDate
                formatDisplayTime row_one)
  /\ dailyStats world_one
     = {[ date_27 :=
            mkDailyStatsRow date_27 1 1 0 1 1 (QArith_base.Qmake 0 1) ]}
  /\ countCreatedOn validateTranscription Scenario.newDate toISOString
       formatDisplayDate formatDisplayTime numberToString
       date_27 requests_27 emptyWorld = 2
  /\ totalRecordingsOn date_27
       (serve validateTranscription Scenario.newDate toISOString
          formatDisplayDate formatDisplayTime numberToString
          requests_27 emptyWorld) = 2%Z.
Proof.
  destruct (createMeetingRecord_bumps_daily_statistics validateTranscription
              Scenario.newDate toISOString formatDisplayDate
              formatDisplayTime numberToString) as (H1 & _ & _ & H4).
  split; [reflexivity|]. split.
  - unfold world_one.
    rewrite (H1 env_ok dto_valid None emptyWorld
               (formatMeetingRecord toISOString formatDisplayDate
                  formatDisplayTime row_one)
               (snd (create env_ok dto_valid None emptyWorld)));
      reflexivity.
  - split; [reflexivity|]. rewrite H4. reflexivity.
Defined.

Lemma createMeetingRecord_not_atomic_witness :
  isValid (validateTranscription (fullTranscription dto_valid)) = true
  /\ createThrows env_upsert_rejected = false
  /\ upsertThrows env_upsert_rejected = true
  /\ exists w',
       create env_upsert_rejected dto_valid None emptyWorld
       = (Thrown (BadRequestException
                    (ErrorMessage (ofAscii "Failed to create meeting record"))),
          w')
       /\ meetingRecords w' !! 1%positive = Some row_one
       /\ (wellFormed emptyWorld -> meetingRecords emptyWorld !! 1%positive = None)
       /\ dailyStats w' = dailyStats emptyWorld
       /\ immediates w' = immediates emptyWorld ++ [1%positive].
Proof.
  split; [reflexivity|]. split; [reflexivity|]. split; [reflexivity|].
  apply (createMeetingRecord_not_atomic validateTranscription
           Scenario.newDate toISOString formatDisplayDate formatDisplayTime
           numberToString env_upsert_rejected dto_valid None emptyWorld
           (mkVoiceMessage (ofAscii "John Smith") (ofAscii "5")
              (ofAscii "Sarah Johnson") (ofAscii "the coffee shop")));
    reflexivity.
Defined.

Lemma pushedAndMarked_false env r :
  pushedAndMarked env r = false -> afterSync env r = r.
Proof.
  unfold pushedAndMarked, afterSync. destruct (addRecord env r); [|done].
  by destruct (updateThrows env (mr_id r)).
Qed.

Lemma pushedAndMarked_true env r :
  pushedAndMarked env r = true ->
  mr_googleSheetsRowId (afterSync env r) = addRecord env r
  /\ mr_sheetsLastSync (afterSync env r) = Some (now env).
Proof.
  unfold pushedAndMarked, afterSync. destruct (addRecord env r); [|done].
  by destruct (updateThrows env (mr_id r)).
Qed.

(** C8, as the specification words it, fails: with one unsynchronised record
    that the sink accepts while the storage rejects the update that would
    mark it, the pass returns 0 synced and 1 error, and the record, although
    pushed, is not marked. *)
Lemma syncToGoogleSheets_pushed_not_marked :
  fst (syncToGoogleSheets env_update_rejected world_one) = Returned (0, 1)
  /\ ~ markedExactlyPushed env_update_rejected world_one
        (snd (syncToGoogleSheets env_update_rejected world_one)).
Proof.
  split; [reflexivity|]. intros H.
  assert (Hb : unsyncedBatch 100 world_one = [row_one]) by reflexivity.
  specialize (H row_one). rewrite Hb in H.
  destruct (H (list_elem_of_here _ _)) as [H1 _].
  assert (H2 := H1 (ex_intro _ rowId_1 eq_refl)).
  vm_compute in H2. discriminate H2.
Qed.

(** C8, amended.  A pass of [syncToGoogleSheets] whose [findMany] is not
    rejected returns; its batch has at most 100 records, all unsynchronised,
    in ascending order of [recordingDate], no unsynchronised record left out
    is dated earlier, and a record is left out only when the batch is full;
    [synced + errors] is the length of the batch;
    afterwards the records of the batch that are marked are exactly those
    whose push and whose marking update both succeeded, they carry the row
    identifier the sink returned and the instant of the pass, the other
    records of the batch are as they were (not marked), and records outside
    the batch are untouched. *)
Theorem syncToGoogleSheets_batch (env : Env) (w : World) :
  wellFormed w ->
  findManyThrows env = false ->
  exists synced errors w',
    syncToGoogleSheets env w = (Returned (synced, errors), w')
    /\ length (unsyncedBatch 100 w) <= 100
    /\ Sorted byRecordingDate (unsyncedBatch 100 w)
    /\ (forall r, r ∈ unsyncedBatch 100 w ->
          meetingRecords w !! mr_id r = Some r
          /\ mr_syncedToSheets r = false)
    /\ (forall r r' i,
          r ∈ unsyncedBatch 100 w ->
          meetingRecords w !! i = Some r' -> mr_syncedToSheets r' = false ->
          r' ∉ unsyncedBatch 100 w ->
          (mr_recordingDate r <= mr_recordingDate r')%Z)
    /\ (forall r' i,
          meetingRecords w !! i = Some r' -> mr_syncedToSheets r' = false ->
          r' ∉ unsyncedBatch 100 w ->
          length (unsyncedBatch 100 w) = 100)
    /\ synced + errors = length (unsyncedBatch 100 w)
    /\ synced
       = length (filter (fun r => pushedAndMarked env r = true)
                   (unsyncedBatch 100 w))
    /\ (forall r, r ∈ unsyncedBatch 100 w ->
          (pushedAndMarked env r = true
           <-> mr_syncedToSheets <$> (meetingRecords w' !! mr_id r)
               = Some true))
    /\ (forall r, r ∈ unsyncedBatch 100 w ->
          pushedAndMarked env r = true ->
          exists r',
            meetingRecords w' !! mr_id r = Some r'
            /\ mr_googleSheetsRowId r' = addRecord env r
            /\ mr_sheetsLastSync r' = Some (now env))
    /\ (forall r, r ∈ unsyncedBatch 100 w ->
          pushedAndMarked env r = false ->
          meetingRecords w' !! mr_id r = Some r)
    /\ (forall i, i ∉ mr_id <$> unsyncedBatch 100 w ->
          meetingRecords w' !! i = meetingRecords w !! i).
Proof.
  intros Hwf Hf.
  destruct (syncToGoogleSheets_spec env w Hwf Hf) as (w' & E & Ha & Hb & _).
  eexists _, _, w'. split; [exact E|]. split_and!.
  - apply firstn_le_length.
  - apply unsyncedBatch_Sorted.
  - intros r Hr. exact (unsyncedBatch_lookup 100 w r Hwf Hr).
  - intros r r' i Hr Hi Hu Hout.
    exact (unsyncedBatch_oldest 100 w r r' i Hr Hi Hu Hout).
  - intros r' i Hi Hu Hout. exact (unsyncedBatch_full 100 w r' i Hi Hu Hout).
  - apply filter_split_length.
  - reflexivity.
  - intros r Hr. rewrite (Ha r Hr). simpl.
    destruct (unsyncedBatch_lookup _ _ _ Hwf Hr) as [_ Hu].
    rewrite (afterSync_marked env r Hu).
    split; [by intros ->|by intros [= ->]].
  - intros r Hr Hok. exists (afterSync env r).
    split; [by apply Ha|]. by apply pushedAndMarked_true.
  - intros r Hr Hno. rewrite (Ha r Hr). f_equal.
    by apply pushedAndMarked_false.
  - exact Hb.
Qed.

Lemma wellFormed_world_one : wellFormed world_one.
Proof.
  apply createMeetingRecord_wellFormed, wellFormed_empty.
Qed.

Lemma syncToGoogleSheets_batch_witness :
  wellFormed world_one
  /\ findManyThrows env_ok = false
  /\ exists synced errors w',
       syncToGoogleSheets env_ok world_one = (Returned (synced, errors), w')
       /\ synced + errors = length (unsyncedBatch 100 world_one)
       /\ (pushedAndMarked env_ok row_one = true
           <-> mr_syncedToSheets <$> (meetingRecords w' !! 1%positive)
               = Some true).
Proof.
  split; [exact wellFormed_world_one|]. split; [reflexivity|].
  destruct (syncToGoogleSheets_batch env_ok world_one wellFormed_world_one
              eq_refl)
    as (synced & errors & w' & E & _ & _ & _ & _ & _ & Hsum & _ & Hm & _).
  exists synced, errors, w'. split; [exact E|]. split; [exact Hsum|].
  apply (Hm row_one). left.
Defined.

(** C9 fails on the background path.  In the world with one new record, on
    which the invariant on synchronised records holds, the queued background
    callback, with a sink that accepts the record and a storage that accepts
    the update, leaves the record marked as synchronised without a row
    identifier: the invariant is broken.  The batch path on the same world
    keeps it. *)
Theorem backgroundCallback_marks_without_row_id :
  syncInvariant world_one
  /\ immediates world_one = [1%positive]
  /\ (exists r,
        meetingRecords (runImmediate env_ok world_one) !! 1%positive = Some r
        /\ mr_syncedToSheets r = true
        /\ mr_googleSheetsRowId r = None
        /\ mr_sheetsLastSync r = Some (now env_ok))
  /\ ~ syncInvariant (runImmediate env_ok world_one)
  /\ syncInvariant (snd (syncToGoogleSheets env_ok world_one)).
Proof.
  assert (Hinv : syncInvariant world_one).
  { apply createMeetingRecord_syncInvariant. intros i r H.
    simpl in H. by rewrite lookup_empty in H. }
  assert (Hrun : exists r,
             meetingRecords (runImmediate env_ok world_one) !! 1%positive
             = Some r
             /\ mr_syncedToSheets r = true
             /\ mr_googleSheetsRowId r = None
             /\ mr_sheetsLastSync r = Some (now env_ok)).
  { eexists. split; [vm_compute; reflexivity|]. repeat split. }
  split_and!; auto.
  - intros H. destruct Hrun as (r & Hr & Hs & Hid & _).
    destruct (H _ _ Hr Hs) as [[x Hx] _]. congruence.
  - apply syncToGoogleSheets_syncInvariant; [apply wellFormed_world_one|done].
Qed.

End MeetingsSpec.

(* ===================================================================== *)
(** * Properties of the helpers of [utils.ts] *)
(* ===================================================================== *)

Module UtilsFacts.
Import JS RegExp Template RegExpFacts Utils.

Local Open Scope N_scope.

Lemma digitsValue_app a l1 l2 :
  digitsValue a (l1 ++ l2) = digitsValue (digitsValue a l1) l2.
Proof. revert a; induction l1 as [|c l1 IH]; intros a; simpl; auto. Qed.

Lemma decimal_digit n :
  isDigit (0x30 + n mod 10) = true
  /\ (Z.of_N (0x30 + n mod 10) - 48)%Z = Z.of_N (n mod 10).
Proof.
  unfold isDigit. rewrite andb_true_iff, !N.leb_le.
  assert (H : n mod 10 < 10) by (apply N.mod_upper_bound; discriminate).
  set (r := n mod 10) in *. clearbody r. lia.
Qed.

Lemma div10_zero n : n / 10 = 0 <-> n < 10.
Proof.
  split.
  - intros H. pose proof (N.div_mod n 10 ltac:(discriminate)) as Hd.
    assert (Hr : n mod 10 < 10) by (apply N.mod_upper_bound; discriminate).
    rewrite H in Hd. set (r := n mod 10) in *. clearbody r. lia.
  - apply N.div_small.
Qed.

Lemma log2_div10 n :
  n / 10 <> 0 -> (N.to_nat (N.log2 (n / 10)) < N.to_nat (N.log2 n))%nat.
Proof.
  intros H.
  assert (H10 : 10 <= n).
  { destruct (N.le_gt_cases 10 n) as [|Hlt]; [done|].
    apply div10_zero in Hlt. congruence. }
  assert (Hle : N.log2 (n / 10) <= N.log2 (n / 2)).
  { apply N.log2_le_mono, N.div_le_compat_l. split; [reflexivity|discriminate]. }
  assert (Hh : N.log2 (n / 2) = N.log2 n - 1).
  { change 2 with (2 ^ 1). rewrite <- N.shiftr_div_pow2. apply N.log2_shiftr. }
  assert (Hp : 1 <= N.log2 n).
  { change 1 with (N.log2 2). apply N.log2_le_mono.
    apply N.le_trans with 10; [discriminate|done]. }
  set (a := N.log2 (n / 10)) in *. set (b := N.log2 (n / 2)) in *.
  set (c := N.log2 n) in *. clearbody a b c. lia.
Qed.

(** The digits that [digitsFuel] writes before [acc], given enough fuel. *)
Lemma digitsFuel_spec fuel : forall n acc,
  (N.to_nat (N.log2 n) <= fuel)%nat ->
  exists l,
    digitsFuel (S fuel) n acc = l ++ acc
    /\ digitsValue 0 l = Z.of_N n
    /\ forallb isDigit l = true
    /\ (n < 10 -> length l = 1%nat)
    /\ (10 <= n -> n < 100 -> length l = 2%nat)
    /\ (10 <= n -> (2 <= length l)%nat).
Proof.
  assert (Hsmall : forall n acc, n < 10 ->
            exists l, (48 + n mod 10) :: acc = l ++ acc
              /\ digitsValue 0 l = Z.of_N n
              /\ forallb isDigit l = true
              /\ (n < 10 -> length l = 1%nat)
              /\ (10 <= n -> n < 100 -> length l = 2%nat)
              /\ (10 <= n -> (2 <= length l)%nat)).
  { intros n acc Hn. exists [48 + n mod 10]. split; [done|].
    destruct (decimal_digit n) as [Hd Hv]. split.
    - simpl. rewrite Z.add_0_l, Hv, N.mod_small by done. reflexivity.
    - split; [simpl; by rewrite Hd|]. split_and!; auto; lia. }
  induction fuel as [|fuel IH]; intros n acc Hf.
  - assert (Hn : n <= 1) by (apply N.log2_null; lia).
    assert (Hn10 : n < 10) by lia.
    cbn [digitsFuel]. rewrite (proj2 (div10_zero n) Hn10). simpl N.eqb. cbv iota.
    by apply Hsmall.
  - cbn [digitsFuel]. destruct (n / 10 =? 0) eqn:E.
    + apply N.eqb_eq, div10_zero in E. by apply Hsmall.
    + apply N.eqb_neq in E.
      pose proof (log2_div10 n E) as Hl.
      assert (Hq : (N.to_nat (N.log2 (n / 10)) <= fuel)%nat) by lia.
      destruct (IH (n / 10) ((48 + n mod 10) :: acc) Hq)
        as (l & Hl1 & Hv & Hd & H1 & H2 & H3).
      exists (l ++ [48 + n mod 10]). rewrite <- app_assoc. split; [exact Hl1|].
      assert (Hn : 10 <= n).
      { destruct (N.le_gt_cases 10 n) as [|Hlt]; [done|].
        apply div10_zero in Hlt. congruence. }
      destruct (decimal_digit n) as [Hdd Hdv].
      split.
      * rewrite digitsValue_app, Hv. simpl. rewrite Hdv.
        pose proof (N.div_mod n 10 ltac:(discriminate)) as Hdm.
        set (q := n / 10) in *. set (r := n mod 10) in *. clearbody q r. lia.
      * split.
        { rewrite forallb_app, Hd. simpl. by rewrite Hdd. }
        rewrite length_app. simpl. split_and!.
        -- lia.
        -- intros _ H100. rewrite H1; [done|].
           apply N.Div0.div_lt_upper_bound. lia.
        -- intros _. destruct l; [|simpl; lia].
           simpl in Hv. apply div10_zero in Hn10 || idtac.
           exfalso. apply E. lia.
Qed.

Lemma natToString_spec n :
  digitsValue 0 (natToString n) = Z.of_N n
  /\ forallb isDigit (natToString n) = true
  /\ (n < 10 -> length (natToString n) = 1%nat)
  /\ (10 <= n -> n < 100 -> length (natToString n) = 2%nat)
  /\ (10 <= n -> (2 <= length (natToString n))%nat).
Proof.
  unfold natToString.
  destruct (digitsFuel_spec (N.to_nat (N.log2 n)) n [] (le_n _))
    as (l & -> & H). by rewrite app_nil_r.
Qed.

(** Two digits at least, and the value of the number. *)
Lemma pad2_spec z :
  (0 <= z)%Z ->
  digitsValue 0 (pad2 z) = z
  /\ forallb isDigit (pad2 z) = true
  /\ (2 <= length (pad2 z))%nat
  /\ ((z < 100)%Z -> length (pad2 z) = 2%nat).
Proof.
  intros Hz. unfold pad2, integerToString, padStart.
  rewrite (proj2 (Z.ltb_ge z 0) Hz).
  destruct (natToString_spec (Z.to_N z)) as (Hv & Hd & H1 & H2 & H3).
  destruct (N.lt_ge_cases (Z.to_N z) 10) as [Hlt|Hge].
  - rewrite (H1 Hlt).
    change (take (2 - 1) (List.concat (List.repeat [0x30] (2 - 1))))
      with [0x30].
    rewrite digitsValue_app, forallb_app, length_app, Hd, (H1 Hlt).
    change (digitsValue 0 [0x30]) with 0%Z. rewrite Hv.
    split_and!; auto. lia.
  - pose proof (H3 Hge) as Hlen.
    replace (2 - length (natToString (Z.to_N z)))%nat with 0%nat by lia.
    simpl. split_and!; auto.
    + lia.
    + intros H100. apply H2; lia.
Qed.

(** X1.  [formatDuration] on a whole number of seconds from 0 to
    [Number.MAX_SAFE_INTEGER] writes minutes, a colon and seconds: both parts
    are decimal digits, the minutes have at least two of them and the seconds
    exactly two with a value below 60, and 60 times the minutes plus the
    seconds give the input back; up to 99 minutes and 59 seconds the text
    has five characters. *)
Theorem formatDuration_minutes_seconds (seconds : Z) :
  (0 <= seconds <= MAX_SAFE_INTEGER)%Z ->
  exists mm ss,
    formatDuration seconds = mm ++ [0x3A] ++ ss
    /\ forallb isDigit mm = true /\ forallb isDigit ss = true
    /\ (2 <= length mm)%nat /\ length ss = 2%nat
    /\ (0 <= digitsValue 0 ss < 60)%Z
    /\ (60 * digitsValue 0 mm + digitsValue 0 ss = seconds)%Z
    /\ ((seconds < 6000)%Z -> length (formatDuration seconds) = 5%nat).
Proof.
  intros [Hs _]. unfold formatDuration.
  rewrite Z.rem_mod_nonneg by lia.
  assert (Hm : (0 <= seconds / 60)%Z) by (apply Z.div_pos; lia).
  assert (Hr : (0 <= seconds mod 60 < 60)%Z) by (apply Z.mod_pos_bound; lia).
  destruct (pad2_spec (seconds / 60) Hm) as (Hv1 & Hd1 & Hl1 & Hc1).
  destruct (pad2_spec (seconds mod 60) (proj1 Hr)) as (Hv2 & Hd2 & Hl2 & Hc2).
  exists (pad2 (seconds / 60)), (pad2 (seconds mod 60)).
  rewrite Hv1, Hv2. split_and!; auto; try lia.
  - apply Hc2. lia.
  - pose proof (Z.div_mod seconds 60 ltac:(lia)). lia.
  - intros H6000.
    assert (H2 : length (pad2 (seconds mod 60)) = 2%nat) by (apply Hc2; lia).
    assert (H1 : length (pad2 (seconds / 60)) = 2%nat).
    { apply Hc1. apply Z.div_lt_upper_bound; lia. }
    unfold char in *. rewrite !length_app, H1, H2. reflexivity.
Qed.

Lemma formatDuration_minutes_seconds_witness :
  (0 <= 125 <= MAX_SAFE_INTEGER)%Z
  /\ exists mm ss,
       formatDuration 125 = mm ++ [0x3A] ++ ss
       /\ forallb isDigit mm = true /\ forallb isDigit ss = true
       /\ (2 <= length mm)%nat /\ length ss = 2%nat
       /\ (0 <= digitsValue 0 ss < 60)%Z
       /\ (60 * digitsValue 0 mm + digitsValue 0 ss = 125)%Z
       /\ ((125 < 6000)%Z -> length (formatDuration 125) = 5%nat).
Proof.
  split; [unfold MAX_SAFE_INTEGER; lia|].
  apply (formatDuration_minutes_seconds 125). unfold MAX_SAFE_INTEGER. lia.
Defined.

Example formatDuration_125 : formatDuration 125 = ofAscii "02:05".
Proof. reflexivity. Qed.

Lemma slice0_take text maxLength :
  (0 <= maxLength)%Z -> (maxLength < Z.of_nat (length text))%Z ->
  slice0 text maxLength = take (Z.to_nat maxLength) text.
Proof.
  intros H0 Hlt. unfold slice0.
  rewrite (proj2 (Z.ltb_ge maxLength 0) H0). f_equal. lia.
Qed.

(** X2.  [truncateText] with a non-negative whole [maxLength]: a text within
    the limit is returned as it is; a longer text becomes its first
    [maxLength] characters followed by three dots, which is [maxLength + 3]
    characters, more than the limit; truncating again changes nothing. *)
Theorem truncateText_idempotent (text : jsstring) (maxLength : Z) :
  (0 <= maxLength)%Z ->
  truncateText (truncateText text maxLength) maxLength
  = truncateText text maxLength
  /\ ((Z.of_nat (length text) <= maxLength)%Z ->
      truncateText text maxLength = text)
  /\ ((maxLength < Z.of_nat (length text))%Z ->
      truncateText text maxLength
      = take (Z.to_nat maxLength) text ++ ofAscii "..."
      /\ Z.of_nat (length (truncateText text maxLength)) = (maxLength + 3)%Z).
Proof.
  intros H0.
  assert (Hshort : (Z.of_nat (length text) <= maxLength)%Z ->
                   truncateText text maxLength = text).
  { intros H. unfold truncateText. by rewrite (proj2 (Z.leb_le _ _) H). }
  assert (Hlong : (maxLength < Z.of_nat (length text))%Z ->
                  truncateText text maxLength
                  = take (Z.to_nat maxLength) text ++ ellipsis).
  { intros H. unfold truncateText.
    rewrite (proj2 (Z.leb_gt _ _) H). by rewrite slice0_take. }
  split_and!; auto.
  - destruct (Z.le_gt_cases (Z.of_nat (length text)) maxLength) as [Hle|Hgt].
    + by rewrite !Hshort.
    + rewrite (Hlong Hgt).
      set (r := take (Z.to_nat maxLength) text ++ ellipsis).
      assert (Hlen : length (take (Z.to_nat maxLength) text) = Z.to_nat maxLength)
        by (rewrite length_take; lia).
      assert (Hr : (maxLength < Z.of_nat (length r))%Z).
      { unfold r. rewrite length_app, Hlen. simpl. lia. }
      unfold truncateText. rewrite (proj2 (Z.leb_gt _ _) Hr).
      rewrite slice0_take by done. unfold r.
      rewrite take_app_le by lia. rewrite take_ge by lia. done.
  - intros Hgt. rewrite (Hlong Hgt). split; [done|].
    rewrite length_app, length_take. simpl. lia.
Qed.

Lemma truncateText_idempotent_witness :
  (0 <= 5)%Z
  /\ truncateText (truncateText (ofAscii "transcription") 5) 5
     = truncateText (ofAscii "transcription") 5
  /\ truncateText (ofAscii "transcription") 5 = ofAscii "trans...".
Proof.
  split; [lia|].
  destruct (truncateText_idempotent (ofAscii "transcription") 5 ltac:(lia))
    as (H & _). split; [exact H|reflexivity].
Defined.

(** With a negative [maxLength] the end of the slice counts from the end of
    the text, and truncating twice differs from truncating once. *)
Example truncateText_negative :
  truncateText (ofAscii "hello") (-2) = ofAscii "hel..."
  /\ truncateText (truncateText (ofAscii "hello") (-2)) (-2)
     = ofAscii "hel....".
Proof. split; reflexivity. Qed.

End UtilsFacts.

Module EmailFacts.
Import JS RegExp Template RegExpFacts Utils.

Local Open Scope N_scope.

Lemma Matches_greedy_inv ic cs ts i s caps :
  Matches ic (GreedyPlus cs :: ts) i s caps ->
  exists w s',
    s = w ++ s' /\ w <> [] /\ forallb cs w = true
    /\ Matches ic ts (i + length w)%nat s' caps.
Proof. intros H; inversion H; subst. eauto 10. Qed.

Lemma Matches_lit_inv ic c ts i s caps :
  Matches ic (Lit c :: ts) i s caps ->
  exists x s', s = x :: s' /\ charMatches ic x c = true
               /\ Matches ic ts (S i) s' caps.
Proof. intros H; inversion H; subst. eauto 10. Qed.

Lemma Matches_end_inv ic i s caps :
  Matches ic [AssertEnd] i s caps -> s = [] /\ caps = [].
Proof.
  intros H; inversion H as [| |ts0 i0 caps0 HN| | | | |]; subst.
  by inversion HN.
Qed.

Lemma charMatches_exact x c : charMatches false x c = true <-> x = c.
Proof. unfold charMatches, Canonicalize. simpl. apply N.eqb_eq. Qed.

Lemma emailPart_no_at p :
  forallb emailClass p = true ->
  filter (fun c => c = 0x40) p = []
  /\ forallb (fun c => negb (isStrWhiteSpaceChar c)) p = true.
Proof.
  induction p as [|c p IH]; simpl; [done|].
  intros [Hc Hp]%andb_true_iff. destruct (IH Hp) as [IH1 IH2].
  unfold emailClass in Hc. apply negb_true_iff, orb_false_iff in Hc as [Hb Ha].
  apply N.eqb_neq in Ha. rewrite filter_cons.
  case_decide; [done|].
  split; [exact IH1|]. by rewrite Hb, IH2.
Qed.

(** X3.  [isValidEmail] accepts exactly the texts of the form
    [local@name.rest] whose three parts are not empty and hold neither a
    blank nor an [@]; an accepted text therefore has exactly one [@] and no
    blank at all. *)
Theorem isValidEmail_shape (email : jsstring) :
  (isValidEmail email = true
   <-> exists a b c,
         email = a ++ [0x40] ++ b ++ [0x2E] ++ c
         /\ emailPart a /\ emailPart b /\ emailPart c)
  /\ (isValidEmail email = true ->
      length (filter (fun c => c = 0x40) email) = 1%nat
      /\ forallb (fun c => negb (isStrWhiteSpaceChar c)) email = true).
Proof.
  assert (Hiff : isValidEmail email = true
                 <-> exists a b c,
                       email = a ++ [0x40] ++ b ++ [0x2E] ++ c
                       /\ emailPart a /\ emailPart b /\ emailPart c).
  { unfold isValidEmail, test, emailRegex. rewrite exec_anchored. split.
    - destruct (matchAt false _ 0 email) as [caps|] eqn:E; [|discriminate].
      intros _. apply matchAt_sound in E.
      apply Matches_greedy_inv in E as (a & s1 & -> & Na & Fa & E).
      apply Matches_lit_inv in E as (x & s2 & -> & Hx & E).
      apply charMatches_exact in Hx as ->.
      apply Matches_greedy_inv in E as (b & s3 & -> & Nb & Fb & E).
      apply Matches_lit_inv in E as (y & s4 & -> & Hy & E).
      apply charMatches_exact in Hy as ->.
      apply Matches_greedy_inv in E as (c & s5 & -> & Nc & Fc & E).
      apply Matches_end_inv in E as [-> _].
      exists a, b, c. rewrite app_nil_r. unfold emailPart. auto 10.
    - intros (a & b & c & -> & [Na Fa] & [Nb Fb] & [Nc Fc]).
      enough (Hs : is_Some (matchAt false
                     [GreedyPlus emailClass; Lit 64; GreedyPlus emailClass;
                      Lit 46; GreedyPlus emailClass; AssertEnd] 0
                     (a ++ [64] ++ b ++ [46] ++ c)))
        by (destruct Hs as [r ->]; done).
      apply (matchAt_complete _ _ _ _ []).
      constructor; auto. simpl. constructor; [by apply charMatches_exact|].
      constructor; auto. simpl. constructor; [by apply charMatches_exact|].
      rewrite <- (app_nil_r c). constructor; auto. repeat constructor. }
  split; [exact Hiff|].
  intros H. apply Hiff in H as (a & b & c & -> & [_ Fa] & [_ Fb] & [_ Fc]).
  destruct (emailPart_no_at _ Fa) as [Ha1 Ha2].
  destruct (emailPart_no_at _ Fb) as [Hb1 Hb2].
  destruct (emailPart_no_at _ Fc) as [Hc1 Hc2].
  split.
  - unfold jsstring, char in *. rewrite !filter_app, Ha1, Hb1, Hc1.
    reflexivity.
  - unfold jsstring, char in *. rewrite !forallb_app, Ha2, Hb2, Hc2.
    reflexivity.
Qed.

Example isValidEmail_examples :
  isValidEmail (ofAscii "ann@example.org") = true
  /\ isValidEmail (ofAscii "ann@mail.example.org") = true
  /\ isValidEmail (ofAscii "ann@example") = false
  /\ isValidEmail (ofAscii "ann@@example.org") = false
  /\ isValidEmail (ofAscii "ann smith@example.org") = false
  /\ isValidEmail (ofAscii "ann@example.") = false.
Proof. repeat split. Qed.

End EmailFacts.

(* ===================================================================== *)
(** * Properties of the hooks *)
(* ===================================================================== *)

Module HooksFacts.
Import JS RegExp Utils Validation Template Hooks ValidationFacts.

(** X4.  The recording timer shows what [formatDuration] gives for the whole
    seconds elapsed: after [elapsed] milliseconds the display is
    [formatDuration] of [elapsed] divided by 1000, rounded down. *)
Theorem timerDisplay_formatDuration (elapsed : Z) :
  (0 <= elapsed)%Z ->
  timerDisplay elapsed = formatDuration (elapsed / 1000).
Proof.
  intros H. unfold timerDisplay, formatDuration.
  assert (H1 : (0 <= elapsed / 1000)%Z) by (apply Z.div_pos; lia).
  rewrite !Z.rem_mod_nonneg by lia.
  replace (elapsed / 1000 / 60)%Z with (elapsed / 60000)%Z
    by (Z.to_euclidean_division_equations; lia).
  replace ((elapsed / 1000) mod 60)%Z with (elapsed mod 60000 / 1000)%Z
    by (Z.to_euclidean_division_equations; lia).
  reflexivity.
Qed.

Lemma timerDisplay_formatDuration_witness :
  (0 <= 125999)%Z
  /\ timerDisplay 125999 = formatDuration (125999 / 1000)
  /\ timerDisplay 125999 = ofAscii "02:05".
Proof.
  split; [lia|]. split; [|reflexivity].
  apply (timerDisplay_formatDuration 125999). lia.
Defined.

(** X5.  Whatever index the random draw of [useMockTranscription] gives
    below the number of samples, the text that [transcribeAudio] resolves to
    is accepted by [validateTranscription], with all four fields extracted
    and no error. *)
Theorem transcribeAudio_valid (randomIndex : nat) :
  (randomIndex < length MOCK_TRANSCRIPTIONS)%nat ->
  exists text fields,
    transcribeAudio randomIndex = Some text
    /\ validateTranscription text
       = mkValidationResult true msg_perfect (Some fields) None None.
Proof.
  intros H. unfold transcribeAudio.
  do 8 (destruct randomIndex as [|randomIndex];
        [eexists _, _; split; [reflexivity|vm_compute; reflexivity]|]).
  simpl in H. lia.
Qed.

Lemma transcribeAudio_valid_witness :
  (3 < length MOCK_TRANSCRIPTIONS)%nat
  /\ exists text fields,
       transcribeAudio 3 = Some text
       /\ validateTranscription text
          = mkValidationResult true msg_perfect (Some fields) None None.
Proof.
  split; [vm_compute; lia|]. apply (transcribeAudio_valid 3). vm_compute; lia.
Defined.

(** X6.  After the effect of [useTranscriptionValidation] has run, the state
    holds what [validateTranscription] returns for the transcription (the
    branch for a blank transcription stores the same neutral result), and
    [submitRecord] goes on to submit exactly when that result is valid. *)
Theorem validationEffect_agrees (st : FormState) :
  fs_validationResult (validationEffect st)
  = validateTranscription (fs_transcription st)
  /\ fs_extractedData (validationEffect st)
     = extractedData (validateTranscription (fs_transcription st))
  /\ submitRecord_submits (validationEffect st)
     = isValid (validateTranscription (fs_transcription st)).
Proof.
  unfold validationEffect.
  destruct (trim (fs_transcription st)) as [|c r] eqn:E.
  - rewrite (validateTranscription_blank _ E). repeat split.
  - simpl. split; [done|]. split; [done|].
    unfold submitRecord_submits. simpl.
    destruct (isValid (validateTranscription (fs_transcription st))) eqn:Hv;
      [|done].
    simpl. rewrite negb_involutive. apply bool_decide_eq_true.
    unfold validateTranscription in *. rewrite E in *.
    destruct (exec REQUIRED_PATTERN (c :: r)) as [[|m1 [|m2 [|m3 [|m4 [|]]]]]|];
      try discriminate Hv.
    destruct (0 <? length _)%nat; simpl; eauto.
Qed.

End HooksFacts.

(* ===================================================================== *)
(** * Further properties of the validator *)
(* ===================================================================== *)

Module ValidatorFacts.
Import JS RegExp Validation Template RegExpFacts TemplateFacts ValidationFacts.

Local Open Scope N_scope.

(** ** Blanks around the text *)

Lemma trimStart_app_blank pre s :
  forallb isStrWhiteSpaceChar pre = true ->
  trimStart (pre ++ s) = trimStart s.
Proof.
  induction pre as [|c pre IH]; simpl; [done|].
  intros [Hc Hp]%andb_true_iff. rewrite Hc. auto.
Qed.

Lemma trimStart_app_nonblank s x :
  trimStart s <> [] -> trimStart (s ++ x) = trimStart s ++ x.
Proof.
  induction s as [|c s IH]; simpl; [done|].
  destruct (isStrWhiteSpaceChar c); auto.
Qed.

Lemma trimEnd_app_blank s post :
  forallb isStrWhiteSpaceChar post = true ->
  trimEnd (s ++ post) = trimEnd s.
Proof.
  intros H. unfold trimEnd. rewrite rev_app_distr.
  rewrite trimStart_app_blank; [done|]. by apply forallb_rev_true.
Qed.

Lemma trim_app_blank pre s post :
  forallb isStrWhiteSpaceChar pre = true ->
  forallb isStrWhiteSpaceChar post = true ->
  trim (pre ++ s ++ post) = trim s.
Proof.
  intros Hpre Hpost. unfold trim. rewrite trimStart_app_blank by done.
  destruct (trimStart s) as [|c r] eqn:E.
  - apply trimStart_nil in E.
    assert (Hall : forallb isStrWhiteSpaceChar (s ++ post) = true)
      by (rewrite forallb_app, E, Hpost; done).
    apply trimStart_nil in Hall. by rewrite Hall.
  - rewrite trimStart_app_nonblank by (rewrite E; discriminate).
    rewrite E. by apply trimEnd_app_blank.
Qed.

Lemma trimStart_idempotent s : trimStart (trimStart s) = trimStart s.
Proof.
  destruct (trimStart s) as [|c r] eqn:E; [done|].
  simpl. by rewrite (trimStart_head _ _ _ E).
Qed.

Lemma trimStart_snoc_nonblank l c :
  isStrWhiteSpaceChar c = false -> exists y, trimStart (l ++ [c]) = y ++ [c].
Proof.
  intros Hc. induction l as [|x l IH]; simpl.
  - rewrite Hc. by exists [].
  - destruct (isStrWhiteSpaceChar x); [exact IH|].
    by exists (x :: l).
Qed.

(** What [trim] returns begins and ends with a character that is not a
    blank, read from either end. *)
Lemma trim_trimmed s :
  trimStart (trim s) = trim s /\ trimStart (rev (trim s)) = rev (trim s).
Proof.
  unfold trim, trimEnd. split.
  - destruct (trimStart s) as [|c r] eqn:E; [done|].
    pose proof (trimStart_head _ _ _ E) as Hc. simpl rev.
    destruct (trimStart_snoc_nonblank (rev r) c Hc) as [y ->].
    rewrite rev_app_distr. simpl. by rewrite Hc.
  - rewrite rev_involutive. apply trimStart_idempotent.
Qed.

Lemma trim_idempotent s : trim (trim s) = trim s.
Proof.
  destruct (trim_trimmed s) as [H1 H2].
  unfold trim at 1. unfold trimEnd. rewrite H1, H2. apply rev_involutive.
Qed.

Lemma forallb_trimStart (P : char -> bool) s :
  forallb P s = true -> forallb P (trimStart s) = true.
Proof.
  induction s as [|c s IH]; simpl; [done|].
  intros [Hc Hs]%andb_true_iff.
  destruct (isStrWhiteSpaceChar c); [auto|]. simpl. by rewrite Hc, Hs.
Qed.

Lemma forallb_trim (P : char -> bool) s :
  forallb P s = true -> forallb P (trim s) = true.
Proof.
  intros H. unfold trim, trimEnd.
  apply forallb_rev_true, forallb_trimStart, forallb_rev_true,
    forallb_trimStart, H.
Qed.

(** X7.  Blanks before and after the text play no part: the result for a
    text surrounded by blanks (spaces, tabs, line breaks, ...) is the result
    for the text itself, and the result for a text is the result for its
    trimmed form. *)
Theorem validateTranscription_ignores_surrounding_blanks
    (pre text post : jsstring) :
  forallb isStrWhiteSpaceChar pre = true ->
  forallb isStrWhiteSpaceChar post = true ->
  validateTranscription (pre ++ text ++ post) = validateTranscription text
  /\ validateTranscription (trim text) = validateTranscription text.
Proof.
  intros Hpre Hpost. unfold validateTranscription.
  by rewrite trim_app_blank, trim_idempotent.
Qed.

Lemma validateTranscription_ignores_surrounding_blanks_witness :
  forallb isStrWhiteSpaceChar (ofAscii "  ") = true
  /\ forallb isStrWhiteSpaceChar [0x20; 0x0A] = true
  /\ validateTranscription (ofAscii "  " ++ example_valid ++ [0x20; 0x0A])
     = validateTranscription example_valid
  /\ validateTranscription (trim example_valid)
     = validateTranscription example_valid.
Proof.
  split; [reflexivity|]. split; [reflexivity|].
  apply (validateTranscription_ignores_surrounding_blanks
           (ofAscii "  ") example_valid [0x20; 0x0A]); reflexivity.
Defined.

(** ** Valid results *)

Lemma validateExtractedData_nil data :
  validateExtractedData data = [] ->
  isValidName (Validation.speakerName data) = true
  /\ isValidGroupNumber (Validation.groupNumber data) = true
  /\ isValidName (Validation.personMet data) = true
  /\ isValidLocation (Validation.location data) = true.
Proof.
  rewrite validateExtractedData_eq.
  destruct (isValidName (Validation.speakerName data)),
           (isValidGroupNumber (Validation.groupNumber data)),
           (isValidName (Validation.personMet data)),
           (isValidLocation (Validation.location data)); simpl;
    intros H; try discriminate H; auto.
Qed.

(** X8.  A result with [isValid = true] always carries the extracted data,
    the success message and no error list, and every extracted field passes
    its check: both names have 2 to 100 characters, the group number parses
    to an integer from 1 to 999, the location has 2 to 200 characters. *)
Theorem validateTranscription_valid_fields (text : jsstring) :
  isValid (validateTranscription text) = true ->
  exists fields n,
    validateTranscription text
    = mkValidationResult true msg_perfect (Some fields) None None
    /\ isValidName (Validation.speakerName fields) = true
    /\ isValidName (Validation.personMet fields) = true
    /\ isValidLocation (Validation.location fields) = true
    /\ parseInt10 (Validation.groupNumber fields) = Some n
    /\ (1 <= n <= 999)%Z
    /\ (2 <= length (Validation.speakerName fields) <= 100)%nat
    /\ (2 <= length (Validation.personMet fields) <= 100)%nat
    /\ (2 <= length (Validation.location fields) <= 200)%nat.
Proof.
  intros Hv.
  destruct (exec REQUIRED_PATTERN (trim text)) as [caps|] eqn:E.
  - destruct (exec_REQUIRED_PATTERN_sound _ _ E)
      as (k1 & A & k2 & B & k3 & C & k4 & D & tail & -> & _).
    rewrite (validateTranscription_match _ _ _ _ _ E) in *. cbv zeta in *.
    set (fields := mkVoiceMessage (trim A) (trim B) (trim C) (trim D)) in *.
    destruct (validateExtractedData fields) as [|e es] eqn:Herr;
      [|discriminate Hv].
    destruct (validateExtractedData_nil _ Herr) as (H1 & H2 & H3 & H4).
    apply ValidatorSpec.isValidGroupNumber_iff in H2 as (n & Hn & Hr).
    exists fields, n. simpl.
    apply isValidName_iff in H1 as H1'. apply isValidName_iff in H3 as H3'.
    apply isValidLocation_iff in H4 as H4'.
    split_and!; auto; try tauto; lia.
  - destruct (trim text) as [|c r] eqn:E'.
    + rewrite (validateTranscription_blank _ E') in Hv. discriminate Hv.
    + rewrite validateTranscription_no_match in Hv by congruence.
      discriminate Hv.
Qed.

Lemma validateTranscription_valid_fields_witness :
  isValid (validateTranscription example_valid) = true
  /\ exists fields n,
       validateTranscription example_valid
       = mkValidationResult true msg_perfect (Some fields) None None
       /\ isValidName (Validation.speakerName fields) = true
       /\ isValidName (Validation.personMet fields) = true
       /\ isValidLocation (Validation.location fields) = true
       /\ parseInt10 (Validation.groupNumber fields) = Some n
       /\ (1 <= n <= 999)%Z
       /\ (2 <= length (Validation.speakerName fields) <= 100)%nat
       /\ (2 <= length (Validation.personMet fields) <= 100)%nat
       /\ (2 <= length (Validation.location fields) <= 200)%nat.
Proof.
  split; [reflexivity|].
  apply (validateTranscription_valid_fields example_valid). reflexivity.
Defined.

(** X9.  Whenever data is extracted, valid or not, each of the four fields
    is in trimmed form (trimming it again changes nothing) and lies on one
    line (it holds no line terminator). *)
Theorem validateTranscription_fields_trimmed
    (text : jsstring) (fields : VoiceMessage) :
  extractedData (validateTranscription text) = Some fields ->
  Forall (fun f => trim f = f /\ forallb dot f = true)
    [Validation.speakerName fields; Validation.groupNumber fields;
     Validation.personMet fields; Validation.location fields].
Proof.
  intros He.
  destruct (exec REQUIRED_PATTERN (trim text)) as [caps|] eqn:E.
  - destruct (exec_REQUIRED_PATTERN_sound _ _ E)
      as (k1 & A & k2 & B & k3 & C & k4 & D & tail & -> & _ & _ & _ & _ & _
          & [_ FA] & [_ FB] & [_ FC] & [_ FD] & _).
    rewrite (validateTranscription_match _ _ _ _ _ E) in He. cbv zeta in He.
    assert (fields = mkVoiceMessage (trim A) (trim B) (trim C) (trim D))
      as -> by (destruct (0 <? length _)%nat; simpl in He; congruence).
    simpl. repeat constructor;
      try apply trim_idempotent; by apply forallb_trim.
  - assert (Hs : is_Some (exec REQUIRED_PATTERN (trim text)))
      by (apply validateTranscription_extracted; rewrite He; eauto).
    rewrite E in Hs. by destruct Hs.
Qed.

Lemma validateTranscription_fields_trimmed_witness :
  extractedData (validateTranscription example_short_name)
  = Some (mkVoiceMessage (ofAscii "J") (ofAscii "5")
            (ofAscii "Sarah Johnson") (ofAscii "the coffee shop"))
  /\ Forall (fun f => trim f = f /\ forallb dot f = true)
       [ofAscii "J"; ofAscii "5"; ofAscii "Sarah Johnson";
        ofAscii "the coffee shop"].
Proof.
  split; [reflexivity|].
  apply (validateTranscription_fields_trimmed example_short_name
           (mkVoiceMessage (ofAscii "J") (ofAscii "5")
              (ofAscii "Sarah Johnson") (ofAscii "the coffee shop"))).
  reflexivity.
Defined.

End ValidatorFacts.

(* ===================================================================== *)
(** * The validator and the case of letters *)
(* ===================================================================== *)

Module CaseFacts.
Import JS RegExp Validation Template CaseRelation.
Import RegExpFacts TemplateFacts ValidationFacts.

Local Open Scope N_scope.

Lemma sameCaseChar_cases x y :
  sameCaseChar x y -> x = y \/ (isLetter x = true /\ isLetter y = true).
Proof.
  unfold sameCaseChar, toLowerAscii, isLetter, isLower, isUpper.
  destruct (0x41 <=? x) eqn:E1, (x <=? 0x5A) eqn:E2,
           (0x41 <=? y) eqn:E3, (y <=? 0x5A) eqn:E4; simpl;
    rewrite ?orb_true_iff, ?andb_true_iff, ?N.leb_le, ?N.leb_gt in *; lia.
Qed.

Lemma letter_facts c :
  isLetter c = true ->
  isStrWhiteSpaceChar c = false /\ isLineTerminator c = false
  /\ isDigit c = false /\ nameClass c = true /\ locationClass c = true
  /\ c <> 0x2D /\ c <> 0x2B.
Proof.
  intros H.
  assert (Hr : 0x41 <= c <= 0x5A \/ 0x61 <= c <= 0x7A).
  { unfold isLetter, isLower, isUpper in H.
    rewrite orb_true_iff, !andb_true_iff, !N.leb_le in H. lia. }
  assert (Hb : isStrWhiteSpaceChar c = false).
  { apply not_true_is_false.
    unfold isStrWhiteSpaceChar, isWhiteSpace, isLineTerminator.
    rewrite !orb_true_iff, !andb_true_iff, !N.leb_le, !N.eqb_eq. lia. }
  assert (Hl : isLineTerminator c = false).
  { apply not_true_is_false. unfold isLineTerminator.
    rewrite !orb_true_iff, !N.eqb_eq. lia. }
  assert (Hd : isDigit c = false).
  { apply not_true_is_false. unfold isDigit.
    rewrite !andb_true_iff, !N.leb_le. lia. }
  unfold isLetter in H. apply orb_true_iff in H.
  split_and!; auto; try lia.
  - unfold nameClass. destruct H as [-> | ->]; [done|].
    by rewrite orb_true_r.
  - unfold locationClass. destruct H as [-> | ->]; [done|].
    by rewrite orb_true_r.
Qed.

Lemma caseInvariant_of (P : char -> bool) :
  (forall x y, isLetter x = true -> isLetter y = true -> P x = P y) ->
  caseInvariant P.
Proof.
  intros H x y [->|[Hx Hy]]%sameCaseChar_cases; auto.
Qed.

Lemma caseInvariant_blank : caseInvariant isStrWhiteSpaceChar.
Proof.
  apply caseInvariant_of. intros x y Hx Hy.
  destruct (letter_facts x Hx) as (-> & _), (letter_facts y Hy) as (-> & _).
  done.
Qed.

Lemma caseInvariant_dot : caseInvariant dot.
Proof.
  apply caseInvariant_of. intros x y Hx Hy. unfold dot.
  destruct (letter_facts x Hx) as (_ & -> & _).
  destruct (letter_facts y Hy) as (_ & -> & _). done.
Qed.

Lemma caseInvariant_digit : caseInvariant isDigit.
Proof.
  apply caseInvariant_of. intros x y Hx Hy.
  destruct (letter_facts x Hx) as (_ & _ & -> & _).
  destruct (letter_facts y Hy) as (_ & _ & -> & _). done.
Qed.

Lemma caseInvariant_nameClass : caseInvariant nameClass.
Proof.
  apply caseInvariant_of. intros x y Hx Hy.
  destruct (letter_facts x Hx) as (_ & _ & _ & -> & _).
  destruct (letter_facts y Hy) as (_ & _ & _ & -> & _). done.
Qed.

Lemma caseInvariant_locationClass : caseInvariant locationClass.
Proof.
  apply caseInvariant_of. intros x y Hx Hy.
  destruct (letter_facts x Hx) as (_ & _ & _ & _ & -> & _).
  destruct (letter_facts y Hy) as (_ & _ & _ & _ & -> & _). done.
Qed.

Lemma sameIgnoringCase_Forall2 a b :
  sameIgnoringCase a b <-> Forall2 sameCaseChar a b.
Proof.
  unfold sameIgnoringCase, sameCaseChar.
  revert b; induction a as [|x a IH]; intros [|y b]; simpl; split; intros H;
    try discriminate; try (inversion H; fail); auto.
  - injection H as Hx Ha. constructor; [done|by apply IH].
  - inversion H; subst. f_equal; [done|by apply IH].
Qed.

Lemma Forall2_rev_same {A} (R : A -> A -> Prop) l l' :
  Forall2 R l l' -> Forall2 R (rev l) (rev l').
Proof.
  induction 1; simpl; [constructor|].
  apply Forall2_app; [done|]. by constructor.
Qed.

Lemma trimStart_sameCase s s' :
  Forall2 sameCaseChar s s' ->
  Forall2 sameCaseChar (trimStart s) (trimStart s').
Proof.
  induction 1 as [|x y s s' Hxy Hs IH]; simpl; [constructor|].
  rewrite (caseInvariant_blank x y Hxy).
  destruct (isStrWhiteSpaceChar y); [exact IH|by constructor].
Qed.

Lemma trim_sameCase s s' :
  Forall2 sameCaseChar s s' -> Forall2 sameCaseChar (trim s) (trim s').
Proof.
  intros H. unfold trim, trimEnd.
  by apply Forall2_rev_same, trimStart_sameCase, Forall2_rev_same,
    trimStart_sameCase.
Qed.

Lemma charMatches_sameCase x y c :
  sameCaseChar x y -> charMatches true x c = charMatches true y c.
Proof.
  intros H. apply eq_iff_eq_true. rewrite !charMatches_ignoreCase.
  unfold sameCaseChar in H. by rewrite H.
Qed.

(** Captures of two runs of the matcher, related span by span. *)
Abbreviation sameCaseResult :=
  (option_Forall2 (Forall2 (Forall2 sameCaseChar))).

Lemma lazyPlus_sameCase cs (k k' : Continuation) :
  caseInvariant cs ->
  (forall i s s', Forall2 sameCaseChar s s' -> sameCaseResult (k i s) (k' i s')) ->
  forall s s', Forall2 sameCaseChar s s' ->
  forall i acc acc', Forall2 sameCaseChar acc acc' ->
  sameCaseResult (lazyPlus cs k i s acc) (lazyPlus cs k' i s' acc').
Proof.
  intros Hcs Hk s s' Hs.
  induction Hs as [|x y s s' Hxy Hs IH]; intros i acc acc' Hacc; simpl.
  - constructor.
  - rewrite (Hcs x y Hxy). destruct (cs y); [|constructor].
    assert (Hacc' : Forall2 sameCaseChar (x :: acc) (y :: acc'))
      by (by constructor).
    destruct (Hk (S i) s s' Hs) as [r r' Hr|].
    + constructor. constructor; [|done].
      apply (Forall2_rev_same _ _ _ Hacc').
    + by apply IH.
Qed.

Lemma greedyPlus_sameCase cs (k k' : Continuation) :
  caseInvariant cs ->
  (forall i s s', Forall2 sameCaseChar s s' -> sameCaseResult (k i s) (k' i s')) ->
  forall s s', Forall2 sameCaseChar s s' ->
  forall i, sameCaseResult (greedyPlus cs k i s) (greedyPlus cs k' i s').
Proof.
  intros Hcs Hk s s' Hs.
  induction Hs as [|x y s s' Hxy Hs IH]; intros i; simpl.
  - constructor.
  - rewrite (Hcs x y Hxy). destruct (cs y); [|constructor].
    destruct (IH (S i)) as [r r' Hr|]; [by constructor|].
    by apply Hk.
Qed.

(** The matcher takes the same decisions on two texts that differ in case
    only, so that the captures differ in case only. *)
Lemma matchAt_sameCase ts :
  Forall caseInvariantTerm ts ->
  forall i s s', Forall2 sameCaseChar s s' ->
  sameCaseResult (matchAt true ts i s) (matchAt true ts i s').
Proof.
  induction ts as [|t ts IH]; intros Hts i s s' Hs.
  - simpl. constructor. constructor.
  - apply Forall_cons in Hts as [Ht Hts]. specialize (IH Hts).
    destruct t as [| |c|c|cs|cs]; simpl.
    + destruct i; [by apply IH|constructor].
    + destruct Hs; [by apply IH; constructor|constructor].
    + destruct Hs as [|x y s s' Hxy Hs]; [constructor|].
      rewrite (charMatches_sameCase x y c Hxy).
      destruct (charMatches true y c); [by apply IH|constructor].
    + destruct Hs as [|x y s s' Hxy Hs]; [by apply IH; constructor|].
      rewrite (charMatches_sameCase x y c Hxy).
      assert (Hskip : sameCaseResult (matchAt true ts i (x :: s))
                        (matchAt true ts i (y :: s')))
        by (apply IH; by constructor).
      destruct (charMatches true y c); [|exact Hskip].
      destruct (IH (S i) s s' Hs) as [r r' Hr|]; [by constructor|exact Hskip].
    + apply lazyPlus_sameCase; auto.
    + apply greedyPlus_sameCase; auto.
Qed.

Lemma REQUIRED_PATTERN_caseInvariant :
  Forall caseInvariantTerm (source REQUIRED_PATTERN).
Proof.
  unfold REQUIRED_PATTERN, source.
  repeat (apply Forall_cons; split; [exact I || exact caseInvariant_dot|]).
  constructor.
Qed.

Lemma exec_REQUIRED_PATTERN_sameCase s s' :
  Forall2 sameCaseChar s s' ->
  sameCaseResult (exec REQUIRED_PATTERN s) (exec REQUIRED_PATTERN s').
Proof.
  intros H. pose proof REQUIRED_PATTERN_caseInvariant as Hinv.
  unfold REQUIRED_PATTERN in *. rewrite !exec_anchored.
  apply Forall_cons in Hinv as [_ Hinv]. by apply matchAt_sameCase.
Qed.

Lemma forallb_sameCase (P : char -> bool) s s' :
  caseInvariant P -> Forall2 sameCaseChar s s' ->
  forallb P s = forallb P s'.
Proof.
  intros HP. induction 1 as [|x y s s' Hxy Hs IH]; simpl; [done|].
  by rewrite (HP x y Hxy), IH.
Qed.

Lemma test_class_sameCase cs s s' :
  caseInvariant cs -> Forall2 sameCaseChar s s' ->
  test (mkRegexp false [AssertStart; GreedyPlus cs; AssertEnd]) s
  = test (mkRegexp false [AssertStart; GreedyPlus cs; AssertEnd]) s'.
Proof.
  intros Hcs Hs. rewrite !test_class_plus.
  rewrite (forallb_sameCase cs s s' Hcs Hs). by destruct Hs.
Qed.

Lemma isValidName_sameCase s s' :
  Forall2 sameCaseChar s s' -> isValidName s = isValidName s'.
Proof.
  intros H. unfold isValidName, NAME_PATTERN.
  rewrite (Forall2_length _ _ _ H).
  by rewrite (test_class_sameCase nameClass s s' caseInvariant_nameClass H).
Qed.

Lemma isValidLocation_sameCase s s' :
  Forall2 sameCaseChar s s' -> isValidLocation s = isValidLocation s'.
Proof.
  intros H. unfold isValidLocation, LOCATION_PATTERN.
  rewrite (Forall2_length _ _ _ H).
  by rewrite (test_class_sameCase locationClass s s'
                caseInvariant_locationClass H).
Qed.

Lemma takeDigits_sameCase s s' :
  Forall2 sameCaseChar s s' -> takeDigits s = takeDigits s'.
Proof.
  induction 1 as [|x y s s' Hxy Hs IH]; simpl; [done|].
  rewrite (caseInvariant_digit x y Hxy).
  destruct (isDigit y) eqn:Hd; [|done].
  destruct (sameCaseChar_cases x y Hxy) as [->|[_ Hy]]; [by rewrite IH|].
  destruct (letter_facts y Hy) as (_ & _ & Hn & _). congruence.
Qed.

Lemma sign_sameCase x y k :
  sameCaseChar x y -> k = 0x2D \/ k = 0x2B -> (x =? k) = (y =? k).
Proof.
  intros [->|[Hx Hy]]%sameCaseChar_cases Hk; [done|].
  destruct (letter_facts x Hx) as (_ & _ & _ & _ & _ & Hx1 & Hx2).
  destruct (letter_facts y Hy) as (_ & _ & _ & _ & _ & Hy1 & Hy2).
  destruct Hk as [-> | ->].
  - by rewrite (proj2 (N.eqb_neq x _) Hx1), (proj2 (N.eqb_neq y _) Hy1).
  - by rewrite (proj2 (N.eqb_neq x _) Hx2), (proj2 (N.eqb_neq y _) Hy2).
Qed.

Lemma parseInt10_sameCase s s' :
  Forall2 sameCaseChar s s' -> parseInt10 s = parseInt10 s'.
Proof.
  intros H. unfold parseInt10.
  destruct (trimStart_sameCase s s' H) as [|x y r r' Hxy Hr]; [done|].
  rewrite (sign_sameCase x y 0x2D Hxy) by auto.
  rewrite (sign_sameCase x y 0x2B Hxy) by auto.
  assert (Hall : Forall2 sameCaseChar (x :: r) (y :: r')) by (by constructor).
  destruct ((y =? 0x2B) || (y =? 0x2D)).
  - by rewrite (takeDigits_sameCase r r' Hr).
  - by rewrite (takeDigits_sameCase _ _ Hall).
Qed.

Lemma isValidGroupNumber_sameCase s s' :
  Forall2 sameCaseChar s s' -> isValidGroupNumber s = isValidGroupNumber s'.
Proof.
  intros H. unfold isValidGroupNumber. by rewrite (parseInt10_sameCase s s' H).
Qed.

(** X10.  The validator does not tell capital from small ASCII letters, in
    the fixed words and in the spans alike: two texts that differ only in
    the case of letters get the same [isValid], the same message and the
    same errors, and their extracted fields differ only in the case of
    letters. *)
Theorem validateTranscription_case_insensitive (text text' : jsstring) :
  sameIgnoringCase text text' ->
  isValid (validateTranscription text) = isValid (validateTranscription text')
  /\ message (validateTranscription text)
     = message (validateTranscription text')
  /\ errors (validateTranscription text) = errors (validateTranscription text')
  /\ option_Forall2 sameCaseFields
       (extractedData (validateTranscription text))
       (extractedData (validateTranscription text')).
Proof.
  intros H. apply sameIgnoringCase_Forall2, trim_sameCase in H.
  unfold validateTranscription.
  destruct H as [|x y s s' Hxy Hs]; [repeat split; constructor|].
  assert (Hall : Forall2 sameCaseChar (x :: s) (y :: s')) by (by constructor).
  destruct (exec_REQUIRED_PATTERN_sameCase _ _ Hall) as [caps caps' Hc|];
    [|repeat split; constructor].
  destruct Hc as [|m1 n1 ? ? H1 Hc]; [repeat split; constructor|].
  destruct Hc as [|m2 n2 ? ? H2 Hc]; [repeat split; constructor|].
  destruct Hc as [|m3 n3 ? ? H3 Hc]; [repeat split; constructor|].
  destruct Hc as [|m4 n4 ? ? H4 Hc]; [repeat split; constructor|].
  destruct Hc; [|repeat split; constructor].
  apply trim_sameCase in H1, H2, H3, H4.
  assert (He : validateExtractedData
                 (mkVoiceMessage (trim m1) (trim m2) (trim m3) (trim m4))
               = validateExtractedData
                   (mkVoiceMessage (trim n1) (trim n2) (trim n3) (trim n4))).
  { rewrite !validateExtractedData_eq. simpl.
    by rewrite (isValidName_sameCase _ _ H1), (isValidName_sameCase _ _ H3),
      (isValidGroupNumber_sameCase _ _ H2), (isValidLocation_sameCase _ _ H4). }
  cbv zeta. rewrite He.
  assert (Hf : sameCaseFields
                 (mkVoiceMessage (trim m1) (trim m2) (trim m3) (trim m4))
                 (mkVoiceMessage (trim n1) (trim n2) (trim n3) (trim n4))).
  { unfold sameCaseFields. simpl. by rewrite !sameIgnoringCase_Forall2. }
  destruct (0 <? length _)%nat; simpl; repeat split; by constructor.
Qed.

Lemma validateTranscription_case_insensitive_witness :
  sameIgnoringCase example_valid example_valid_capitals
  /\ isValid (validateTranscription example_valid_capitals) = true
  /\ message (validateTranscription example_valid)
     = message (validateTranscription example_valid_capitals).
Proof.
  split; [reflexivity|].
  destruct (validateTranscription_case_insensitive example_valid
              example_valid_capitals eq_refl) as (H1 & H2 & _).
  split; [by rewrite <- H1|exact H2].
Defined.

End CaseFacts.

(* ===================================================================== *)
(** * The optional final period *)
(* ===================================================================== *)

Module PeriodFacts.
Import JS RegExp Validation Template.
Import RegExpFacts TemplateFacts ValidationFacts ValidatorFacts.

Local Open Scope N_scope.

Lemma last_cons_cons {A} (x y : A) l : last (x :: y :: l) = last (y :: l).
Proof. reflexivity. Qed.

Lemma nonblank_not_space c :
  isStrWhiteSpaceChar c = false -> charMatches true c 0x20 = false.
Proof.
  intros H. apply not_true_is_false. rewrite charMatches_ignoreCase.
  intros Hc.
  assert (c = 0x20).
  { revert Hc. unfold toLowerAscii, isUpper.
    destruct (0x41 <=? c) eqn:E1, (c <=? 0x5A) eqn:E2; simpl;
      rewrite ?N.leb_le, ?N.leb_gt in *; lia. }
  subst. discriminate H.
Qed.

(** The end of the pattern, [\.?$], on a text and on the text with a period
    added. *)
Lemma matchAt_end_period i s c :
  last s = Some c -> c <> 0x2E ->
  matchAt true [Opt 0x2E; AssertEnd] i (s ++ [0x2E])
  = matchAt true [Opt 0x2E; AssertEnd] i s.
Proof.
  intros Hl Hc. destruct s as [|x s]; [discriminate|].
  simpl. destruct (charMatches true x 0x2E) eqn:Hx.
  - destruct s as [|y s]; simpl; [|done].
    apply charMatches_period in Hx. simpl in Hl. congruence.
  - done.
Qed.

Lemma lazyPlus_period (k : Continuation) :
  (forall i s c, last s = Some c -> isStrWhiteSpaceChar c = false ->
                 c <> 0x2E -> k i (s ++ [0x2E]) = k i s) ->
  (forall i j, k i [0x2E] = k j []) ->
  forall s c i acc,
    last s = Some c -> isStrWhiteSpaceChar c = false -> c <> 0x2E ->
    lazyPlus dot k i (s ++ [0x2E]) acc = lazyPlus dot k i s acc.
Proof.
  intros H1 H2 s c. induction s as [|x s IH]; intros i acc Hl Hb Hc;
    [discriminate|].
  simpl. destruct (dot x); [|done].
  destruct s as [|y s].
  - simpl. rewrite (H2 (S i) (S i)).
    destruct (k (S i) []) eqn:E; [done|].
    assert (E2 : k (S (S i)) [] = None)
      by (rewrite <- (H2 (S i) (S (S i))), (H2 (S i) (S i)); exact E).
    unfold jsstring, char in *. by rewrite E2.
  - rewrite last_cons_cons in Hl.
    rewrite (H1 (S i) (y :: s) c Hl Hb Hc).
    destruct (k (S i) (y :: s)); [done|].
    by apply IH.
Qed.

Lemma lits_period (l : jsstring) (ts : list term) :
  l <> [] -> last l = Some 0x20 ->
  Forall (fun a => charMatches true 0x2E a = false) l ->
  (forall i s c, last s = Some c -> isStrWhiteSpaceChar c = false ->
                 c <> 0x2E ->
                 matchAt true ts i (s ++ [0x2E]) = matchAt true ts i s) ->
  (forall i s c, last s = Some c -> isStrWhiteSpaceChar c = false ->
                 c <> 0x2E ->
                 matchAt true (lits l ++ ts) i (s ++ [0x2E])
                 = matchAt true (lits l ++ ts) i s)
  /\ (forall i j, matchAt true (lits l ++ ts) i [0x2E]
                  = matchAt true (lits l ++ ts) j []).
Proof.
  intros Hne Hlast Hdot Hts.
  induction l as [|a l IH]; [done|].
  apply Forall_cons in Hdot as [Ha Hdot].
  destruct l as [|b l].
  - simpl in Hlast. injection Hlast as ->. split.
    + intros i s c Hl Hb Hc. destruct s as [|x s]; [discriminate|].
      simpl. destruct s as [|y s].
      * simpl in Hl. injection Hl as ->.
        by rewrite (nonblank_not_space c Hb).
      * rewrite last_cons_cons in Hl.
        destruct (charMatches true x 32); [|done].
        by apply (Hts (S i) (y :: s) c).
    + intros i j. simpl. by rewrite ?Ha.
  - destruct (IH ltac:(discriminate) Hlast Hdot) as [IH1 IH2]. split.
    + intros i s c Hl Hb Hc. destruct s as [|x s]; [discriminate|].
      change (lits (a :: b :: l) ++ ts) with (Lit a :: (lits (b :: l) ++ ts)).
      cbn [matchAt app]. destruct (charMatches true x a); [|done].
      destruct s as [|y s].
      * apply IH2.
      * rewrite last_cons_cons in Hl. by apply (IH1 (S i) (y :: s) c).
    + intros i j.
      change (lits (a :: b :: l) ++ ts) with (Lit a :: (lits (b :: l) ++ ts)).
      cbn [matchAt]. by rewrite Ha.
Qed.

Lemma group_period (l : jsstring) (ts : list term) :
  l <> [] -> last l = Some 0x20 ->
  Forall (fun a => charMatches true 0x2E a = false) l ->
  (forall i s c, last s = Some c -> isStrWhiteSpaceChar c = false ->
                 c <> 0x2E ->
                 matchAt true ts i (s ++ [0x2E]) = matchAt true ts i s) ->
  (forall i j, matchAt true ts i [0x2E] = matchAt true ts j []) ->
  (forall i s c, last s = Some c -> isStrWhiteSpaceChar c = false ->
                 c <> 0x2E ->
                 matchAt true (lits l ++ LazyGroup dot :: ts) i (s ++ [0x2E])
                 = matchAt true (lits l ++ LazyGroup dot :: ts) i s)
  /\ (forall i j, matchAt true (lits l ++ LazyGroup dot :: ts) i [0x2E]
                  = matchAt true (lits l ++ LazyGroup dot :: ts) j []).
Proof.
  intros Hne Hlast Hdot H1 H2. apply lits_period; auto.
  intros i s c Hl Hb Hc. cbn [matchAt].
  by apply (lazyPlus_period (matchAt true ts) H1 H2 s c).
Qed.

Lemma exec_REQUIRED_PATTERN_period s c :
  last s = Some c -> isStrWhiteSpaceChar c = false -> c <> 0x2E ->
  exec REQUIRED_PATTERN (s ++ [0x2E]) = exec REQUIRED_PATTERN s.
Proof.
  intros Hl Hb Hc. unfold REQUIRED_PATTERN. rewrite !exec_anchored.
  assert (H4 : forall i s c, last s = Some c -> isStrWhiteSpaceChar c = false ->
                 c <> 0x2E ->
                 matchAt true [Opt 0x2E; AssertEnd] i (s ++ [0x2E])
                 = matchAt true [Opt 0x2E; AssertEnd] i s)
    by (intros; by eapply matchAt_end_period).
  assert (H4' : forall i j : nat,
            matchAt true [Opt 0x2E; AssertEnd] i [0x2E]
            = matchAt true [Opt 0x2E; AssertEnd] j []) by done.
  destruct (group_period lit_at [Opt 0x2E; AssertEnd]
              ltac:(discriminate) eq_refl ltac:(repeat constructor) H4 H4')
    as [H3 H3'].
  destruct (group_period lit_and_today_i_met _
              ltac:(discriminate) eq_refl ltac:(repeat constructor) H3 H3')
    as [H2 H2'].
  destruct (group_period lit_and_i_belong_to_group _
              ltac:(discriminate) eq_refl ltac:(repeat constructor) H2 H2')
    as [H1 H1'].
  destruct (group_period lit_my_name_is _
              ltac:(discriminate) eq_refl ltac:(repeat constructor) H1 H1')
    as [H0 _].
  by apply (H0 0%nat s c).
Qed.

Lemma trim_last_nonblank s c :
  last (trim s) = Some c -> isStrWhiteSpaceChar c = false.
Proof.
  intros Hl. destruct (trim_trimmed s) as [_ H2].
  apply last_Some in Hl as [l' Hl]. rewrite Hl, rev_app_distr in H2.
  exact (trimStart_head _ _ _ H2).
Qed.

Lemma trim_snoc_period s c :
  last (trim s) = Some c -> trim (trim s ++ [0x2E]) = trim s ++ [0x2E].
Proof.
  intros Hl. destruct (trim_trimmed s) as [H1 H2].
  assert (Hne : trim s <> []) by (intros E; rewrite E in Hl; discriminate).
  unfold trim at 1. rewrite trimStart_app_nonblank by (by rewrite H1).
  rewrite H1. unfold trimEnd. rewrite rev_app_distr. simpl.
  by rewrite rev_involutive.
Qed.

(** X11.  One final period is optional: when the trimmed text does not end
    with a period, the text with a period added gets the very same result,
    with the same extracted fields. *)
Theorem validateTranscription_final_period (text : jsstring) (c : char) :
  last (trim text) = Some c -> c <> 0x2E ->
  validateTranscription (trim text ++ [0x2E]) = validateTranscription text.
Proof.
  intros Hl Hc. pose proof (trim_last_nonblank _ _ Hl) as Hb.
  unfold validateTranscription. rewrite (trim_snoc_period _ _ Hl).
  rewrite (exec_REQUIRED_PATTERN_period _ _ Hl Hb Hc).
  destruct (trim text) as [|x r]; [discriminate|]. reflexivity.
Qed.

Lemma validateTranscription_final_period_witness :
  last (trim (ofAscii " My name is Ann Lee and I belong to group 7 and today I met Bo at the gym "))
  = Some 0x6D
  /\ 0x6D <> 0x2E
  /\ validateTranscription
       (ofAscii "My name is Ann Lee and I belong to group 7 and today I met Bo at the gym.")
     = validateTranscription
         (ofAscii " My name is Ann Lee and I belong to group 7 and today I met Bo at the gym ").
Proof.
  split; [reflexivity|]. split; [discriminate|].
  apply (validateTranscription_final_period
           (ofAscii " My name is Ann Lee and I belong to group 7 and today I met Bo at the gym ")
           0x6D); [reflexivity|discriminate].
Defined.

End PeriodFacts.

(* ===================================================================== *)
(** * Where the spans end *)
(* ===================================================================== *)

Module SplitFacts.
Import JS RegExp Validation Template CaseRelation.
Import RegExpFacts TemplateFacts ValidationFacts ValidatorFacts CaseFacts.

Local Open Scope N_scope.

Abbreviation matchesLit :=
  (Forall2 (fun x c : char => charMatches true x c = true)).

Lemma matchAt_lits_Some ic l ts : forall i s r,
  matchAt ic (lits l ++ ts) i s = Some r ->
  exists l' s',
    s = l' ++ s'
    /\ Forall2 (fun x c => charMatches ic x c = true) l' l
    /\ matchAt ic ts (i + length l')%nat s' = Some r.
Proof.
  induction l as [|c l IH]; simpl; intros i s r H.
  - exists [], s. rewrite Nat.add_0_r. repeat split; auto.
  - destruct s as [|x s]; [discriminate|].
    destruct (charMatches ic x c) eqn:Hc; [|discriminate].
    apply IH in H as (l' & s' & -> & HF & H).
    exists (x :: l'), s'. simpl. rewrite <- Nat.add_succ_comm.
    repeat split; auto.
Qed.

Lemma matchAt_lits_app ic l ts l' :
  Forall2 (fun x c => charMatches ic x c = true) l' l ->
  forall i s',
    matchAt ic (lits l ++ ts) i (l' ++ s')
    = matchAt ic ts (i + length l')%nat s'.
Proof.
  induction 1 as [|x c l' l Hc _ IH]; intros i s'; simpl.
  - by rewrite Nat.add_0_r.
  - rewrite Hc, IH. f_equal. lia.
Qed.

(** The lazy group stops at the first length for which the rest of the
    pattern matches. *)
Lemma lazyPlus_first cs (k : Continuation) : forall s i acc r,
  lazyPlus cs k i s acc = Some r ->
  exists w s' r',
    s = w ++ s' /\ w <> [] /\ forallb cs w = true
    /\ r = (rev acc ++ w) :: r'
    /\ k (i + length w)%nat s' = Some r'
    /\ (forall w2 s2, s = w2 ++ s2 -> w2 <> [] ->
          (length w2 < length w)%nat ->
          k (i + length w2)%nat s2 = None).
Proof.
  induction s as [|x s IH]; intros i acc r H; simpl in H; [discriminate|].
  destruct (cs x) eqn:Hx; [|discriminate].
  destruct (k (S i) s) as [r0|] eqn:Hk.
  - injection H as <-. exists [x], s, r0. simpl.
    rewrite Hx, Nat.add_1_r. split_and!; auto; try discriminate.
    intros w2 s2 _ Hne Hlt. destruct w2; [done|simpl in Hlt; lia].
  - apply IH in H as (w & s' & r' & -> & Hne & Hall & -> & Hk' & Hmin).
    exists (x :: w), s', r'. simpl. rewrite Hx, Hall.
    rewrite <- Nat.add_succ_comm, <- app_assoc. simpl.
    split_and!; auto; try discriminate.
    intros w2 s2 Heq Hne2 Hlt. destruct w2 as [|y w2]; [done|].
    simpl in Heq. injection Heq as <- Heq.
    destruct w2 as [|z w2].
    + simpl in Heq. subst s2. by rewrite Nat.add_1_r.
    + replace (i + length (x :: z :: w2))%nat
        with (S i + length (z :: w2))%nat by (simpl; lia).
      apply Hmin; [done|discriminate|simpl in *; lia].
Qed.

(** One stage of the pattern: fixed words, then a span. *)
Lemma group_split l T i s r :
  matchAt true (lits l ++ LazyGroup dot :: T) i s = Some r ->
  exists K W rest rs,
    s = K ++ W ++ rest /\ r = W :: rs
    /\ matchesLit K l /\ W <> [] /\ forallb dot W = true
    /\ matchAt true T (i + length K + length W)%nat rest = Some rs
    /\ (forall W2 rest2, W ++ rest = W2 ++ rest2 -> W2 <> [] ->
          (length W2 < length W)%nat ->
          matchAt true T (i + length K + length W2)%nat rest2 = None).
Proof.
  intros H. apply matchAt_lits_Some in H as (K & s' & -> & HK & H).
  cbn [matchAt] in H.
  apply lazyPlus_first in H as (W & rest & rs & -> & HW & Hall & -> & Hk & Hmin).
  exists K, W, rest, rs. split_and!; auto.
Qed.

Lemma group_reads l T K W rest :
  matchesLit K l -> W <> [] -> forallb dot W = true ->
  (forall j, is_Some (matchAt true T j rest)) ->
  forall j, is_Some (matchAt true (lits l ++ LazyGroup dot :: T) j
                       (K ++ W ++ rest)).
Proof.
  intros HK HW Hall HT j. rewrite (matchAt_lits_app _ _ _ _ HK).
  cbn [matchAt]. by apply lazyPlus_complete.
Qed.

Lemma end_reads tail :
  tail = [] \/ tail = [0x2E] ->
  forall j, is_Some (matchAt true [Opt 0x2E; AssertEnd] j tail).
Proof. intros [-> | ->] j; simpl; eauto. Qed.

(** Two ways of cutting one text after fixed words of the same length. *)
Lemma same_cut {A} (K K' W W' r r' : list A) :
  K ++ W ++ r = K' ++ W' ++ r' -> length K = length K' ->
  K = K' /\ W ++ r = W' ++ r'.
Proof. intros H Hl. by apply app_inj_1. Qed.

Lemma stage_shortest l T i s r0 rs K' W' rest' :
  matchAt true (lits l ++ LazyGroup dot :: T) i s = Some (r0 :: rs) ->
  s = K' ++ W' ++ rest' -> matchesLit K' l -> W' <> [] ->
  (forall j, is_Some (matchAt true T j rest')) ->
  (length r0 <= length W')%nat
  /\ (length r0 = length W' ->
      r0 = W' /\ exists j, matchAt true T j rest' = Some rs).
Proof.
  intros H Hs HK' HW' HT.
  apply group_split in H
    as (K & W & rest & rs0 & Hs0 & [= <- <-] & HK & HW & _ & Hk & Hmin).
  rewrite Hs0 in Hs.
  apply same_cut in Hs as [-> Hs];
    [|by rewrite (Forall2_length _ _ _ HK), (Forall2_length _ _ _ HK')].
  assert (Hle : (length r0 <= length W')%nat).
  { destruct (le_lt_dec (length r0) (length W')) as [|Hlt]; [done|].
    pose proof (Hmin W' rest' Hs HW' Hlt) as Hn.
    destruct (HT (i + length K' + length W')%nat) as [x Hx]. congruence. }
  split; [exact Hle|]. intros Heq.
  apply app_inj_1 in Hs as [-> ->]; [|done]. eauto.
Qed.

Lemma reading_lits k1 k2 k3 k4 :
  sameIgnoringCase k1 text_My_name_is ->
  sameIgnoringCase k2 text_and_I_belong_to_group ->
  sameIgnoringCase k3 text_and_today_I_met ->
  sameIgnoringCase k4 text_at ->
  matchesLit k1 lit_my_name_is /\ matchesLit k2 lit_and_i_belong_to_group
  /\ matchesLit k3 lit_and_today_i_met /\ matchesLit k4 lit_at.
Proof.
  intros F1 F2 F3 F4. split_and!;
    apply Forall2_charMatches_sameIgnoringCase.
  - eapply sameIgnoringCase_trans; [exact F1|]. apply lower_text_My_name_is.
  - eapply sameIgnoringCase_trans; [exact F2|].
    apply lower_text_and_I_belong_to_group.
  - eapply sameIgnoringCase_trans; [exact F3|].
    apply lower_text_and_today_I_met.
  - exact F4.
Qed.

(** The captures are the shortest spans, from left to right, for which the
    text can be read along the template. *)
Lemma exec_REQUIRED_PATTERN_shortest s A B C D A' B' C' D' :
  exec REQUIRED_PATTERN s = Some [A; B; C; D] ->
  readsAs s A' B' C' D' ->
  (length A <= length A')%nat
  /\ (length A = length A' ->
      A = A' /\ (length B <= length B')%nat
      /\ (length B = length B' ->
          B = B' /\ (length C <= length C')%nat
          /\ (length C = length C' ->
              C = C' /\ (length D <= length D')%nat))).
Proof.
  unfold REQUIRED_PATTERN. rewrite exec_anchored.
  intros H (k1 & k2 & k3 & k4 & tail & Hs & F1 & F2 & F3 & F4
            & [NA FA] & [NB FB] & [NC FC] & [ND FD] & Htail).
  destruct (reading_lits _ _ _ _ F1 F2 F3 F4) as (L1 & L2 & L3 & L4).
  pose proof (end_reads tail Htail) as R4.
  pose proof (group_reads _ _ _ _ _ L4 ND FD R4) as R3.
  pose proof (group_reads _ _ _ _ _ L3 NC FC R3) as R2.
  pose proof (group_reads _ _ _ _ _ L2 NB FB R2) as R1.
  destruct (stage_shortest _ _ _ _ _ _ _ _ _ H Hs L1 NA R1) as [HA HA'].
  split; [exact HA|]. intros EA.
  destruct (HA' EA) as (-> & j1 & H1). split; [done|].
  destruct (stage_shortest _ _ _ _ _ _ _ _ _ H1 eq_refl L2 NB R2) as [HB HB'].
  split; [exact HB|]. intros EB.
  destruct (HB' EB) as (-> & j2 & H2). split; [done|].
  destruct (stage_shortest _ _ _ _ _ _ _ _ _ H2 eq_refl L3 NC R3) as [HC HC'].
  split; [exact HC|]. intros EC.
  destruct (HC' EC) as (-> & j3 & H3). split; [done|].
  by destruct (stage_shortest _ _ _ _ _ _ _ _ _ H3 eq_refl L4 ND R4) as [HD _].
Qed.

Lemma trimStart_suffix s : exists pre, s = pre ++ trimStart s.
Proof.
  induction s as [|c s [pre IH]]; simpl; [by exists []|].
  destruct (isStrWhiteSpaceChar c); [|by exists []].
  exists (c :: pre). simpl. by rewrite <- IH.
Qed.

Lemma trim_infix s : exists pre post, s = pre ++ trim s ++ post.
Proof.
  unfold trim, trimEnd.
  destruct (trimStart_suffix s) as [pre Hpre].
  destruct (trimStart_suffix (rev (trimStart s))) as [post Hpost].
  exists pre, (rev post).
  rewrite <- rev_app_distr, <- Hpost, rev_involutive. exact Hpre.
Qed.

Lemma sameIgnoringCase_dot k text :
  sameIgnoringCase k text -> forallb dot text = true ->
  length k = length text /\ forallb dot k = true.
Proof.
  intros H%sameIgnoringCase_Forall2 Ht. split.
  - exact (Forall2_length _ _ _ H).
  - by rewrite (forallb_sameCase dot _ _ caseInvariant_dot H).
Qed.

Lemma extracted_captures text fields :
  extractedData (validateTranscription text) = Some fields ->
  exists A B C D,
    exec REQUIRED_PATTERN (trim text) = Some [A; B; C; D]
    /\ fields = mkVoiceMessage (trim A) (trim B) (trim C) (trim D).
Proof.
  intros He.
  destruct (exec REQUIRED_PATTERN (trim text)) as [caps|] eqn:E.
  - destruct (exec_REQUIRED_PATTERN_sound _ _ E)
      as (k1 & A & k2 & B & k3 & C & k4 & D & tail & -> & _).
    rewrite (validateTranscription_match _ _ _ _ _ E) in He. cbv zeta in He.
    exists A, B, C, D. split; [done|].
    destruct (0 <? length _)%nat; simpl in He; congruence.
  - assert (Hs : is_Some (exec REQUIRED_PATTERN (trim text)))
      by (apply validateTranscription_extracted; rewrite He; eauto).
    rewrite E in Hs. by destruct Hs.
Qed.

Lemma span_app_connective q k W :
  forallb dot q = true -> forallb dot k = true -> (0 < length k)%nat ->
  span W -> span (q ++ k ++ W).
Proof.
  intros Hq Hk Hl [_ HW]. split.
  - intros Hnil%(f_equal length). rewrite !length_app in Hnil.
    simpl in Hnil. lia.
  - by rewrite !forallb_app, Hq, Hk, HW.
Qed.

Lemma span_prefix (p r : jsstring) :
  p <> [] -> forallb dot (p ++ r) = true -> span p /\ forallb dot r = true.
Proof.
  intros Hp H. rewrite forallb_app in H.
  apply andb_true_iff in H as [H1 H2]. by repeat split.
Qed.

(** A capture holds the connective that follows it in the template at its
    very start only, if at all. *)
Lemma captures_no_connective s A B C D :
  exec REQUIRED_PATTERN s = Some [A; B; C; D] ->
  (forall p k q, A = p ++ k ++ q ->
     sameIgnoringCase k text_and_I_belong_to_group -> p = [])
  /\ (forall p k q, B = p ++ k ++ q ->
        sameIgnoringCase k text_and_today_I_met -> p = [])
  /\ (forall p k q, C = p ++ k ++ q ->
        sameIgnoringCase k text_at -> p = []).
Proof.
  intros E.
  destruct (exec_REQUIRED_PATTERN_sound _ _ E)
    as (k1 & A0 & k2 & B0 & k3 & C0 & k4 & D0 & tail & [= <- <- <- <-] & Hs
        & F1 & F2 & F3 & F4 & [NA FA] & [NB FB] & [NC FC] & [ND FD] & Htail).
  destruct (sameIgnoringCase_dot _ _ F2 eq_refl) as [L2 D2].
  destruct (sameIgnoringCase_dot _ _ F3 eq_refl) as [L3 D3].
  destruct (sameIgnoringCase_dot _ _ F4 eq_refl) as [L4 D4].
  split_and!; intros p k q -> Hk;
    destruct (sameIgnoringCase_dot _ _ Hk eq_refl) as [Lk Dk];
    (destruct (decide (p = [])) as [|Hp]; [done|exfalso]).
  - destruct (span_prefix _ _ Hp FA) as [Sp [_ Fq]%span_prefix];
      [|intros ->; discriminate].
    assert (R : readsAs s p (q ++ k2 ++ B) C D).
    { exists k1, k, k3, k4, tail. split_and!; try done.
      - rewrite Hs. by rewrite <- !app_assoc.
      - apply span_app_connective; try done. rewrite L2. simpl. lia. }
    destruct (exec_REQUIRED_PATTERN_shortest _ _ _ _ _ _ _ _ _ E R) as [H _].
    rewrite !length_app, Lk in H. simpl in H. lia.
  - destruct (span_prefix _ _ Hp FB) as [Sp [_ Fq]%span_prefix];
      [|intros ->; discriminate].
    assert (R : readsAs s A p (q ++ k3 ++ C) D).
    { exists k1, k2, k, k4, tail. split_and!; try done.
      - rewrite Hs. by rewrite <- !app_assoc.
      - apply span_app_connective; try done. rewrite L3. simpl. lia. }
    destruct (exec_REQUIRED_PATTERN_shortest _ _ _ _ _ _ _ _ _ E R)
      as (_ & H).
    destruct (H eq_refl) as (_ & H' & _).
    rewrite !length_app, Lk in H'. simpl in H'. lia.
  - destruct (span_prefix _ _ Hp FC) as [Sp [_ Fq]%span_prefix];
      [|intros ->; discriminate].
    assert (R : readsAs s A B p (q ++ k4 ++ D)).
    { exists k1, k2, k3, k, tail. split_and!; try done.
      - rewrite Hs. by rewrite <- !app_assoc.
      - apply span_app_connective; try done. rewrite L4. simpl. lia. }
    destruct (exec_REQUIRED_PATTERN_shortest _ _ _ _ _ _ _ _ _ E R)
      as (_ & H).
    destruct (H eq_refl) as (_ & _ & H').
    destruct (H' eq_refl) as (_ & H'' & _).
    rewrite !length_app, Lk in H''. simpl in H''. lia.
Qed.

(** X12.  When data is extracted, the four fields are the trimmed spans of
    the reading of the trimmed text along the template that is the shortest
    from left to right: among all readings its first span is the shortest,
    among those with that first span its second span is the shortest, and so
    on. *)
Theorem validateTranscription_shortest_reading
    (text : jsstring) (fields : VoiceMessage) (A' B' C' D' : jsstring) :
  extractedData (validateTranscription text) = Some fields ->
  readsAs (trim text) A' B' C' D' ->
  exists A B C D,
    readsAs (trim text) A B C D
    /\ fields = mkVoiceMessage (trim A) (trim B) (trim C) (trim D)
    /\ (length A <= length A')%nat
    /\ (length A = length A' ->
        A = A' /\ (length B <= length B')%nat
        /\ (length B = length B' ->
            B = B' /\ (length C <= length C')%nat
            /\ (length C = length C' ->
                C = C' /\ (length D <= length D')%nat))).
Proof.
  intros He R.
  destruct (extracted_captures _ _ He) as (A & B & C & D & E & ->).
  exists A, B, C, D. split_and!; auto.
  - destruct (exec_REQUIRED_PATTERN_sound _ _ E)
      as (k1 & A0 & k2 & B0 & k3 & C0 & k4 & D0 & tail & [= <- <- <- <-] & H).
    by exists k1, k2, k3, k4, tail.
  - by destruct (exec_REQUIRED_PATTERN_shortest _ _ _ _ _ _ _ _ _ E R).
  - by destruct (exec_REQUIRED_PATTERN_shortest _ _ _ _ _ _ _ _ _ E R).
Qed.

(** X13.  An extracted field never holds the connective that follows it in
    the template, except possibly at its very start: the speaker's name holds
    no further [ and I belong to group ], the group number no further
    [ and today I met ], the person met no further [ at ], in any case of
    letters. *)
Theorem validateTranscription_fields_stop_at_connective
    (text : jsstring) (fields : VoiceMessage) :
  extractedData (validateTranscription text) = Some fields ->
  (forall p k q, Validation.speakerName fields = p ++ k ++ q ->
     sameIgnoringCase k text_and_I_belong_to_group -> p = [])
  /\ (forall p k q, Validation.groupNumber fields = p ++ k ++ q ->
        sameIgnoringCase k text_and_today_I_met -> p = [])
  /\ (forall p k q, Validation.personMet fields = p ++ k ++ q ->
        sameIgnoringCase k text_at -> p = []).
Proof.
  intros He.
  destruct (extracted_captures _ _ He) as (A & B & C & D & E & ->).
  destruct (captures_no_connective _ _ _ _ _ E) as (HA & HB & HC).
  simpl. split_and!; intros p k q Hf Hk.
  - destruct (trim_infix A) as (pre & post & HA').
    rewrite Hf, <- !app_assoc, app_assoc in HA'.
    pose proof (HA _ _ _ HA' Hk) as Hp. by destruct pre, p.
  - destruct (trim_infix B) as (pre & post & HB').
    rewrite Hf, <- !app_assoc, app_assoc in HB'.
    pose proof (HB _ _ _ HB' Hk) as Hp. by destruct pre, p.
  - destruct (trim_infix C) as (pre & post & HC').
    rewrite Hf, <- !app_assoc, app_assoc in HC'.
    pose proof (HC _ _ _ HC' Hk) as Hp. by destruct pre, p.
Qed.

Lemma validateTranscription_shortest_reading_witness :
  extractedData (validateTranscription example_two_readings)
  = Some (mkVoiceMessage (ofAscii "Ann") (ofAscii "7") (ofAscii "Bob")
            (ofAscii "home at noon"))
  /\ readsAs (trim example_two_readings)
       (ofAscii "Ann") (ofAscii "7") (ofAscii "Bob at home") (ofAscii "noon")
  /\ exists A B C D,
       readsAs (trim example_two_readings) A B C D
       /\ mkVoiceMessage (ofAscii "Ann") (ofAscii "7") (ofAscii "Bob")
            (ofAscii "home at noon")
          = mkVoiceMessage (trim A) (trim B) (trim C) (trim D)
       /\ (length A <= length (ofAscii "Ann"))%nat
       /\ (length A = length (ofAscii "Ann") ->
           A = ofAscii "Ann" /\ (length B <= length (ofAscii "7"))%nat
           /\ (length B = length (ofAscii "7") ->
               B = ofAscii "7"
               /\ (length C <= length (ofAscii "Bob at home"))%nat
               /\ (length C = length (ofAscii "Bob at home") ->
                   C = ofAscii "Bob at home"
                   /\ (length D <= length (ofAscii "noon"))%nat))).
Proof.
  assert (H1 : extractedData (validateTranscription example_two_readings)
               = Some (mkVoiceMessage (ofAscii "Ann") (ofAscii "7")
                         (ofAscii "Bob") (ofAscii "home at noon")))
    by reflexivity.
  assert (H2 : readsAs (trim example_two_readings)
                 (ofAscii "Ann") (ofAscii "7") (ofAscii "Bob at home")
                 (ofAscii "noon")).
  { exists text_My_name_is, text_and_I_belong_to_group,
      text_and_today_I_met, text_at, [].
    split_and!; try reflexivity; try (split; [discriminate|reflexivity]).
    by left. }
  exact (conj H1 (conj H2
    (validateTranscription_shortest_reading _ _ _ _ _ _ H1 H2))).
Defined.

Lemma validateTranscription_fields_stop_at_connective_witness :
  extractedData (validateTranscription example_two_readings)
  = Some (mkVoiceMessage (ofAscii "Ann") (ofAscii "7") (ofAscii "Bob")
            (ofAscii "home at noon"))
  /\ (forall p k q, ofAscii "Bob" = p ++ k ++ q ->
        sameIgnoringCase k text_at -> p = []).
Proof.
  split; [reflexivity|].
  apply (validateTranscription_fields_stop_at_connective
           example_two_readings
           (mkVoiceMessage (ofAscii "Ann") (ofAscii "7") (ofAscii "Bob")
              (ofAscii "home at noon"))).
  reflexivity.
Defined.

End SplitFacts.

(* ===================================================================== *)
(** * The validator against the template of the specification *)
(* ===================================================================== *)

Module TemplateSpec.
Import JS RegExp Validation Template CaseRelation.
Import RegExpFacts TemplateFacts ValidationFacts ValidatorFacts CaseFacts.
Import SplitFacts.

Local Open Scope N_scope.

(** A reading with spans on one line is a reading of the template of the
    specification. *)
Lemma readsAs_matchesTemplate s A B C D :
  readsAs s A B C D -> matchesTemplate s.
Proof.
  intros (k1 & k2 & k3 & k4 & tail & Hs & F1 & F2 & F3 & F4
          & [NA _] & [NB _] & [NC _] & [ND _] & Htail).
  exists k1, A, k2, B, k3, C, k4, D, tail. unfold freeText. split_and!; auto.
Qed.

(** In the template of the specification the words on what may follow the
    last span exclude nothing: the spans being free text, whatever follows
    the location, a period or more, can be read as part of it. *)
Lemma matchesTemplate_without_tail s :
  matchesTemplate s
  <-> exists k1 A k2 B k3 C k4 D,
        s = k1 ++ A ++ k2 ++ B ++ k3 ++ C ++ k4 ++ D
        /\ sameIgnoringCase k1 text_My_name_is
        /\ sameIgnoringCase k2 text_and_I_belong_to_group
        /\ sameIgnoringCase k3 text_and_today_I_met
        /\ sameIgnoringCase k4 text_at
        /\ freeText A /\ freeText B /\ freeText C /\ freeText D.
Proof.
  unfold freeText. split.
  - intros (k1 & A & k2 & B & k3 & C & k4 & D & tail & -> & F1 & F2 & F3 & F4
            & NA & NB & NC & ND & _).
    exists k1, A, k2, B, k3, C, k4, (D ++ tail).
    split_and!; auto. by destruct D.
  - intros (k1 & A & k2 & B & k3 & C & k4 & D & -> & F1 & F2 & F3 & F4
            & NA & NB & NC & ND).
    exists k1, A, k2, B, k3, C, k4, D, [].
    rewrite app_nil_r. split_and!; auto.
Qed.

(** The captures of a match are a reading. *)
Lemma exec_REQUIRED_PATTERN_reads s A B C D :
  exec REQUIRED_PATTERN s = Some [A; B; C; D] -> readsAs s A B C D.
Proof.
  intros E.
  destruct (exec_REQUIRED_PATTERN_sound _ _ E)
    as (k1 & A0 & k2 & B0 & k3 & C0 & k4 & D0 & tail & [= <- <- <- <-] & H).
  by exists k1, k2, k3, k4, tail.
Qed.

Lemma exec_REQUIRED_PATTERN_four s caps :
  exec REQUIRED_PATTERN s = Some caps ->
  exists A B C D, caps = [A; B; C; D].
Proof.
  intros E.
  destruct (exec_REQUIRED_PATTERN_sound _ _ E)
    as (k1 & A & k2 & B & k3 & C & k4 & D & tail & -> & _). eauto.
Qed.

(** Blanks are cut from the end of what is appended to a trimmed text, and
    nothing else. *)
Lemma trimStart_app_trimmed a b :
  trimStart b = b -> b <> [] ->
  exists p a', a = p ++ a' /\ trimStart (a ++ b) = a' ++ b.
Proof.
  intros Hb Hne. induction a as [|c a (p & a' & -> & IH)]; simpl.
  - exists [], []. by rewrite Hb.
  - destruct (isStrWhiteSpaceChar c).
    + exists (c :: p), a'. by rewrite IH.
    + by exists [], (c :: p ++ a').
Qed.

Lemma trim_app_trimmed s extra :
  trim s <> [] ->
  exists e q, extra = e ++ q /\ trim (trim s ++ extra) = trim s ++ e.
Proof.
  intros Hne. destruct (trim_trimmed s) as [H1 H2].
  unfold trim at 1, trimEnd.
  rewrite trimStart_app_nonblank by (by rewrite H1).
  rewrite H1, rev_app_distr.
  destruct (trimStart_app_trimmed (rev extra) (rev (trim s)) H2) as
    (p & a' & Hp & ->).
  { intros Hr. apply Hne. by rewrite <- (rev_involutive (trim s)), Hr. }
  exists (rev a'), (rev p).
  rewrite rev_app_distr, rev_involutive. split; [|done].
  by rewrite <- rev_app_distr, <- Hp, rev_involutive.
Qed.

(** One-line text after a reading belongs to its last span. *)
Lemma readsAs_app s A B C D e :
  readsAs s A B C D -> forallb dot e = true ->
  exists D', readsAs (s ++ e) A B C D'.
Proof.
  intros (k1 & k2 & k3 & k4 & tail & -> & F1 & F2 & F3 & F4
          & SA & SB & SC & [ND FD] & Htail) He.
  destruct e as [|x e].
  { exists D, k1, k2, k3, k4, tail. rewrite app_nil_r. split_and!; auto.
    by split. }
  exists (D ++ tail ++ x :: e), k1, k2, k3, k4, [].
  split_and!; auto.
  - by rewrite <- !app_assoc, app_nil_r.
  - split; [by destruct D|]. rewrite !forallb_app, FD, He.
    by destruct Htail as [-> | ->].
Qed.

(** C1, as the specification words it, fails: the valid example with a
    line break inside the name of the speaker matches the template, whose
    spans are free text, and is rejected with the format hint; and the valid
    example followed by more words is valid, the words being taken into the
    location. *)
Lemma validateTranscription_rejects_line_break_in_span :
  trim example_two_lines <> []
  /\ matchesTemplate (trim example_two_lines)
  /\ validateTranscription example_two_lines
     = mkValidationResult false msg_format_hint None None None
  /\ validateTranscription example_trailing_words
     = mkValidationResult true msg_perfect
         (Some (mkVoiceMessage (ofAscii "John Smith") (ofAscii "5")
                  (ofAscii "Sarah Johnson")
                  (ofAscii "the coffee shop. and left")))
         None None.
Proof.
  split; [vm_compute; discriminate|]. split; [|split; reflexivity].
  exists text_My_name_is, (ofAscii "John" ++ [0x0A] ++ ofAscii "Smith"),
    text_and_I_belong_to_group, (ofAscii "5"),
    text_and_today_I_met, (ofAscii "Sarah Johnson"),
    text_at, (ofAscii "the coffee shop"), [0x2E].
  unfold freeText. split_and!; try reflexivity; try discriminate. by right.
Qed.

(** C1, amended.  For a text whose trimmed form is not empty, the validator
    reads the trimmed text along the template from its first to its last
    character, the fixed words in any case of ASCII letters and each of the
    four spans a non-empty text on one line.  When there is no such reading
    the result is [isValid = false], the format hint and no extracted data,
    and the format hint quotes the template sentence.  When there is one,
    the extracted data are the trimmed spans of the reading that is the
    shortest from the left, and the result is valid, with the success
    message, exactly when these fields pass the semantic checks.  Every
    such reading is a reading of the template of the specification, but a
    span with a line break is not read; and text on the same line after the
    location is not refused: it is read as part of the last span. *)
Theorem validateTranscription_accepts_one_line_template (text : jsstring) :
  trim text <> [] ->
  ((forall A B C D, ~ readsAs (trim text) A B C D) ->
   validateTranscription text
   = mkValidationResult false msg_format_hint None None None)
  /\ ((exists A' B' C' D', readsAs (trim text) A' B' C' D') ->
      exists A B C D,
        readsAs (trim text) A B C D
        /\ (forall A' B' C' D', readsAs (trim text) A' B' C' D' ->
              shortestFirst A B C D A' B' C' D')
        /\ extractedData (validateTranscription text)
           = Some (extractedFields A B C D)
        /\ (isValid (validateTranscription text) = true
            <-> validateExtractedData (extractedFields A B C D) = [])
        /\ (isValid (validateTranscription text) = true ->
            validateTranscription text
            = mkValidationResult true msg_perfect
                (Some (extractedFields A B C D)) None None))
  /\ (isValid (validateTranscription text) = true ->
      matchesTemplate (trim text))
  /\ (forall extra,
        is_Some (extractedData (validateTranscription text)) ->
        forallb dot extra = true ->
        is_Some (extractedData (validateTranscription (trim text ++ extra))))
  /\ (exists pre post, msg_format_hint = pre ++ template_text ++ post).
Proof.
  intros Hne. split_and!.
  - intros Hno. apply validateTranscription_no_match; [done|].
    destruct (exec REQUIRED_PATTERN (trim text)) as [caps|] eqn:E; [|done].
    destruct (exec_REQUIRED_PATTERN_four _ _ E) as (A & B & C & D & ->).
    destruct (Hno A B C D). by apply exec_REQUIRED_PATTERN_reads.
  - intros (A' & B' & C' & D' & R').
    destruct (exec_REQUIRED_PATTERN_complete _ _ _ _ _ R') as [caps E].
    destruct (exec_REQUIRED_PATTERN_four _ _ E) as (A & B & C & D & ->).
    exists A, B, C, D. split; [by apply exec_REQUIRED_PATTERN_reads|].
    split; [intros A2 B2 C2 D2 R2;
            exact (exec_REQUIRED_PATTERN_shortest _ _ _ _ _ _ _ _ _ E R2)|].
    rewrite (validateTranscription_match _ _ _ _ _ E). cbv zeta.
    unfold extractedFields.
    destruct (validateExtractedData _) as [|e es]; simpl; split_and!; auto;
      try done.
  - intros Hv.
    assert (Hs : is_Some (exec REQUIRED_PATTERN (trim text))).
    { apply validateTranscription_extracted.
      destruct (exec REQUIRED_PATTERN (trim text)) as [caps|] eqn:E.
      - apply validateTranscription_extracted. eauto.
      - rewrite (validateTranscription_no_match _ Hne E) in Hv.
        discriminate Hv. }
    destruct Hs as [caps E].
    destruct (exec_REQUIRED_PATTERN_four _ _ E) as (A & B & C & D & ->).
    eapply readsAs_matchesTemplate, exec_REQUIRED_PATTERN_reads, E.
  - intros extra [caps E]%validateTranscription_extracted He.
    destruct (exec_REQUIRED_PATTERN_four _ _ E) as (A & B & C & D & ->).
    apply exec_REQUIRED_PATTERN_reads in E.
    destruct (trim_app_trimmed text extra Hne) as (e & q & -> & Ht).
    rewrite forallb_app in He. apply andb_true_iff in He as [He _].
    destruct (readsAs_app _ _ _ _ _ _ E He) as (D' & R).
    apply validateTranscription_extracted. rewrite Ht.
    by eapply exec_REQUIRED_PATTERN_complete.
  - exists (0x274C :: ofAscii " Please follow the exact format: " ++ [0x22]),
      [0x22]. reflexivity.
Qed.

Lemma validateTranscription_accepts_one_line_template_witness :
  (trim example_valid <> []
   /\ readsAs (trim example_valid) (ofAscii "John Smith") (ofAscii "5")
        (ofAscii "Sarah Johnson") (ofAscii "the coffee shop")
   /\ isValid (validateTranscription example_valid) = true)
  /\ (trim example_no_match <> []
      /\ (forall A B C D, ~ readsAs (trim example_no_match) A B C D)
      /\ validateTranscription example_no_match
         = mkValidationResult false msg_format_hint None None None).
Proof.
  assert (Hne : trim example_valid <> []) by (vm_compute; discriminate).
  assert (R : readsAs (trim example_valid) (ofAscii "John Smith")
                (ofAscii "5") (ofAscii "Sarah Johnson")
                (ofAscii "the coffee shop")).
  { exists text_My_name_is, text_and_I_belong_to_group,
      text_and_today_I_met, text_at, [0x2E].
    split_and!; try reflexivity; try (split; [discriminate|reflexivity]).
    by right. }
  assert (Hne' : trim example_no_match <> []) by (vm_compute; discriminate).
  assert (Hno : forall A B C D, ~ readsAs (trim example_no_match) A B C D).
  { intros A B C D [caps E]%exec_REQUIRED_PATTERN_complete.
    vm_compute in E. discriminate E. }
  split.
  - split; [exact Hne|]. split; [exact R|].
    destruct (validateTranscription_accepts_one_line_template example_valid
                Hne) as (_ & H & _).
    destruct H as (A & B & C & D & _ & _ & He & Hv & _); [eauto|].
    assert (E0 : extractedData (validateTranscription example_valid)
                 = Some (mkVoiceMessage (ofAscii "John Smith") (ofAscii "5")
                           (ofAscii "Sarah Johnson")
                           (ofAscii "the coffee shop"))) by reflexivity.
    assert (Hf : extractedFields A B C D
                 = mkVoiceMessage (ofAscii "John Smith") (ofAscii "5")
                     (ofAscii "Sarah Johnson") (ofAscii "the coffee shop"))
      by congruence.
    apply Hv. rewrite Hf. reflexivity.
  - split; [exact Hne'|]. split; [exact Hno|].
    destruct (validateTranscription_accepts_one_line_template
                example_no_match Hne') as (H & _).
    exact (H Hno).
Defined.

End TemplateSpec.

(* ===================================================================== *)
(** * Further properties of the meetings service *)
(* ===================================================================== *)

Module ServiceFacts.
Import JS Validation Template Meetings MeetingsFacts.

Section Service.

Variable validationService : jsstring -> ValidationResult.
Variable newDate : jsstring -> Date.
Variables toISOString formatDisplayDate formatDisplayTime : Date -> jsstring.
Variable numberToString : Z -> jsstring.

Abbreviation createMeetingRecord :=
  (createMeetingRecord validationService newDate toISOString
     formatDisplayDate formatDisplayTime numberToString).
Abbreviation createdRow := (createdRow newDate numberToString).
Abbreviation formatMeetingRecord :=
  (formatMeetingRecord toISOString formatDisplayDate formatDisplayTime).

(** X14.  When the validator accepts the transcription and the storage
    accepts both writes, [createMeetingRecord] stores one row under an
    identifier that was free and leaves every other row as it was; the row
    carries the four fields of the validator, the transcription and the
    duration of the request as they are, and the initial statuses SUBMITTED
    and PENDING; the caller gets that row, formatted; and exactly one
    background task, for that identifier, is queued. *)
Theorem createMeetingRecord_stores_and_returns
    (env : Env) (dto : CreateMeetingRecordDto) (audioFile : option AudioFile)
    (w : World) (extracted : VoiceMessage) :
  wellFormed w ->
  isValid (validationService (fullTranscription dto)) = true ->
  extractedData (validationService (fullTranscription dto)) = Some extracted ->
  createThrows env = false ->
  upsertThrows env = false ->
  exists row w',
    createMeetingRecord env dto audioFile w
    = (Returned (formatMeetingRecord row), w')
    /\ meetingRecords w !! mr_id row = None
    /\ meetingRecords w' = <[mr_id row := row]> (meetingRecords w)
    /\ mr_speakerName row = Validation.speakerName extracted
    /\ mr_groupNumber row = Validation.groupNumber extracted
    /\ mr_personMet row = Validation.personMet extracted
    /\ mr_location row = Validation.location extracted
    /\ mr_fullTranscription row = fullTranscription dto
    /\ mr_recordingDuration row = recordingDuration dto
    /\ mr_status row = SUBMITTED
    /\ mr_processingStatus row = PENDING
    /\ immediates w' = immediates w ++ [mr_id row]
    /\ wellFormed w'.
Proof.
  intros Hwf Hv He Hc Hu.
  exists (createdRow env dto audioFile extracted
            (confidence (validationService (fullTranscription dto))) w).
  eexists. split.
  { rewrite (createMeetingRecord_valid _ _ _ _ _ _ _ _ _ _ _ Hv He).
    cbv zeta. rewrite Hc, Hu. reflexivity. }
  simpl. split_and!; try reflexivity.
  - destruct (meetingRecords w !! nextId w) as [r|] eqn:E; [|done].
    destruct (Hwf _ _ E). lia.
  - intros i r. simpl. intros [[<- <-]|[Hne Hi]]%lookup_insert_Some.
    + simpl. split; [done|lia].
    + destruct (Hwf _ _ Hi). split; [done|lia].
Qed.

(** X15.  Whatever goes wrong, the caller of [createMeetingRecord] only ever
    sees a bad-request exception: the one with the code
    INVALID_MESSAGE_FORMAT when the validator rejects the transcription,
    and otherwise the generic failure, behind which a storage error or a
    missing [extractedData] disappears.  The world is as before unless the
    record was stored and the upsert of the statistics was rejected. *)
Theorem createMeetingRecord_exceptions
    (env : Env) (dto : CreateMeetingRecordDto) (audioFile : option AudioFile)
    (w w' : World) (e : Exception) :
  createMeetingRecord env dto audioFile w = (Thrown e, w') ->
  (isValid (validationService (fullTranscription dto)) = false
   /\ e = BadRequestException
            (ErrorObject code_INVALID_MESSAGE_FORMAT
               (message (validationService (fullTranscription dto)))
               (errors (validationService (fullTranscription dto))))
   /\ w' = w)
  \/ (isValid (validationService (fullTranscription dto)) = true
      /\ e = genericFailure
      /\ (w' = w
          \/ (createThrows env = false /\ upsertThrows env = true
              /\ is_Some (meetingRecords w' !! nextId w)))).
Proof.
  intros H.
  destruct (isValid (validationService (fullTranscription dto))) eqn:Hv.
  - right. split; [done|].
    destruct (extractedData (validationService (fullTranscription dto)))
      as [d|] eqn:He.
    + rewrite (createMeetingRecord_valid _ _ _ _ _ _ _ _ _ _ _ Hv He) in H.
      cbv zeta in H.
      destruct (createThrows env); [injection H as <- <-; auto|].
      destruct (upsertThrows env); [|discriminate].
      injection H as <- <-. split; [done|]. right. split_and!; auto.
      simpl. rewrite lookup_insert_eq. eauto.
    + rewrite (createMeetingRecord_no_data _ _ _ _ _ _ _ _ _ _ Hv He) in H.
      injection H as <- <-. auto.
  - left. rewrite (createMeetingRecord_invalid _ _ _ _ _ _ _ _ _ _ Hv) in H.
    injection H as <- <-. auto.
Qed.

End Service.

(** X16.  The background callback never throws, and it is confined to its
    record: the statistics, the identifier counter, the queue and every
    other record are as before, and its own record changes only when it
    exists, the sink has accepted it and the update was not rejected. *)
Theorem backgroundCallback_contained (env : Env) (i : RecordId) (w : World) :
  fst (backgroundCallback env i w) = Returned tt
  /\ dailyStats (snd (backgroundCallback env i w)) = dailyStats w
  /\ nextId (snd (backgroundCallback env i w)) = nextId w
  /\ immediates (snd (backgroundCallback env i w)) = immediates w
  /\ (forall j, j <> i ->
        meetingRecords (snd (backgroundCallback env i w)) !! j
        = meetingRecords w !! j)
  /\ (snd (backgroundCallback env i w) = w
      \/ exists r,
           meetingRecords w !! i = Some r
           /\ findUniqueThrows env = false
           /\ is_Some (addRecord env r)
           /\ updateThrows env i = false).
Proof.
  unfold backgroundCallback, tryCatch, bind, prisma_meetingRecord_findUnique,
    googleSheetsService_addRecord, prisma_meetingRecord_update, ret, throw.
  destruct (findUniqueThrows env) eqn:Hf; simpl; [split_and!; auto|].
  destruct (meetingRecords w !! i) as [r|] eqn:E; simpl; [|split_and!; auto].
  destruct (addRecord env r) as [rowId|] eqn:Ha; simpl; [|split_and!; auto].
  rewrite E. destruct (updateThrows env i) eqn:Hu; simpl; [split_and!; auto|].
  split_and!; auto.
  - intros j Hj. by rewrite lookup_insert_ne.
  - right. exists r. split_and!; eauto.
Qed.

Lemma syncLoop_returns env records : forall s e w,
  exists s' e' w',
    syncLoop env records s e w = (Returned (s', e'), w')
    /\ s' + e' = s + e + length records.
Proof.
  induction records as [|r rest IH]; intros s e w; simpl.
  - exists s, e, w. split; [done|lia].
  - unfold bind. destruct (syncRecord_returns env r w) as [ok Hok].
    destruct (syncRecord env r w) as [o w1]. simpl in Hok. subst o.
    destruct ok.
    + destruct (IH (S s) e w1) as (s' & e' & w' & -> & Hsum).
      exists s', e', w'. split; [done|lia].
    + destruct (IH s (S e) w1) as (s' & e' & w' & -> & Hsum).
      exists s', e', w'. split; [done|lia].
Qed.

(** X17.  [syncToGoogleSheets] throws exactly when its [findMany] is
    rejected, with the storage error and an untouched world; a failure on a
    record never reaches the caller: in every other case, on any world, it
    returns two counters that add up to the size of the batch. *)
Theorem syncToGoogleSheets_throws_only_on_findMany (env : Env) (w : World) :
  match fst (syncToGoogleSheets env w) with
  | Thrown e =>
      findManyThrows env = true /\ e = StorageError
      /\ snd (syncToGoogleSheets env w) = w
  | Returned (synced, errors) =>
      findManyThrows env = false
      /\ synced + errors = length (unsyncedBatch 100 w)
  end.
Proof.
  unfold syncToGoogleSheets, bind, prisma_meetingRecord_findMany_unsynced.
  destruct (findManyThrows env); simpl; [done|].
  destruct (syncLoop_returns env (unsyncedBatch 100 w) 0 0 w)
    as (s' & e' & w' & -> & Hsum).
  simpl. split; [done|lia].
Qed.

(** A record that is marked is not in any batch. *)
Lemma unsyncedBatch_not_marked n w i r :
  wellFormed w -> meetingRecords w !! i = Some r ->
  mr_syncedToSheets r = true -> i ∉ mr_id <$> unsyncedBatch n w.
Proof.
  intros Hwf Hi Hs Hin.
  apply list_elem_of_fmap in Hin as (r0 & -> & Hr0).
  destruct (unsyncedBatch_lookup _ _ _ Hwf Hr0) as [Hl Hu]. congruence.
Qed.

Lemma syncToGoogleSheets_frame env w i :
  wellFormed w -> i ∉ mr_id <$> unsyncedBatch 100 w ->
  meetingRecords (snd (syncToGoogleSheets env w)) !! i = meetingRecords w !! i.
Proof.
  intros Hwf Hi. destruct (findManyThrows env) eqn:Hf.
  - unfold syncToGoogleSheets, bind, prisma_meetingRecord_findMany_unsynced.
    by rewrite Hf.
  - destruct (syncToGoogleSheets_spec env w Hwf Hf) as (w' & -> & _ & Hb & _).
    by apply Hb.
Qed.

(** X18.  A record that is marked as synchronised is out of reach of the
    batch synchronisation: a pass leaves it exactly as it is, whatever the
    sink and the storage answer.  In particular a record that the
    background callback has marked without a row identifier keeps none. *)
Theorem syncToGoogleSheets_skips_marked
    (env : Env) (w : World) (i : RecordId) (r : MeetingRow) :
  wellFormed w ->
  meetingRecords w !! i = Some r ->
  mr_syncedToSheets r = true ->
  meetingRecords (snd (syncToGoogleSheets env w)) !! i = Some r.
Proof.
  intros Hwf Hi Hs. rewrite syncToGoogleSheets_frame; [done|done|].
  by eapply unsyncedBatch_not_marked.
Qed.

(** X19.  After a pass in which every record of the batch was pushed and
    marked, and whose batch was not full, nothing is left to synchronise:
    the next pass selects no record, returns 0 and 0, and changes nothing. *)
Theorem syncToGoogleSheets_then_nothing_left
    (env env' : Env) (w : World) :
  wellFormed w ->
  findManyThrows env = false ->
  findManyThrows env' = false ->
  length (unsyncedBatch 100 w) < 100 ->
  (forall r, r ∈ unsyncedBatch 100 w -> pushedAndMarked env r = true) ->
  unsyncedBatch 100 (snd (syncToGoogleSheets env w)) = []
  /\ syncToGoogleSheets env' (snd (syncToGoogleSheets env w))
     = (Returned (0, 0), snd (syncToGoogleSheets env w)).
Proof.
  intros Hwf Hf Hf' Hlen Hall.
  pose proof (syncToGoogleSheets_wellFormed env w Hwf) as Hwf'.
  destruct (syncToGoogleSheets_spec env w Hwf Hf) as (w' & E & Ha & Hb & _).
  rewrite E in *. simpl in *.
  assert (Hnil : unsyncedBatch 100 w' = []).
  { destruct (unsyncedBatch 100 w') as [|r' l] eqn:E'; [done|]. exfalso.
    assert (Hr' : r' ∈ unsyncedBatch 100 w') by (rewrite E'; left).
    destruct (unsyncedBatch_lookup _ _ _ Hwf' Hr') as [Hl Hu].
    destruct (decide (mr_id r' ∈ mr_id <$> unsyncedBatch 100 w)) as [Hin|Hout].
    - apply list_elem_of_fmap in Hin as (r0 & Hid & Hr0).
      rewrite Hid, (Ha _ Hr0) in Hl. injection Hl as <-.
      destruct (unsyncedBatch_lookup _ _ _ Hwf Hr0) as [_ Hu0].
      apply (afterSync_marked env) in Hu0. apply Hu0 in Hall; [|done].
      congruence.
    - rewrite (Hb _ Hout) in Hl.
      assert (Hnot : r' ∉ unsyncedBatch 100 w).
      { intros Hin. apply Hout. by apply list_elem_of_fmap_2. }
      pose proof (unsyncedBatch_full 100 w r' _ Hl Hu Hnot). lia. }
  split; [done|].
  unfold syncToGoogleSheets, bind, prisma_meetingRecord_findMany_unsynced.
  by rewrite Hf', Hnil.
Qed.

Import Scenario.

Lemma createMeetingRecord_stores_and_returns_witness :
  wellFormed emptyWorld
  /\ isValid (validateTranscription (fullTranscription dto_valid)) = true
  /\ extractedData (validateTranscription (fullTranscription dto_valid))
     = Some (mkVoiceMessage (ofAscii "John Smith") (ofAscii "5")
               (ofAscii "Sarah Johnson") (ofAscii "the coffee shop"))
  /\ createThrows env_ok = false
  /\ upsertThrows env_ok = false
  /\ exists row w',
       create env_ok dto_valid None emptyWorld
       = (Returned (Meetings.formatMeetingRecord toISOString
                      formatDisplayDate formatDisplayTime row), w')
       /\ meetingRecords w' = <[mr_id row := row]> (meetingRecords emptyWorld)
       /\ mr_speakerName row = ofAscii "John Smith"
       /\ immediates w' = immediates emptyWorld ++ [mr_id row].
Proof.
  split; [exact wellFormed_empty|]. split; [reflexivity|].
  split; [reflexivity|]. split; [reflexivity|]. split; [reflexivity|].
  destruct (createMeetingRecord_stores_and_returns validateTranscription
              newDate toISOString formatDisplayDate formatDisplayTime
              numberToString env_ok dto_valid None emptyWorld
              (mkVoiceMessage (ofAscii "John Smith") (ofAscii "5")
                 (ofAscii "Sarah Johnson") (ofAscii "the coffee shop"))
              wellFormed_empty eq_refl eq_refl eq_refl eq_refl)
    as (row & w' & E & _ & Hm & Hs & _ & _ & _ & _ & _ & _ & _ & Hq & _).
  exists row, w'. split; [exact E|]. split; [exact Hm|].
  split; [exact Hs|exact Hq].
Defined.

Lemma createMeetingRecord_exceptions_witness :
  create env_ok dto_no_match None emptyWorld
  = (Thrown (BadRequestException
               (ErrorObject code_INVALID_MESSAGE_FORMAT
                  (message (validateTranscription example_no_match))
                  (errors (validateTranscription example_no_match)))),
     emptyWorld)
  /\ ((isValid (validateTranscription (fullTranscription dto_no_match)) = false
       /\ BadRequestException
            (ErrorObject code_INVALID_MESSAGE_FORMAT
               (message (validateTranscription example_no_match))
               (errors (validateTranscription example_no_match)))
          = BadRequestException
              (ErrorObject code_INVALID_MESSAGE_FORMAT
                 (message (validateTranscription
                             (fullTranscription dto_no_match)))
                 (errors (validateTranscription
                            (fullTranscription dto_no_match))))
       /\ emptyWorld = emptyWorld)
      \/ (isValid (validateTranscription (fullTranscription dto_no_match))
          = true
          /\ BadRequestException
               (ErrorObject code_INVALID_MESSAGE_FORMAT
                  (message (validateTranscription example_no_match))
                  (errors (validateTranscription example_no_match)))
             = genericFailure
          /\ (emptyWorld = emptyWorld
              \/ (createThrows env_ok = false /\ upsertThrows env_ok = true
                  /\ is_Some (meetingRecords emptyWorld
                                !! nextId emptyWorld))))).
Proof.
  split; [reflexivity|].
  apply (createMeetingRecord_exceptions validateTranscription newDate
           toISOString formatDisplayDate formatDisplayTime numberToString
           env_ok dto_no_match None emptyWorld emptyWorld).
  reflexivity.
Defined.

Lemma syncToGoogleSheets_skips_marked_witness :
  wellFormed (snd (syncToGoogleSheets env_ok world_one))
  /\ meetingRecords (snd (syncToGoogleSheets env_ok world_one)) !! 1%positive
     = Some (afterSync env_ok row_one)
  /\ mr_syncedToSheets (afterSync env_ok row_one) = true
  /\ meetingRecords
       (snd (syncToGoogleSheets env_update_rejected
               (snd (syncToGoogleSheets env_ok world_one)))) !! 1%positive
     = Some (afterSync env_ok row_one).
Proof.
  assert (Hwf : wellFormed world_one).
  { apply createMeetingRecord_wellFormed, wellFormed_empty. }
  assert (Hwf' : wellFormed (snd (syncToGoogleSheets env_ok world_one)))
    by exact (syncToGoogleSheets_wellFormed env_ok world_one Hwf).
  split; [exact Hwf'|]. split; [reflexivity|]. split; [reflexivity|].
  apply (syncToGoogleSheets_skips_marked env_update_rejected
           (snd (syncToGoogleSheets env_ok world_one)) 1%positive
           (afterSync env_ok row_one) Hwf'); reflexivity.
Defined.

Lemma syncToGoogleSheets_then_nothing_left_witness :
  wellFormed world_one
  /\ findManyThrows env_ok = false
  /\ length (unsyncedBatch 100 world_one) < 100
  /\ (forall r, r ∈ unsyncedBatch 100 world_one ->
        pushedAndMarked env_ok r = true)
  /\ unsyncedBatch 100 (snd (syncToGoogleSheets env_ok world_one)) = []
  /\ syncToGoogleSheets env_ok (snd (syncToGoogleSheets env_ok world_one))
     = (Returned (0, 0), snd (syncToGoogleSheets env_ok world_one)).
Proof.
  assert (Hwf : wellFormed world_one).
  { apply createMeetingRecord_wellFormed, wellFormed_empty. }
  assert (Hlen : length (unsyncedBatch 100 world_one) < 100)
    by (vm_compute; lia).
  assert (Hall : forall r, r ∈ unsyncedBatch 100 world_one ->
                   pushedAndMarked env_ok r = true)
    by (intros r _; reflexivity).
  split; [exact Hwf|]. split; [reflexivity|]. split; [exact Hlen|].
  split; [exact Hall|].
  exact (syncToGoogleSheets_then_nothing_left env_ok env_ok world_one
           Hwf eq_refl eq_refl Hlen Hall).
Defined.

End ServiceFacts.

(* ===================================================================== *)
(** * Properties of the queries *)
(* ===================================================================== *)

Module QueriesFacts.
Import JS Meetings Queries.

Section Service.

Variable newDate : jsstring -> Date.
Variables toISOString formatDisplayDate formatDisplayTime : Date -> jsstring.

Abbreviation getMeetings :=
  (getMeetings newDate toISOString formatDisplayDate formatDisplayTime).
Abbreviation formatMeetingRecord_on :=
  (formatMeetingRecord_on toISOString formatDisplayDate formatDisplayTime).

(** Handed to [map] without its receiver, the formatter throws on the first
    element. *)
Lemma arrayMap_unbound (l : list MeetingRow) :
  arrayMap (formatMeetingRecord_on ThisUndefined) l
  = match l with
    | [] => Returned []
    | _ :: _ => Thrown TypeError
    end.
Proof. by destruct l. Qed.

(** Called on the service, it formats every element. *)
Lemma arrayMap_bound (l : list MeetingRow) :
  arrayMap (formatMeetingRecord_on ThisService) l
  = Returned (Meetings.formatMeetingRecord toISOString formatDisplayDate
                formatDisplayTime <$> l).
Proof. induction l as [|x l IH]; simpl; [done|]. by rewrite IH. Qed.

Lemma mathCeilDiv_le (a b q : Z) :
  (0 < b)%Z -> (a <= q * b)%Z -> (mathCeilDiv a b <= q)%Z.
Proof.
  intros Hb H. unfold mathCeilDiv.
  assert (- q <= - a / b)%Z; [|lia].
  apply Z.div_le_lower_bound; lia.
Qed.

(** X20.  For a page number and a page size of at least 1, and a storage
    that answers both queries, [getMeetings] returns only when the page that
    is asked for holds no record, and then with an empty [data], [hasNext]
    false and [hasPrev] true exactly past the first page; when the page
    holds a record the call throws a [TypeError], because the formatter is
    handed to [map] without its receiver. *)
Theorem getMeetings_page
    (qe : QueryEnv) (query : GetMeetingsQueryDto) (w : World) :
  qe_findManyThrows qe = false ->
  qe_countThrows qe = false ->
  (forall sortBy sortOrder l,
     length (qe_orderBy qe sortBy sortOrder l) = length l) ->
  (1 <= default 1%Z (q_page query))%Z ->
  (1 <= default 10%Z (q_limit query))%Z ->
  getMeetings qe query w
  = if ((default 1%Z (q_page query) - 1) * default 10%Z (q_limit query)
        <? Z.of_nat (length (selected qe (buildWhere newDate query) w)))%Z
    then (Thrown TypeError, w)
    else
      (Returned
         (mkPaginated true []
            (mkPagination (default 1%Z (q_page query))
               (default 10%Z (q_limit query))
               (Z.of_nat (length (selected qe (buildWhere newDate query) w)))
               (mathCeilDiv
                  (Z.of_nat
                     (length (selected qe (buildWhere newDate query) w)))
                  (default 10%Z (q_limit query)))
               false
               (1 <? default 1%Z (q_page query))%Z)),
       w).
Proof.
  intros Hf Hc Hlen Hp Hl.
  unfold Queries.getMeetings, promiseAll2, bind, ret, throw,
    prisma_meetingRecord_findMany, prisma_meetingRecord_count.
  rewrite Hf, Hc. cbv zeta. cbn [fst snd].
  rewrite arrayMap_unbound.
  set (page := default 1%Z (q_page query)) in *.
  set (limit := default 10%Z (q_limit query)) in *.
  set (rows := selected qe (buildWhere newDate query) w).
  set (sorted := qe_orderBy qe _ _ rows).
  assert (Hs : length sorted = length rows) by apply Hlen.
  destruct (Z.ltb_spec ((page - 1) * limit) (Z.of_nat (length rows)))
    as [Hlt|Hge].
  - destruct (take _ _) as [|x l] eqn:E; [|done]. exfalso.
    apply (f_equal length) in E. rewrite length_take, length_drop in E.
    simpl in E. nia.
  - rewrite drop_ge by nia. rewrite take_nil.
    replace (page <? mathCeilDiv (Z.of_nat (length rows)) limit)%Z
      with false; [done|].
    symmetry. apply Z.ltb_ge.
    assert (mathCeilDiv (Z.of_nat (length rows)) limit <= page - 1)%Z
      by (apply mathCeilDiv_le; lia).
    lia.
Qed.

(** X21.  [getMeetings] only reads: the world is as before, whatever the
    query and the storage.  It throws the storage error when one of its two
    queries is rejected and a [TypeError] when the storage hands it a
    record; a response that is returned carries no record. *)
Theorem getMeetings_reads_only
    (qe : QueryEnv) (query : GetMeetingsQueryDto) (w : World) :
  snd (getMeetings qe query w) = w
  /\ match fst (getMeetings qe query w) with
     | Returned response =>
         success response = true /\ data response = []
         /\ qe_findManyThrows qe = false /\ qe_countThrows qe = false
     | Thrown e =>
         (e = StorageError
          /\ (qe_findManyThrows qe = true \/ qe_countThrows qe = true))
         \/ (e = TypeError
             /\ qe_findManyThrows qe = false /\ qe_countThrows qe = false)
     end.
Proof.
  unfold Queries.getMeetings, promiseAll2, bind, ret, throw,
    prisma_meetingRecord_findMany, prisma_meetingRecord_count.
  destruct (qe_findManyThrows qe); simpl; [auto|].
  destruct (qe_countThrows qe); simpl; [auto|].
  rewrite arrayMap_unbound.
  destruct (take _ _); simpl; auto.
Qed.

End Service.

Import Scenario.

Lemma getMeetings_page_witness :
  qe_findManyThrows qe_ok = false
  /\ qe_countThrows qe_ok = false
  /\ (1 <= default 1%Z (q_page query_default))%Z
  /\ (1 <= default 10%Z (q_limit query_default))%Z
  /\ Z.of_nat (length (selected qe_ok (buildWhere newDate query_default)
                         world_one)) = 1%Z
  /\ Queries.getMeetings newDate toISOString formatDisplayDate
       formatDisplayTime qe_ok query_default world_one
     = (Thrown TypeError, world_one).
Proof.
  split; [reflexivity|]. split; [reflexivity|].
  split; [simpl; lia|]. split; [simpl; lia|]. split; [reflexivity|].
  rewrite (getMeetings_page newDate toISOString formatDisplayDate
             formatDisplayTime qe_ok query_default world_one
             eq_refl eq_refl (fun _ _ _ => eq_refl)
             ltac:(simpl; lia) ltac:(simpl; lia)).
  reflexivity.
Defined.

End QueriesFacts.

(* ===================================================================== *)
(** * Properties of the timer wrappers *)
(* ===================================================================== *)

Module TimersFacts.
Import Timers.

Section Wrappers.

Context {Args : Type}.
Implicit Types (events : list (Event Args)) (ev : Event Args).

Lemma run_snoc {S} (step : S -> Event Args -> option S) events ev : forall st,
  run step st (events ++ [ev])
  = match run step st events with
    | Some st' => step st' ev
    | None => None
    end.
Proof.
  induction events as [|e events IH]; intros st; simpl.
  - by destruct (step st ev).
  - destruct (step st e); [apply IH|done].
Qed.

Lemma callsOf_snoc_call events t (args : Args) :
  callsOf (events ++ [Call t args]) = callsOf events ++ [(t, args)].
Proof. unfold callsOf. by rewrite omap_app. Qed.

Lemma callsOf_snoc_timer events t timer :
  callsOf (events ++ [@TimerFires Args t timer]) = callsOf events.
Proof. unfold callsOf. by rewrite omap_app, app_nil_r. Qed.

Lemma guaranteedDelay_spec delay :
  (0 <= guaranteedDelay delay)%Z
  /\ ((delay <= TIMEOUT_MAX)%Z -> (delay <= guaranteedDelay delay)%Z).
Proof.
  unfold guaranteedDelay.
  destruct (Z.leb_spec 0 delay), (Z.leb_spec delay TIMEOUT_MAX); simpl; lia.
Qed.

Lemma StronglySorted_apart_le (d d' : Z) (l : list (Z * Args)) :
  (d' <= d)%Z -> StronglySorted (apart d) l -> StronglySorted (apart d') l.
Proof.
  intros Hd. induction 1 as [|x l Hl IH Hx]; constructor; [done|].
  eapply Forall_impl; [exact Hx|]. unfold apart. intros y Hy. lia.
Qed.

(** ** [throttle] *)

Lemma throttleInv_step limit events ev (st st' : Throttle Args) :
  throttleInv limit events st ->
  throttle_step limit st ev = Some st' ->
  throttleInv limit (events ++ [ev]) st'.
Proof.
  intros (Hs & Hsub & Hhd & Hf & Ht) Hstep. unfold throttleInv.
  destruct (guaranteedDelay_spec limit) as [Hg _].
  destruct ev as [t args|t timer]; simpl in Hstep.
  - destruct (Z.leb_spec (th_clock st) t) as [Hc|]; [|discriminate].
    injection Hstep as <-. rewrite callsOf_snoc_call. unfold throttled.
    destruct (inThrottle st) eqn:E; simpl.
    + destruct (Ht eq_refl) as (Hne & i & due & Htm & Hall).
      split_and!.
      * exact Hs.
      * by apply sublist_inserts_r.
      * rewrite Hhd. destruct (callsOf events) as [|c cs] eqn:Ec; [|done].
        apply sublist_nil_r in Hsub. congruence.
      * discriminate.
      * intros _. split; [done|]. eauto.
    + destruct (Hf eq_refl) as (Htm & Hall).
      split_and!; simpl.
      * apply StronglySorted_app_2; auto; [|repeat constructor].
        intros x1 x2 Hx1 ->%list_elem_of_singleton.
        rewrite Forall_forall in Hall. specialize (Hall _ Hx1).
        unfold apart. simpl. lia.
      * by apply sublist_app.
      * destruct (th_executed st) as [|e es] eqn:Ee; simpl.
        -- destruct (callsOf events) as [|c cs]; [done|].
           simpl in Hhd. discriminate.
        -- by destruct (callsOf events).
      * discriminate.
      * intros _. split; [by destruct (th_executed st)|].
        exists (th_nextTimer st), (setTimeout_due t limit).
        rewrite Htm, insert_empty. split; [done|].
        apply Forall_app. split.
        -- eapply Forall_impl; [exact Hall|]. unfold setTimeout_due.
           simpl. intros x Hx. lia.
        -- repeat constructor. unfold setTimeout_due. simpl. lia.
  - destruct (th_timers st !! timer) as [due|] eqn:El; [|discriminate].
    destruct (Z.leb_spec (th_clock st) t) as [Hc|]; [|discriminate].
    destruct (Z.leb_spec due t) as [Hd|]; [|discriminate].
    injection Hstep as <-. rewrite callsOf_snoc_timer. simpl.
    destruct (inThrottle st) eqn:E.
    + destruct (Ht eq_refl) as (Hne & i & due' & Htm & Hall).
      rewrite Htm in El. apply lookup_singleton_Some in El as [<- <-].
      split_and!; auto; [|discriminate].
      intros _. rewrite Htm, delete_singleton_eq. split; [done|].
      eapply Forall_impl; [exact Hall|]. simpl. intros x Hx. lia.
    + destruct (Hf eq_refl) as (Htm & Hall).
      rewrite Htm, lookup_empty in El. discriminate.
Qed.

Lemma throttleInv_run limit t0 events : forall st,
  run (throttle_step limit) (throttle_initial t0) events = Some st ->
  throttleInv limit events st.
Proof.
  induction events as [|ev events IH] using rev_ind; intros st H.
  - injection H as <-. split_and!; simpl; auto; try constructor; try done.
  - rewrite run_snoc in H.
    destruct (run _ _ events) as [st0|]; [|discriminate].
    eapply throttleInv_step; eauto.
Qed.

(** X22.  Whatever the calls and however the timers fire, for a [limit] of
    at most 2^31 - 1 milliseconds, which is what a timer can hold, two calls
    that [throttle] lets through to [func] are at least [limit] milliseconds
    apart; for every [limit], [func] gets calls of the wrapper only, in their
    order, each at most once, and the first call of all always goes
    through. *)
Theorem throttle_calls_apart
    (limit t0 : Z) events (st : Throttle Args) :
  run (throttle_step limit) (throttle_initial t0) events = Some st ->
  ((limit <= TIMEOUT_MAX)%Z -> StronglySorted (apart limit) (th_executed st))
  /\ th_executed st `sublist_of` callsOf events
  /\ head (th_executed st) = head (callsOf events).
Proof.
  intros H. destruct (throttleInv_run _ _ _ _ H) as (H1 & H2 & H3 & _).
  split_and!; auto. intros Hl.
  eapply StronglySorted_apart_le; [|exact H1].
  by apply guaranteedDelay_spec.
Qed.

(** ** [debounce] *)

Lemma clearTimeout_held {X} (timers : gmap nat X) held :
  timers = ∅ \/ (exists i x, timers = {[i := x]} /\ held = Some i) ->
  clearTimeout held timers = ∅.
Proof.
  intros [->|(i & x & -> & ->)]; simpl.
  - destruct held; [apply delete_empty|done].
  - apply delete_singleton_eq.
Qed.

Lemma debounceInv_step wait events ev (st st' : Debounce Args) :
  debounceInv wait events st ->
  debounce_step wait st ev = Some st' ->
  debounceInv wait (events ++ [ev]) st'.
Proof.
  intros Hinv Hstep. unfold debounceInv in *.
  destruct ev as [t args|t timer]; simpl in Hstep.
  - destruct (Z.leb_spec (db_clock st) t) as [Hc|]; [|discriminate].
    injection Hstep as <-. rewrite callsOf_snoc_call. unfold debounced.
    right. exists (db_nextTimer st), (callsOf events), t, args. simpl.
    rewrite clearTimeout_held, insert_empty.
    + split_and!; auto.
      destruct Hinv as [[_ H]|(i & calls & tc & a & _ & _ & -> & H)]; auto.
      rewrite fmap_app. by apply sublist_inserts_r.
    + destruct Hinv as [[H _]|(i & calls & tc & a & H & Hto & _)]; eauto.
  - destruct (db_timers st !! timer) as [[due args]|] eqn:El; [|discriminate].
    destruct (Z.leb_spec (db_clock st) t) as [Hc|]; [|discriminate].
    destruct (Z.leb_spec due t) as [Hd|]; [|discriminate].
    injection Hstep as <-. rewrite callsOf_snoc_timer. left. simpl.
    destruct Hinv as [[H _]|(i & calls & tc & a & H & Hto & Hcalls & Hsub)].
    + rewrite H, lookup_empty in El. discriminate.
    + rewrite H in El. apply lookup_singleton_Some in El as [<- [= <- <-]].
      rewrite H, delete_singleton_eq. split; [done|].
      rewrite Hcalls, !fmap_app. by apply sublist_app.
Qed.

Lemma debounceInv_run wait t0 events : forall st,
  run (debounce_step wait) (debounce_initial t0) events = Some st ->
  debounceInv wait events st.
Proof.
  induction events as [|ev events IH] using rev_ind; intros st H.
  - injection H as <-. left. simpl. split; [done|constructor].
  - rewrite run_snoc in H.
    destruct (run _ _ events) as [st0|]; [|discriminate].
    eapply debounceInv_step; eauto.
Qed.

(** X23.  When a timer of [debounce] fires, [func] is called with the
    arguments of the latest call of the wrapper and earlier calls are
    dropped; for a [wait] of at most 2^31 - 1 milliseconds, which is what a
    timer can hold, that call is at least [wait] milliseconds old, so that
    [func] never runs within [wait] of a call. *)
Theorem debounce_runs_latest_call
    (wait t0 t : Z) (timer : nat) events (st st' : Debounce Args) :
  run (debounce_step wait) (debounce_initial t0) events = Some st ->
  debounce_step wait st (TimerFires t timer) = Some st' ->
  exists tc args,
    last (callsOf events) = Some (tc, args)
    /\ (tc <= t)%Z
    /\ ((wait <= TIMEOUT_MAX)%Z -> (tc + wait <= t)%Z)
    /\ db_executed st' = db_executed st ++ [(t, args)]
    /\ db_timers st' = ∅.
Proof.
  intros Hrun Hstep. apply debounceInv_run in Hrun. simpl in Hstep.
  destruct (db_timers st !! timer) as [[due args]|] eqn:El; [|discriminate].
  destruct (Z.leb_spec (db_clock st) t) as [Hc|]; [|discriminate].
  destruct (Z.leb_spec due t) as [Hd|]; [|discriminate].
  injection Hstep as <-. simpl.
  destruct Hrun as [[H _]|(i & calls & tc & a & H & Hto & Hcalls & Hsub)].
  - rewrite H, lookup_empty in El. discriminate.
  - rewrite H in El. apply lookup_singleton_Some in El as [<- [= <- <-]].
    exists tc, a. rewrite Hcalls, last_snoc, H, delete_singleton_eq.
    destruct (guaranteedDelay_spec wait) as [Hg Hw].
    unfold setTimeout_due in *. split_and!; auto; lia.
Qed.

(** X24.  [debounce] never has more than one timer pending, and [func]
    gets arguments of calls of the wrapper only, in their order, each call
    at most once. *)
Theorem debounce_at_most_once
    (wait t0 : Z) events (st : Debounce Args) :
  run (debounce_step wait) (debounce_initial t0) events = Some st ->
  size (db_timers st) <= 1
  /\ (db_executed st).*2 `sublist_of` (callsOf events).*2.
Proof.
  intros Hrun. apply debounceInv_run in Hrun.
  destruct Hrun as [[H Hsub]|(i & calls & tc & a & H & Hto & Hcalls & Hsub)].
  - rewrite H, map_size_empty. split; [lia|done].
  - rewrite H, map_size_singleton, Hcalls, fmap_app. split; [lia|].
    by apply sublist_inserts_r.
Qed.

End Wrappers.

(** A delay of 2^31 milliseconds does not fit in a timer: the timer may
    fire after 1 ms, and two calls 31 ms apart both reach [func]; after the
    same two calls [debounce], with that delay, runs [func] 1 ms after the
    last call. *)
Example wrapped_delay_is_not_waited_for :
  th_executed
    <$> run (throttle_step 2147483648) (throttle_initial 0) events_wrapped
  = Some [(0%Z, 1); (31%Z, 2)]
  /\ db_executed
       <$> run (debounce_step 2147483648) (debounce_initial 0)
             [Call 0%Z 1; Call 31%Z 2; TimerFires 32%Z 1]
     = Some [(32%Z, 2)].
Proof. split; reflexivity. Qed.

Lemma throttle_calls_apart_witness :
  exists st,
    run (throttle_step 100) (throttle_initial 0) events_example = Some st
    /\ th_executed st = [(0%Z, 1); (100%Z, 3)]
    /\ ((100 <= TIMEOUT_MAX)%Z ->
        StronglySorted (apart 100) (th_executed st))
    /\ th_executed st `sublist_of` callsOf events_example
    /\ head (th_executed st) = head (callsOf events_example).
Proof.
  eexists. split; [reflexivity|]. split; [reflexivity|].
  apply (throttle_calls_apart 100 0 events_example). reflexivity.
Defined.

Lemma debounce_runs_latest_call_witness :
  exists st st',
    run (debounce_step 50) (debounce_initial 0)
      [Call 0%Z 1; Call 10%Z 2] = Some st
    /\ debounce_step 50 st (TimerFires 60%Z 1) = Some st'
    /\ exists tc args,
         last (callsOf [Call 0%Z 1; Call 10%Z 2]) = Some (tc, args)
         /\ (tc <= 60)%Z
         /\ ((50 <= TIMEOUT_MAX)%Z -> (tc + 50 <= 60)%Z)
         /\ db_executed st' = db_executed st ++ [(60%Z, args)]
         /\ db_timers st' = ∅.
Proof.
  eexists. eexists. split; [reflexivity|]. split; [reflexivity|].
  apply (debounce_runs_latest_call 50 0 60 1 [Call 0%Z 1; Call 10%Z 2]);
    reflexivity.
Defined.

Lemma debounce_at_most_once_witness :
  exists st,
    run (debounce_step 50) (debounce_initial 0)
      [Call 0%Z 1; Call 10%Z 2; TimerFires 60%Z 1; Call 70%Z 3] = Some st
    /\ size (db_timers st) <= 1
    /\ (db_executed st).*2
       `sublist_of`
       (callsOf [Call 0%Z 1; Call 10%Z 2; TimerFires 60%Z 1; Call 70%Z 3]).*2.
Proof.
  eexists. split; [reflexivity|].
  apply (debounce_at_most_once 50 0
           [Call 0%Z 1; Call 10%Z 2; TimerFires 60%Z 1; Call 70%Z 3]).
  reflexivity.
Defined.

End TimersFacts.

(* ===================================================================== *)
(** * Properties of the keyboard shortcuts *)
(* ===================================================================== *)

Module ShortcutsFacts.
Import JS Shortcuts.

Local Ltac solve_called :=
  intros;
  repeat match goal with
         | |- _ /\ _ => split
         | |- _ ∉ _ => intros ?
         | H : _ ∈ _ :: _ |- _ => apply elem_of_cons in H as [H|H]
         | H : _ ∈ [] |- _ => by apply elem_of_nil in H
         end;
  try done; try discriminate; auto.

(** X25.  A key press calls at most one callback, and only after
    preventing the default action; nothing happens while the user types in an
    input or a text area; [onSubmit] is called only for Enter with Ctrl or
    Meta and only when submitting is possible; while a recording runs
    neither [onStartRecording] nor [onReset] is called, and outside a
    recording [onStopRecording] is not. *)
Theorem handleKeyDown_callbacks
    (isRecording canSubmit : bool) (event : KeyboardEvent) :
  length (called (handleKeyDown isRecording canSubmit event)) <= 1
  /\ (called (handleKeyDown isRecording canSubmit event) <> [] ->
      defaultPrevented (handleKeyDown isRecording canSubmit event) = true)
  /\ ((targetIsInput event || targetIsTextArea event) = true ->
      handleKeyDown isRecording canSubmit event = mkHandled false [])
  /\ (OnSubmit ∈ called (handleKeyDown isRecording canSubmit event) ->
      canSubmit = true /\ code event = code_Enter
      /\ (ctrlKey event || metaKey event) = true)
  /\ (isRecording = true ->
      (OnStartRecording ∉ called (handleKeyDown isRecording canSubmit event))
      /\ (OnReset ∉ called (handleKeyDown isRecording canSubmit event)))
  /\ (isRecording = false ->
      OnStopRecording ∉ called (handleKeyDown isRecording canSubmit event)).
Proof.
  unfold handleKeyDown.
  destruct (targetIsInput event || targetIsTextArea event) eqn:Ht; simpl.
  { split_and!; solve_called. }
  case_bool_decide as H1; simpl.
  { destruct isRecording; simpl; split_and!; solve_called. }
  case_bool_decide as H2; simpl.
  { destruct (ctrlKey event || metaKey event), canSubmit, isRecording; simpl;
      split_and!; solve_called. }
  case_bool_decide as H3; simpl.
  { destruct isRecording; simpl; split_and!; solve_called. }
  split_and!; solve_called.
Qed.

End ShortcutsFacts.

(* ===================================================================== *)
(** * What the service keeps of its tables: properties *)
(* ===================================================================== *)

Module LifecycleFacts.
Import JS Validation Meetings MeetingsFacts Lifecycle.

Lemma laterStateOf_refl r : laterStateOf r r.
Proof. by split. Qed.

Lemma laterStateOf_trans r1 r2 r3 :
  laterStateOf r1 r2 -> laterStateOf r2 r3 -> laterStateOf r1 r3.
Proof. intros [H1 H2] [H3 H4]. split; [congruence|auto]. Qed.

Lemma laterStateOf_applyUpdate t rowId last r :
  laterStateOf r (applyUpdate t (mkUpdateData (Some true) rowId last) r).
Proof. by split. Qed.

Lemma laterStateOf_afterSync env r : laterStateOf r (afterSync env r).
Proof.
  unfold afterSync. destruct (addRecord env r); [|apply laterStateOf_refl].
  destruct (updateThrows env (mr_id r)); [apply laterStateOf_refl|].
  apply laterStateOf_applyUpdate.
Qed.

Lemma keepsRecords_refl w : keepsRecords w w.
Proof. intros i r H. exists r. split; [done|apply laterStateOf_refl]. Qed.

Lemma keepsRecords_trans w1 w2 w3 :
  keepsRecords w1 w2 -> keepsRecords w2 w3 -> keepsRecords w1 w3.
Proof.
  intros H12 H23 i r H.
  destruct (H12 _ _ H) as (r2 & H2 & L2).
  destruct (H23 _ _ H2) as (r3 & H3 & L3).
  exists r3. split; [done|]. by eapply laterStateOf_trans.
Qed.

Lemma upsertedRow_inv d old :
  (forall r, old = Some r -> statsRowInv d r) ->
  statsRowInv d (upsertedRow d old).
Proof.
  intros H. destruct old as [r|]; simpl.
  - destruct (H r eq_refl) as (H1 & H2 & H3 & H4 & H5 & H6 & H7).
    unfold statsRowInv. simpl. split_and!; auto; lia.
  - unfold statsRowInv. simpl. split_and!; auto; lia.
Qed.

Lemma backgroundCallback_keeps env i w :
  keepsRecords w (snd (backgroundCallback env i w)).
Proof.
  unfold backgroundCallback, tryCatch, bind, prisma_meetingRecord_findUnique,
    googleSheetsService_addRecord, prisma_meetingRecord_update, ret, throw.
  destruct (findUniqueThrows env); simpl; [apply keepsRecords_refl|].
  destruct (meetingRecords w !! i) as [r|] eqn:E; simpl;
    [|apply keepsRecords_refl].
  destruct (addRecord env r); simpl; [|apply keepsRecords_refl].
  rewrite E. destruct (updateThrows env i); simpl; [apply keepsRecords_refl|].
  intros i' r' Hi'. simpl. destruct (decide (i' = i)) as [->|Hne].
  - rewrite lookup_insert_eq. eexists. split; [done|].
    rewrite E in Hi'. injection Hi' as <-. apply laterStateOf_applyUpdate.
  - rewrite lookup_insert_ne by done. exists r'.
    split; [done|apply laterStateOf_refl].
Qed.

Lemma syncToGoogleSheets_keeps env w :
  wellFormed w -> keepsRecords w (snd (syncToGoogleSheets env w)).
Proof.
  intros Hwf. destruct (findManyThrows env) eqn:Hf.
  - unfold syncToGoogleSheets, bind, prisma_meetingRecord_findMany_unsynced.
    rewrite Hf. apply keepsRecords_refl.
  - destruct (syncToGoogleSheets_spec env w Hwf Hf)
      as (w' & -> & Ha & Hb & _). simpl.
    intros i r Hi.
    destruct (decide (i ∈ mr_id <$> unsyncedBatch 100 w)) as [Hin|Hout].
    + apply list_elem_of_fmap in Hin as (r0 & -> & Hr0).
      destruct (unsyncedBatch_lookup _ _ _ Hwf Hr0) as [Hl _].
      rewrite Hl in Hi. injection Hi as <-.
      exists (afterSync env r0). split; [by apply Ha|].
      apply laterStateOf_afterSync.
    + exists r. rewrite (Hb _ Hout). split; [done|apply laterStateOf_refl].
Qed.

Section Service.

Variable validationService : jsstring -> ValidationResult.
Variable newDate : jsstring -> Date.
Variables toISOString formatDisplayDate formatDisplayTime : Date -> jsstring.
Variable numberToString : Z -> jsstring.

Abbreviation createMeetingRecord :=
  (createMeetingRecord validationService newDate toISOString
     formatDisplayDate formatDisplayTime numberToString).
Abbreviation handle :=
  (handle validationService newDate toISOString formatDisplayDate
     formatDisplayTime numberToString).
Abbreviation serve :=
  (serve validationService newDate toISOString formatDisplayDate
     formatDisplayTime numberToString).

Lemma createMeetingRecord_keeps env dto audioFile w :
  wellFormed w ->
  keepsRecords w (snd (createMeetingRecord env dto audioFile w)).
Proof.
  intros Hwf.
  destruct (isValid (validationService (fullTranscription dto))) eqn:Hv.
  - destruct (extractedData (validationService (fullTranscription dto)))
      as [d|] eqn:He.
    + rewrite (createMeetingRecord_valid _ _ _ _ _ _ _ _ _ _ _ Hv He).
      cbv zeta.
      destruct (createThrows env); [apply keepsRecords_refl|].
      assert (Hnew : forall row ds q,
                keepsRecords w
                  (mkWorld (<[nextId w := row]> (meetingRecords w))
                     ds (Pos.succ (nextId w)) q)).
      { intros row ds q i r Hi. simpl. exists r.
        split; [|apply laterStateOf_refl].
        rewrite lookup_insert_ne; [done|].
        intros <-. destruct (Hwf _ _ Hi). lia. }
      destruct (upsertThrows env); apply Hnew.
    + rewrite (createMeetingRecord_no_data _ _ _ _ _ _ _ _ _ _ Hv He).
      apply keepsRecords_refl.
  - rewrite (createMeetingRecord_invalid _ _ _ _ _ _ _ _ _ _ Hv).
    apply keepsRecords_refl.
Qed.

Lemma handle_wellFormed req w : wellFormed w -> wellFormed (handle req w).
Proof.
  intros Hwf. destruct req as [env dto audioFile|env|env]; simpl.
  - by apply createMeetingRecord_wellFormed.
  - by apply syncToGoogleSheets_wellFormed.
  - unfold runImmediate. destruct (immediates w) as [|i rest]; [done|].
    apply backgroundCallback_wellFormed. exact Hwf.
Qed.

Lemma handle_keeps req w : wellFormed w -> keepsRecords w (handle req w).
Proof.
  intros Hwf. destruct req as [env dto audioFile|env|env]; simpl.
  - by apply createMeetingRecord_keeps.
  - by apply syncToGoogleSheets_keeps.
  - unfold runImmediate. destruct (immediates w) as [|i rest];
      [apply keepsRecords_refl|].
    apply (backgroundCallback_keeps env i
             (mkWorld (meetingRecords w) (dailyStats w) (nextId w) rest)).
Qed.

Lemma handle_statsInv req w : statsInv w -> statsInv (handle req w).
Proof.
  intros Hinv. destruct req as [env dto audioFile|env|env]; simpl.
  - intros d r. rewrite createMeetingRecord_dailyStats.
    destruct (fst (createMeetingRecord env dto audioFile w)); [|apply Hinv].
    cbv zeta. intros [[<- <-]|[Hne Hd]]%lookup_insert_Some.
    + apply upsertedRow_inv. intros r Hr. by apply Hinv.
    + by apply Hinv.
  - intros d r. rewrite syncToGoogleSheets_dailyStats. apply Hinv.
  - intros d r. rewrite runImmediate_dailyStats. apply Hinv.
Qed.

(** X26.  Over any sequence of requests (calls of [createMeetingRecord],
    passes of the batch synchronisation, turns of the event loop) no record
    is ever deleted or edited: each record stays under its identifier with
    the same content, only the members of the synchronisation and
    [updatedAt] change, and a record that is marked as synchronised is never
    unmarked. *)
Theorem serve_keeps_records (reqs : list Request) (w : World) :
  wellFormed w ->
  wellFormed (serve reqs w) /\ keepsRecords w (serve reqs w).
Proof.
  revert w. induction reqs as [|req rest IH]; intros w Hwf; simpl.
  - split; [done|apply keepsRecords_refl].
  - destruct (IH (handle req w) (handle_wellFormed req w Hwf)) as [H1 H2].
    split; [done|].
    eapply keepsRecords_trans; [by apply handle_keeps|done].
Qed.

(** X27.  The rows of the daily statistics that the service writes never
    count a failure, a second group or a second speaker: over any sequence
    of requests every row keeps [failedRecordings] 0, [uniqueGroups] 1,
    [uniqueSpeakers] 1, [averageDuration] 0 and
    [successfulRecordings = totalRecordings >= 1], under its own date. *)
Theorem serve_statistics_shape (reqs : list Request) (w : World) :
  statsInv w -> statsInv (serve reqs w).
Proof.
  revert w. induction reqs as [|req rest IH]; intros w Hinv; simpl; [done|].
  apply IH. by apply handle_statsInv.
Qed.

End Service.

Import Scenario.

Lemma serve_keeps_records_witness :
  wellFormed world_one
  /\ wellFormed
       (Meetings.serve validateTranscription newDate toISOString
          formatDisplayDate formatDisplayTime numberToString
          requests_27 world_one)
  /\ keepsRecords world_one
       (Meetings.serve validateTranscription newDate toISOString
          formatDisplayDate formatDisplayTime numberToString
          requests_27 world_one).
Proof.
  assert (Hwf : wellFormed world_one).
  { apply createMeetingRecord_wellFormed, wellFormed_empty. }
  split; [exact Hwf|].
  exact (serve_keeps_records validateTranscription newDate toISOString
           formatDisplayDate formatDisplayTime numberToString
           requests_27 world_one Hwf).
Defined.

Lemma serve_statistics_shape_witness :
  statsInv emptyWorld
  /\ statsInv
       (Meetings.serve validateTranscription newDate toISOString
          formatDisplayDate formatDisplayTime numberToString
          requests_27 emptyWorld).
Proof.
  assert (H0 : statsInv emptyWorld).
  { intros d r H. simpl in H. by rewrite lookup_empty in H. }
  split; [exact H0|].
  exact (serve_statistics_shape validateTranscription newDate toISOString
           formatDisplayDate formatDisplayTime numberToString
           requests_27 emptyWorld H0).
Defined.

End LifecycleFacts.
